(** * Cobbler items: inheritance, traversal, matching and cache invalidation

    A shallow embedding of [cobbler/items/item.py] (class [Item]) and
    theorems about attribute resolution, the parent graph, the match
    engine and the dict cache.

    Python objects are modelled as records kept in a heap (a list indexed
    by object identity); raw attribute values are a small universe of
    Python values; exceptions are an explicit error type; recursion that
    Python bounds only by its recursion limit takes a fuel argument and
    yields [Diverge] when the fuel runs out. *)

From Stdlib Require Import List String Ascii ZArith Bool Lia.
From stdpp Require Import base list.
Import ListNotations.

#[local] Set Warnings "-register-all".
Local Open Scope string_scope.

(** ** Python values *)

Inductive value : Type :=
| VNone
| VBool (b : bool)
| VInt (z : Z)
| VStr (s : string)
| VList (l : list value)
| VDict (d : list (string * value))
| VOpaque (tag : string).

(** A Python [dict] with string keys: an association list in insertion
    order whose keys are pairwise distinct. *)
Definition dict := list (string * value).

(** ** Exceptions and results *)

Inductive exn : Type :=
| AttributeError (msg : string)
| TypeError (msg : string)
| ValueError (msg : string)
| KeyError (key : string)
| CX (msg : string).

Inductive result (A : Type) : Type :=
| Ok (a : A)
| Raise (e : exn)
| Diverge.

Arguments Ok {A} a.
Arguments Raise {A} e.
Arguments Diverge {A}.

(** The error monad of the embedding; [x ← m; k] is stdpp's notation for
    [mbind]. *)
#[global] Instance result_bind : MBind result := fun A B k m =>
  match m with
  | Ok a => k a
  | Raise e => Raise e
  | Diverge => Diverge
  end.

#[global] Instance result_ret : MRet result := fun A a => Ok a.

Definition is_attribute_error (e : exn) : bool :=
  match e with AttributeError _ => true | _ => false end.

(** ** Strings *)

Definition dquote : string := String (ascii_of_nat 34) EmptyString.

Definition lower_ascii (c : ascii) : ascii :=
  let n := nat_of_ascii c in
  if (65 <=? n)%nat && (n <=? 90)%nat then ascii_of_nat (n + 32) else c.

(** [str.lower()] on the ASCII range. *)
Fixpoint lower (s : string) : string :=
  match s with
  | EmptyString => EmptyString
  | String c r => String (lower_ascii c) (lower r)
  end.

(** [c in s] for a one-character [c]. *)
Fixpoint has_char (c : ascii) (s : string) : bool :=
  match s with
  | EmptyString => false
  | String d r => Ascii.eqb c d || has_char c r
  end.

Definition startswith (s p : string) : bool := String.prefix p s.

(** [s[1:]] *)
Definition tail_str (s : string) : string :=
  match s with
  | EmptyString => EmptyString
  | String _ r => r
  end.

(** [sub in s] for strings. *)
Fixpoint substring_of (sub s : string) : bool :=
  String.prefix sub s ||
  match s with
  | EmptyString => false
  | String _ r => substring_of sub r
  end.

Fixpoint chars_of (s : string) : list value :=
  match s with
  | EmptyString => []
  | String c r => VStr (String c EmptyString) :: chars_of r
  end.

(** ** Dictionaries *)

Fixpoint dict_get (k : string) (d : dict) : option value :=
  match d with
  | [] => None
  | (k', v) :: r => if String.eqb k k' then Some v else dict_get k r
  end.

Definition dict_has (k : string) (d : dict) : bool :=
  match dict_get k d with Some _ => true | None => false end.

(** [d[k] = v]: an existing key keeps its position, a new key goes last. *)
Fixpoint dict_set (k : string) (v : value) (d : dict) : dict :=
  match d with
  | [] => [(k, v)]
  | (k', v') :: r =>
      if String.eqb k k' then (k', v) :: r else (k', v') :: dict_set k v r
  end.

(** [d.update(other)] for a dict [other]. *)
Definition dict_update (d other : dict) : dict :=
  fold_left (fun acc kv => dict_set (fst kv) (snd kv) acc) other d.

(** ** Equality and truth of values *)

Definition int_of_bool (b : bool) : Z := if b then 1%Z else 0%Z.

(** Python's [==] on the modelled values: numbers compare by value
    ([True == 1]), lists element-wise, dicts independently of order. *)
Fixpoint py_eq (a b : value) {struct a} : bool :=
  match a, b with
  | VNone, VNone => true
  | VBool x, VBool y => Bool.eqb x y
  | VBool x, VInt z | VInt z, VBool x => Z.eqb (int_of_bool x) z
  | VInt x, VInt y => Z.eqb x y
  | VStr s, VStr t => String.eqb s t
  | VList l, VList m =>
      (fix go (l m : list value) : bool :=
         match l, m with
         | [], [] => true
         | x :: l', y :: m' => py_eq x y && go l' m'
         | _, _ => false
         end) l m
  | VDict d, VDict e =>
      Nat.eqb (List.length d) (List.length e) &&
      (fix go (d : list (string * value)) : bool :=
         match d with
         | [] => true
         | (k, v) :: d' =>
             match dict_get k e with
             | Some w => py_eq v w && go d'
             | None => false
             end
         end) d
  | VOpaque s, VOpaque t => String.eqb s t
  | _, _ => false
  end.

Definition is_none (v : value) : bool :=
  match v with VNone => true | _ => false end.

(** [bool(v)] *)
Definition truthy (v : value) : bool :=
  match v with
  | VNone => false
  | VBool b => b
  | VInt z => negb (Z.eqb z 0)
  | VStr s => negb (String.eqb s EmptyString)
  | VList l => match l with [] => false | _ => true end
  | VDict d => match d with [] => false | _ => true end
  | VOpaque _ => true
  end.

(** [enums.VALUE_INHERITED] *)
Definition VALUE_INHERITED : string := "<<inherit>>".

(** [v == enums.VALUE_INHERITED] *)
Definition is_inherited (v : value) : bool := py_eq v (VStr VALUE_INHERITED).

(** [x in container] *)
Definition py_contains (x : value) (container : value) : result bool :=
  match container with
  | VList l => Ok (existsb (fun y => py_eq x y) l)
  | VDict d => Ok (match x with VStr k => dict_has k d | _ => false end)
  | VStr s =>
      match x with
      | VStr sub => Ok (substring_of sub s)
      | _ => Raise (TypeError "'in <string>' requires string as left operand")
      end
  | _ => Raise (TypeError "argument is not iterable")
  end.

(** [container[key]] for a string key. *)
Definition py_getitem (container : value) (key : string) : result value :=
  match container with
  | VDict d =>
      match dict_get key d with
      | Some v => Ok v
      | None => Raise (KeyError key)
      end
  | _ => Raise (TypeError "indices must be integers")
  end.

(** The elements a [for] loop visits. *)
Definition py_iter (v : value) : result (list value) :=
  match v with
  | VList l => Ok l
  | VStr s => Ok (chars_of s)
  | VDict d => Ok (map (fun kv => VStr (fst kv)) d)
  | _ => Raise (TypeError "object is not iterable")
  end.

(** ** [fnmatch.fnmatch] on lower-cased strings

    The pattern language of Python's [fnmatch]: [*] matches any run of
    characters, [?] one character, [[seq]] one character of [seq] (with
    ranges [a-z]), [[!seq]] one character not in [seq]; a [[] without a
    closing bracket stands for itself. *)

Inductive gtok : Type :=
| GStar
| GAny
| GLit (c : ascii)
| GSet (neg : bool) (items : list (ascii * ascii)).

(** The bytes of a bracket expression, after the optional [!], up to the
    closing bracket; the first byte may itself be a closing bracket. *)
Fixpoint until_close (l : list ascii) : option (list ascii * list ascii) :=
  match l with
  | [] => None
  | c :: r =>
      if Ascii.eqb c "]" then Some ([], r)
      else match until_close r with
           | Some (stuff, rest) => Some (c :: stuff, rest)
           | None => None
           end
  end.

Definition bracket_body (l : list ascii) : option (list ascii * list ascii) :=
  match l with
  | c :: r =>
      if Ascii.eqb c "]" then
        match until_close r with
        | Some (stuff, rest) => Some (c :: stuff, rest)
        | None => None
        end
      else until_close l
  | [] => None
  end.

(** Character ranges of a bracket body: [a-z] is a range, any other
    character stands for itself. *)
Fixpoint set_items (l : list ascii) : list (ascii * ascii) :=
  match l with
  | [] => []
  | a :: r =>
      match r with
      | d :: b :: r' =>
          if Ascii.eqb d "-" then (a, b) :: set_items r' else (a, a) :: set_items r
      | _ => (a, a) :: set_items r
      end
  end.

Fixpoint translate (fuel : nat) (pat : list ascii) : list gtok :=
  match fuel with
  | O => []
  | S n =>
      match pat with
      | [] => []
      | c :: r =>
          if Ascii.eqb c "*" then GStar :: translate n r
          else if Ascii.eqb c "?" then GAny :: translate n r
          else if Ascii.eqb c "[" then
            let '(neg, body) :=
              match r with
              | e :: r' => if Ascii.eqb e "!" then (true, r') else (false, r)
              | [] => (false, r)
              end in
            match bracket_body body with
            | Some (stuff, rest) => GSet neg (set_items stuff) :: translate n rest
            | None => GLit c :: translate n r
            end
          else GLit c :: translate n r
      end
  end.

Definition in_range (c : ascii) (r : ascii * ascii) : bool :=
  (nat_of_ascii (fst r) <=? nat_of_ascii c)%nat &&
  (nat_of_ascii c <=? nat_of_ascii (snd r))%nat.

Definition tok_accepts (t : gtok) (c : ascii) : bool :=
  match t with
  | GStar | GAny => true
  | GLit d => Ascii.eqb c d
  | GSet neg items => xorb neg (existsb (in_range c) items)
  end.

Fixpoint gmatch (ts : list gtok) (s : list ascii) {struct ts} : bool :=
  match ts with
  | [] => match s with [] => true | _ => false end
  | GStar :: ts' =>
      (fix star (s : list ascii) : bool :=
         gmatch ts' s ||
         match s with
         | [] => false
         | _ :: s' => star s'
         end) s
  | t :: ts' =>
      match s with
      | c :: s' => tok_accepts t c && gmatch ts' s'
      | [] => false
      end
  end.

(** [fnmatch.fnmatch(name, pat)] (POSIX: [normcase] is the identity). *)
Definition fnmatch (name pat : string) : bool :=
  gmatch (translate (String.length pat) (list_ascii_of_string pat))
         (list_ascii_of_string name).

Definition has_glob_meta (s : string) : bool :=
  has_char "?" s || has_char "*" s || has_char "[" s.

Section Item.

(** ** The match engine *)

(** [input_converters.input_string_or_list] and
    [input_converters.input_string_or_dict] (called with
    [allow_multiples=True]) belong to another module; the engine is
    parametric in them. *)
Variable input_string_or_list : string -> result value.
Variable input_string_or_dict : string -> result value.

(** The [for] loop of the list case: every token is in the candidate. *)
Fixpoint all_members (tokens : list value) (from_obj : value) : result bool :=
  match tokens with
  | [] => Ok true
  | t :: r =>
      b ← py_contains t from_obj;
      if negb b then Ok false else all_members r from_obj
  end.

(** The [for] loop of the dict case: every parsed key is in the
    candidate with an equal value. *)
Fixpoint all_pairs (keys : list string) (from_search : value)
    (from_obj : dict) : result bool :=
  match keys with
  | [] => Ok true
  | k :: r =>
      dict_value ← py_getitem from_search k;
      match dict_get k from_obj with
      | None => Ok false
      | Some w =>
          if negb (py_eq dict_value w) then Ok false
          else all_pairs r from_search from_obj
      end
  end.

(** [Item.__find_compare(from_search, from_obj)] *)
Definition find_compare (from_search from_obj : value) : result bool :=
  match from_obj with
  | VStr obj =>
      let from_obj_lower := lower obj in
      match from_search with
      | VStr search =>
          let from_search_lower := lower search in
          if negb (has_char "?" from_search_lower)
             && negb (has_char "*" from_search_lower)
             && negb (has_char "[" from_search_lower)
          then Ok (String.eqb from_obj_lower from_search_lower)
          else Ok (fnmatch from_obj_lower from_search_lower)
      | _ => Raise (AttributeError "object has no attribute 'lower'")
      end
  | _ =>
      match from_search with
      | VStr search =>
          match from_obj with
          | VList _ =>
              converted ← input_string_or_list search;
              tokens ← py_iter converted;
              all_members tokens from_obj
          | VDict d =>
              converted ← input_string_or_dict search;
              match converted with
              | VDict parsed => all_pairs (map fst parsed) converted d
              | _ => Raise (AttributeError "object has no attribute 'keys'")
              end
          | VBool b =>
              let inp :=
                existsb (String.eqb (lower search)) ["true"; "1"; "y"; "yes"] in
              if Bool.eqb inp b then Ok true else Ok false
          | _ => Raise (TypeError "find cannot compare type")
          end
      | _ => Raise (TypeError "find cannot compare type")
      end
  end.

(** The interface-level field names of [find_match_single_key]. *)
Definition interface_fields : list string :=
  [ "cnames"; "connected_mode"; "if_gateway"; "ipv6_default_gateway";
    "ipv6_mtu"; "ipv6_prefix"; "ipv6_secondaries"; "ipv6_static_routes";
    "management"; "mtu"; "static"; "mac_address"; "ip_address";
    "ipv6_address"; "netmask"; "virt_bridge"; "dhcp_tag"; "dns_name";
    "static_routes"; "interface_type"; "interface_master"; "bonding_opts";
    "bridge_opts"; "interface" ].

(** The loop over [data["interfaces"].items()]: [Ok true] is the early
    [return True], [Ok false] means the loop ran to its end. *)
Fixpoint scan_interfaces (ifs : dict) (key : string) (v : value)
    : result bool :=
  match ifs with
  | [] => Ok false
  | (name, interface) :: r =>
      if py_eq v (VStr name) then Ok true
      else if negb (is_none v) then
        present ← py_contains (VStr key) interface;
        if present : bool then
          field ← py_getitem interface key;
          hit ← find_compare field v;
          if hit : bool then Ok true else scan_interfaces r key v
        else scan_interfaces r key v
      else scan_interfaces r key v
  end.

(** [Item.find_match_single_key(data, key, value, no_errors)] *)
Definition find_match_single_key (data : dict) (key : string) (v : value)
    (no_errors : bool) : result bool :=
  '(key_found_already, returned) ←
    (if dict_has "interfaces" data then
       if existsb (String.eqb key) interface_fields then
         match dict_get "interfaces" data with
         | Some (VDict ifs) =>
             hit ← scan_interfaces ifs key v;
             Ok (true, hit)
         | _ => Raise (AttributeError "object has no attribute 'items'")
         end
       else Ok (false, false)
     else Ok (false, false));
  if returned : bool then Ok true
  else if negb (dict_has key data)
          && (if key_found_already : bool
              then negb (is_none v) else negb no_errors)
  then Ok false
  else if is_none v then Ok true
  else
    match dict_get key data with
    | Some candidate => find_compare v candidate
    | None => Raise (KeyError key)
    end.

(** The loop of [Item.find_match] over [kwargs.items()]. *)
Fixpoint find_match_loop (data : dict) (kwargs : list (string * value))
    (no_errors : bool) : result bool :=
  match kwargs with
  | [] => Ok true
  | (key, v) :: r =>
      res ←
        match v with
        | VNone => find_match_single_key data key v no_errors
        | VStr s =>
            if startswith s "~" then
              b ← find_match_single_key data key (VStr (tail_str s)) no_errors;
              Ok (negb b)
            else find_match_single_key data key v no_errors
        | _ => Raise (AttributeError "object has no attribute 'startswith'")
        end;
      if negb res then Ok false else find_match_loop data r no_errors
  end.

(** [Item.find_match(kwargs, no_errors)], for the flattened attribute
    dictionary [data] that [self.to_dict()] returns. *)
Definition find_match (data : dict) (kwargs : list (string * value))
    (no_errors : bool) : result bool :=
  find_match_loop data kwargs no_errors.

(** ** Families and the static tables *)

Inductive family : Type := Distro | Profile | Image | System | Menu | Repo.

#[global] Instance family_eq_dec : EqDecision family.
Proof. solve_decision. Defined.

(** [TYPE_NAME] and [COLLECTION_TYPE] of the concrete classes. *)
Definition family_name (f : family) : string :=
  match f with
  | Distro => "distro"
  | Profile => "profile"
  | Image => "image"
  | System => "system"
  | Menu => "menu"
  | Repo => "repo"
  end.

(** [Item.TYPE_DEPENDENCIES] *)
Definition TYPE_DEPENDENCIES (f : family) : list (family * string) :=
  match f with
  | Repo => [(Profile, "repos")]
  | Distro => [(Profile, "distro")]
  | Menu => [(Menu, "parent"); (Image, "menu"); (Profile, "menu")]
  | Profile => [(Profile, "parent"); (System, "profile")]
  | Image => [(System, "image")]
  | System => []
  end.

(** [Item.LOGICAL_INHERITANCE]; [None] for a family that is no key of
    the table. *)
Definition LOGICAL_INHERITANCE (f : family)
    : option (list (family * string) * list (family * string)) :=
  match f with
  | Distro => Some ([], [(Profile, "distro")])
  | Profile => Some ([(Distro, "distro")], [(System, "profile")])
  | Image => Some ([], [(System, "image")])
  | System => Some ([(Image, "image"); (Profile, "profile")], [])
  | Menu | Repo => None
  end.

(** ** Items, descriptors and the API object *)

(** Modelled from the spec: the [ItemCache] class is not part of this
    file.  A cache entry holds a nullable snapshot of the fully resolved
    dictionary and the per-field cached values. *)
Record cache : Type := {
  cached_dict : option dict;
  cached_fields : dict }.

Definition empty_cache : cache :=
  {| cached_dict := None; cached_fields := [] |}.

(** [cache.set_dict_cache(None, True)] *)
Definition set_dict_cache_none (c : cache) : cache :=
  {| cached_dict := None; cached_fields := cached_fields c |}.

(** [cache.clean_dict_cache()] *)
Definition clean_dict_cache (c : cache) : cache := empty_cache.

(** An [Item] instance.  [it_attrs] holds the raw attributes [_x] other
    than the ones with a field of their own, under the name [x];
    [it_registered] tells whether the object is a value of the
    collection of its family. *)
Record item : Type := {
  it_family : family;
  it_name : string;
  it_parent : string;
  it_depth : Z;
  it_inmemory : bool;
  it_has_initialized : bool;
  it_registered : bool;
  it_attrs : dict;
  it_cache : cache }.

Definition with_parent (s : string) (it : item) : item :=
  {| it_family := it_family it; it_name := it_name it; it_parent := s;
     it_depth := it_depth it; it_inmemory := it_inmemory it;
     it_has_initialized := it_has_initialized it;
     it_registered := it_registered it; it_attrs := it_attrs it;
     it_cache := it_cache it |}.

Definition with_depth (z : Z) (it : item) : item :=
  {| it_family := it_family it; it_name := it_name it;
     it_parent := it_parent it; it_depth := z;
     it_inmemory := it_inmemory it;
     it_has_initialized := it_has_initialized it;
     it_registered := it_registered it; it_attrs := it_attrs it;
     it_cache := it_cache it |}.

Definition with_cache (f : cache -> cache) (it : item) : item :=
  {| it_family := it_family it; it_name := it_name it;
     it_parent := it_parent it; it_depth := it_depth it;
     it_inmemory := it_inmemory it;
     it_has_initialized := it_has_initialized it;
     it_registered := it_registered it; it_attrs := it_attrs it;
     it_cache := f (it_cache it) |}.

(** How a class attribute answers [getattr] on an instance. *)
Inductive getter : Type :=
| GRaw (attr : string)      (* return self._attr *)
| GResolve                  (* return self._resolve(name) *)
| GResolveDict              (* return self._resolve_dict(name) *)
| GParent                   (* the parent property *)
| GLogicalParent            (* the logical_parent property *)
| GConst (v : value)        (* a class constant *)
| GOpaque.                  (* a method or an item list *)

(** A class attribute: [d_inheritable] tells whether it is an instance
    of [InheritableProperty] or [InheritableDictProperty]. *)
Record descriptor : Type := {
  d_inheritable : bool;
  d_getter : getter }.

(** The API object: the heap of item objects (the index is the object's
    identity, the registered objects of a family in heap order are its
    collection), the settings, and the attributes that the concrete
    family classes and [BaseItem] declare, which are not in this file. *)
Record api : Type := {
  api_objs : list item;
  api_settings : dict;
  api_schema : family -> string -> option descriptor }.

Definition obj : Type := (nat * item)%type.

Definition with_objs (l : list item) (a : api) : api :=
  {| api_objs := l; api_settings := api_settings a;
     api_schema := api_schema a |}.

(** The attributes of the class body of [Item]. *)
Definition item_class_attr (f : family) (name : string)
    : option descriptor :=
  let inh_dict := Some {| d_inheritable := true; d_getter := GResolveDict |} in
  let lazy g := Some {| d_inheritable := false; d_getter := g |} in
  if String.eqb name "kernel_options" then inh_dict
  else if String.eqb name "kernel_options_post" then inh_dict
  else if String.eqb name "autoinstall_meta" then inh_dict
  else if String.eqb name "fetchable_files" then inh_dict
  else if String.eqb name "template_files" then lazy (GRaw "template_files")
  else if String.eqb name "boot_files" then lazy GResolveDict
  else if String.eqb name "depth" then lazy (GRaw "depth")
  else if String.eqb name "parent" then lazy GParent
  else if String.eqb name "get_parent" then lazy (GRaw "parent")
  else if String.eqb name "is_subobject" then lazy (GRaw "is_subobject")
  else if String.eqb name "logical_parent" then lazy GLogicalParent
  else if String.eqb name "TYPE_NAME" then lazy (GConst (VStr "generic"))
  else if String.eqb name "COLLECTION_TYPE"
  then lazy (GConst (VStr "generic"))
  else if existsb (String.eqb name)
            ["children"; "descendants"; "get_conceptual_parent";
             "tree_walk"; "sort_key"; "find_match";
             "find_match_single_key"; "dump_vars"; "deserialize";
             "grab_tree"; "TYPE_DEPENDENCIES"; "LOGICAL_INHERITANCE"]
  then lazy GOpaque
  else None.

(** [getattr(type(self), name)]: the concrete class first, then [Item]. *)
Definition class_attr (a : api) (f : family) (name : string)
    : option descriptor :=
  match api_schema a f name with
  | Some d => Some d
  | None => item_class_attr f name
  end.

Fixpoint enum_from (i : nat) (l : list item) : list obj :=
  match l with
  | [] => []
  | x :: r => (i, x) :: enum_from (S i) r
  end.

(** [api.get_items(collection_type)], in iteration order. *)
Definition get_items (a : api) (f : family) : list obj :=
  List.filter
    (fun p => it_registered (snd p) && bool_decide (it_family (snd p) = f))
    (enum_from 0 (api_objs a)).

(** [collection.get(name)]; a collection is keyed by the names of its
    items. *)
Definition collection_get (coll : list obj) (name : string) : option obj :=
  List.find (fun p => String.eqb (it_name (snd p)) name) coll.

(** [getattr(self, "_" + name)] *)
Definition raw_attr (it : item) (name : string) : result value :=
  if String.eqb name "name" then Ok (VStr (it_name it))
  else if String.eqb name "parent" then Ok (VStr (it_parent it))
  else if String.eqb name "depth" then Ok (VInt (it_depth it))
  else if String.eqb name "inmemory" then Ok (VBool (it_inmemory it))
  else if String.eqb name "has_initialized"
  then Ok (VBool (it_has_initialized it))
  else match dict_get name (it_attrs it) with
       | Some v => Ok v
       | None =>
           Raise (AttributeError
                    ("object has no attribute '_" ++ name ++ "'"))
       end.

(** Modelled from the spec: [BaseItem.to_dict] is not part of this
    file.  The flattened attribute map holds every raw attribute under
    the name of its property. *)
Definition to_dict (it : item) : dict :=
  ("name", VStr (it_name it)) :: ("parent", VStr (it_parent it))
  :: ("depth", VInt (it_depth it)) :: it_attrs it.

Fixpoint filter_matching (coll : list obj) (criteria : list (string * value))
    : result (list obj) :=
  match coll with
  | [] => Ok []
  | p :: r =>
      hit ← find_match (to_dict (snd p)) criteria false;
      rest ← filter_matching r criteria;
      Ok (if hit : bool then p :: rest else rest)
  end.

(** Modelled from the spec: [api.find_items(what, criteria,
    return_list=True)] is not part of this file.  Given a family and a
    criteria mapping it returns the matching items of the family's
    collection, delegating to the match engine. *)
Definition find_items (a : api) (what : family)
    (criteria : list (string * value)) : result (list obj) :=
  filter_matching (get_items a what) criteria.

(** Modelled from the spec: [api.find_items(what, name=..,
    return_list=False)], the first matching item or nothing. *)
Definition find_item (a : api) (what : family)
    (criteria : list (string * value)) : result (option obj) :=
  matches ← find_items a what criteria;
  Ok (head matches).

(** ** The parent graph *)

(** The getter of [Item.parent]. *)
Definition parent (a : api) (self : item) : option obj :=
  if String.eqb (it_parent self) EmptyString then None
  else collection_get (get_items a (it_family self)) (it_parent self).

(** The [while] loop of [get_conceptual_parent]: the topmost same-type
    ancestor. *)
Fixpoint top_ancestor (fuel : nat) (a : api) (curr_obj : item)
    : result item :=
  match parent a curr_obj with
  | None => Ok curr_obj
  | Some next_obj =>
      match fuel with
      | O => Diverge
      | S n => top_ancestor n a (snd next_obj)
      end
  end.

(** The [for] loop of [get_conceptual_parent] over the previous levels. *)
Fixpoint first_prev_level (a : api) (curr_obj : item)
    (levels : list (family * string)) : result (option obj) :=
  match levels with
  | [] => Ok None
  | (prev_level_type, attr) :: r =>
      prev_level_name ← raw_attr curr_obj attr;
      if negb (is_none prev_level_name)
         && negb (py_eq prev_level_name (VStr EmptyString))
      then
        prev_level_item ←
          find_item a prev_level_type [("name", prev_level_name)];
        match prev_level_item with
        | Some found => Ok (Some found)
        | None => first_prev_level a curr_obj r
        end
      else first_prev_level a curr_obj r
  end.

(** [Item.get_conceptual_parent()] *)
Definition get_conceptual_parent (fuel : nat) (a : api) (self : item)
    : result (option obj) :=
  curr_obj ← top_ancestor fuel a self;
  match LOGICAL_INHERITANCE (it_family curr_obj) with
  | Some (prev_levels, _) => first_prev_level a curr_obj prev_levels
  | None => Ok None
  end.

(** The getter of [Item.logical_parent]. *)
Definition logical_parent (fuel : nat) (a : api) (self : item)
    : result (option obj) :=
  match parent a self with
  | None => get_conceptual_parent fuel a self
  | Some p => Ok (Some p)
  end.

(** ** Attribute resolution *)

(** The annihilator marker that the string-to-mapping conversion can
    produce. *)
Variable annihilator : value.

(** Modelled from the spec: [utils.dict_annihilate] is not part of this
    file.  After the merge, a key whose value is the annihilator marker
    is deleted from the result. *)
Definition dict_annihilate (d : dict) : dict :=
  List.filter (fun kv => negb (py_eq (snd kv) annihilator)) d.

(** [merged_dict.update(v)]: a mapping is merged; the attributes are
    typed [Dict], another value makes [update] raise. *)
Definition update_with (d : dict) (v : value) : result dict :=
  match v with
  | VDict other => Ok (dict_update d other)
  | _ => Raise (TypeError "dict.update needs a mapping")
  end.

(** [hasattr(x, name)] followed by [getattr(x, name)]: [hasattr] turns
    an [AttributeError] of the getter into [False] and lets every other
    exception through. *)
Definition lookup_attr (r : result value) : result (option value) :=
  match r with
  | Ok v => Ok (Some v)
  | Raise e => if is_attribute_error e then Ok None else Raise e
  | Diverge => Diverge
  end.

(** The same for an object that may be [None]. *)
Definition lookup_on (getattr : item -> string -> result value)
    (x : option obj) (name : string) : result (option value) :=
  match x with
  | None => Ok None
  | Some p => lookup_attr (getattr (snd p) name)
  end.

(** [Item.__common_resolve(property_name)] *)
Definition common_resolve (self : item) (property_name : string)
    : result (value * string) :=
  let settings_name := property_name in
  let property_name :=
    if startswith property_name "proxy_url_" then "proxy"
    else property_name in
  let settings_name :=
    if String.eqb property_name "owners" then "default_ownership"
    else settings_name in
  v ← raw_attr self property_name;
  Ok (v, settings_name).

Definition resolution_error (self : item) (property_name : string) : exn :=
  AttributeError
    ("<class '" ++ family_name (it_family self) ++ "'> " ++ dquote
     ++ it_name self ++ dquote ++ " inherits property " ++ dquote
     ++ property_name ++ dquote
     ++ ", but neither its parent nor settings have it").

Section Resolvers.

(** [getattr] on an item, for the calls that the resolvers make on the
    parent and on the conceptual parent. *)
Variable getattr : item -> string -> result value.

(** [Item.__resolve_get_parent_or_settings(property_name,
    settings_name)]; the result [VNone] is Python's [None]. *)
Definition resolve_get_parent_or_settings (fuel : nat) (a : api)
    (self : item) (property_name settings_name : string) : result value :=
  let settings := api_settings a in
  conceptual_parent ← get_conceptual_parent fuel a self;
  from_parent ← lookup_on getattr (parent a self) property_name;
  match from_parent with
  | Some v => Ok v
  | None =>
      from_conceptual ← lookup_on getattr conceptual_parent property_name;
      match from_conceptual with
      | Some v => Ok v
      | None =>
          match dict_get settings_name settings with
          | Some v => Ok v
          | None =>
              match dict_get ("default_" ++ settings_name) settings with
              | Some v => Ok v
              | None => Ok VNone
              end
          end
      end
  end.

(** [Item._resolve(property_name)] *)
Definition resolve_with (fuel : nat) (a : api) (self : item)
    (property_name : string) : result value :=
  '(attribute_value, settings_name) ← common_resolve self property_name;
  if is_inherited attribute_value then
    possible_return ←
      resolve_get_parent_or_settings fuel a self property_name
        settings_name;
    if negb (is_none possible_return) then Ok possible_return
    else Raise (resolution_error self property_name)
  else Ok attribute_value.

(** [Item._resolve_dict(property_name)] *)
Definition resolve_dict_with (fuel : nat) (a : api) (self : item)
    (property_name : string) : result value :=
  attribute_value ← raw_attr self property_name;
  let settings := api_settings a in
  conceptual_parent ← get_conceptual_parent fuel a self;
  from_conceptual ← lookup_on getattr conceptual_parent property_name;
  merged_dict ←
    match from_conceptual with
    | Some v => update_with [] v
    | None =>
        match dict_get property_name settings with
        | Some v => update_with [] v
        | None => Ok []
        end
    end;
  merged_dict ←
    (if negb (is_inherited attribute_value)
     then update_with merged_dict attribute_value
     else Ok merged_dict);
  Ok (VDict (dict_annihilate merged_dict)).

End Resolvers.

(** [getattr(self, name)] for a class attribute [name]. *)
Fixpoint getattr_prop (fuel : nat) (a : api) (self : item) (name : string)
    : result value :=
  match fuel with
  | O => Diverge
  | S n =>
      match class_attr a (it_family self) name with
      | None =>
          Raise (AttributeError
                   ("object has no attribute '" ++ name ++ "'"))
      | Some d =>
          match d_getter d with
          | GRaw attr => raw_attr self attr
          | GResolve => resolve_with (getattr_prop n a) n a self name
          | GResolveDict => resolve_dict_with (getattr_prop n a) n a self name
          | GParent =>
              Ok (match parent a self with
                  | Some _ => VOpaque "item"
                  | None => VNone
                  end)
          | GLogicalParent =>
              p ← logical_parent n a self;
              Ok (match p with
                  | Some _ => VOpaque "item"
                  | None => VNone
                  end)
          | GConst v => Ok v
          | GOpaque => Ok (VOpaque name)
          end
      end
  end.

(** [self._resolve(property_name)] *)
Definition _resolve (fuel : nat) (a : api) (self : item)
    (property_name : string) : result value :=
  resolve_with (getattr_prop fuel a) fuel a self property_name.

(** [self._resolve_dict(property_name)] *)
Definition _resolve_dict (fuel : nat) (a : api) (self : item)
    (property_name : string) : result value :=
  resolve_dict_with (getattr_prop fuel a) fuel a self property_name.

(** ** Traversal *)

(** A [for] loop that threads an accumulator and may raise. *)
Fixpoint foldM {A B : Type} (f : B -> A -> result B) (acc : B) (l : list A)
    : result B :=
  match l with
  | [] => Ok acc
  | x :: r => acc' ← f acc x; foldM f acc' r
  end.

(** The getter of [Item.children]. *)
Definition children (a : api) (self : item) : list obj :=
  List.filter (fun p => String.eqb (it_parent (snd p)) (it_name self))
              (get_items a (it_family self)).

(** [Item.tree_walk()] *)
Fixpoint tree_walk (fuel : nat) (a : api) (self : item) : result (list obj) :=
  match fuel with
  | O => Diverge
  | S n =>
      foldM (fun results child =>
               sub ← tree_walk n a (snd child);
               Ok (results ++ child :: sub)%list)
            [] (children a self)
  end.

(** A Python [set] of objects, kept as a list without repetition of an
    identity; [list(results)] returns its elements in some order, here
    the order of insertion. *)
Definition set_mem (o : nat) (s : list obj) : bool :=
  existsb (fun p => Nat.eqb (fst p) o) s.

Definition set_add (s : list obj) (p : obj) : list obj :=
  if set_mem (fst p) s then s else (s ++ [p])%list.

(** [results.update(l)] *)
Definition set_update (s : list obj) (l : list obj) : list obj :=
  fold_left set_add l s.

Section Descendants.

(** The getter [descendants] on a dependent item. *)
Variable descendants_of : item -> result (list obj).

(** The body of the loop over [TYPE_DEPENDENCIES[child.COLLECTION_TYPE]]. *)
Definition add_dependents (a : api) (child : item) (results : list obj)
    (item_type : family * string) : result (list obj) :=
  dep_type_items ←
    find_items a (fst item_type) [(snd item_type, VStr (it_name child))];
  foldM (fun results dep_item =>
           ds ← descendants_of (snd dep_item);
           Ok (set_update results ds))
        (set_update results dep_type_items) dep_type_items.

(** The body of the loop over [childs]. *)
Definition add_child_dependents (a : api) (results : list obj)
    (child : item) : result (list obj) :=
  foldM (add_dependents a child) results
        (TYPE_DEPENDENCIES (it_family child)).

End Descendants.

(** The getter of [Item.descendants]. *)
Fixpoint descendants (fuel : nat) (a : api) (self : item)
    : result (list obj) :=
  match fuel with
  | O => Diverge
  | S n =>
      childs ← tree_walk fuel a self;
      let results := set_update [] childs in
      let childs := (map snd childs ++ [self])%list in
      foldM (add_child_dependents (descendants n a) a) results childs
  end.

(** ** The dict cache *)

Definition update_obj (f : item -> item) (o : nat) (a : api) : api :=
  with_objs (alter f o (api_objs a)) a.

(** [dep_item.cache.set_dict_cache(None, True)] for every [dep_item]. *)
Definition invalidate_resolved (deps : list obj) (a : api) : api :=
  fold_left (fun a d => update_obj (with_cache set_dict_cache_none) (fst d) a)
            deps a.

(** The object of identity [o]; Python has no reference without an
    object, the embedding raises there. *)
Definition deref (a : api) (o : nat) : result item :=
  match api_objs a !! o with
  | Some it => Ok it
  | None => Raise (ValueError "no such object")
  end.

(** A method that mutates objects returns its outcome together with the
    state it leaves behind: an exception keeps the mutations made before
    it was raised. *)
Definition effect : Type := (result unit * api)%type.

Definition done (a : api) : effect := (Ok (), a).

(** Run a computation that reads the state [a] and continue with its
    value. *)
Definition reading {A : Type} (a : api) (r : result A) (k : A -> effect)
    : effect :=
  match r with
  | Ok x => k x
  | Raise e => (Raise e, a)
  | Diverge => (Diverge, a)
  end.

(** Sequence two mutations. *)
Definition and_then (m : effect) (k : api -> effect) : effect :=
  match m with
  | (Ok _, a) => k a
  | _ => m
  end.

(** Whether [Item._clean_dict_cache] goes on to the descendants: the
    attribute is inheritable and the collection knows the item's name.
    The concrete families are the only classes with instances, so
    [self.COLLECTION_TYPE != Item.COLLECTION_TYPE] holds. *)
Definition invalidates_descendants (a : api) (self : item)
    (attr : descriptor) : bool :=
  d_inheritable attr
  && bool_decide (collection_get (get_items a (it_family self))
                                 (it_name self) <> None).

(** [Item._clean_dict_cache(name)] on the object [o]. *)
Definition _clean_dict_cache (fuel : nat) (a : api) (o : nat)
    (name : option string) : effect :=
  reading a (deref a o) (fun self =>
  match dict_get "cache_enabled" (api_settings a) with
  | None =>
      (Raise (AttributeError "object has no attribute 'cache_enabled'"), a)
  | Some cache_enabled =>
      if negb (truthy cache_enabled) then done a
      else
        and_then
          match name with
          | Some name =>
              if it_inmemory self then
                match class_attr a (it_family self) (tail_str name) with
                | None =>
                    (Raise (AttributeError
                              ("type object has no attribute '"
                               ++ tail_str name ++ "'")), a)
                | Some attr =>
                    if invalidates_descendants a self attr then
                      reading a (descendants fuel a self) (fun deps =>
                      done (invalidate_resolved deps a))
                    else done a
                end
              else done a
          | None => done a
          end
          (fun a => done (update_obj (with_cache clean_dict_cache) o a))
  end).

(** Modelled from the spec: [BaseItem._is_dict_key] is not part of this
    file.  Once construction has completed, every attribute mutation
    triggers the cache cleanup. *)
Definition _is_dict_key (name : string) : bool := true.

(** Modelled from the spec: [BaseItem.clean_cache] is not part of this
    file.  The mutation hook runs the cache-invalidation routine for the
    changed attribute. *)
Definition clean_cache (fuel : nat) (a : api) (o : nat)
    (name : option string) : effect :=
  _clean_dict_cache fuel a o name.

(** The interception of [Item.__setattr__(name, value)], before the
    value is stored. *)
Definition setattr_hook (fuel : nat) (a : api) (o : nat) (name : string)
    : effect :=
  reading a (deref a o) (fun self =>
  if _is_dict_key name && it_has_initialized self
  then clean_cache fuel a o (Some name)
  else done a).

(** ** Setters *)

(** The setter of [Item.depth]; [bool] is a subclass of [int]. *)
Definition set_depth (fuel : nat) (a : api) (o : nat) (depth : value)
    : effect :=
  match depth with
  | VInt z =>
      and_then (setattr_hook fuel a o "_depth") (fun a =>
      done (update_obj (with_depth z) o a))
  | VBool b =>
      and_then (setattr_hook fuel a o "_depth") (fun a =>
      done (update_obj (with_depth (int_of_bool b)) o a))
  | _ => (Raise (TypeError "depth needs to be of type int"), a)
  end.

(** The setter of [Item.parent]. *)
Definition set_parent (fuel : nat) (a : api) (o : nat) (new_parent : value)
    : effect :=
  reading a (deref a o) (fun self =>
  match new_parent with
  | VStr parent_name =>
      if String.eqb parent_name EmptyString then
        and_then (setattr_hook fuel a o "_parent") (fun a =>
        done (update_obj (with_parent EmptyString) o a))
      else if String.eqb parent_name (it_name self) then
        (Raise (CX "self parentage is weird"), a)
      else
        match collection_get (get_items a (it_family self)) parent_name with
        | None =>
            (Raise (CX ("profile " ++ dquote ++ parent_name ++ dquote
                        ++ " not found, inheritance not possible")), a)
        | Some found =>
            and_then (setattr_hook fuel a o "_parent") (fun a =>
            and_then (done (update_obj (with_parent parent_name) o a))
              (fun a =>
            reading a (deref a (fst found)) (fun found =>
            set_depth fuel a o (VInt (it_depth found + 1)))))
        end
  | _ => (Raise (TypeError "Property 'parent' must be of type str!"), a)
  end).

(** ** Properties of the match engine *)



(** Lower-casing neither creates nor removes a glob metacharacter. *)
Lemma eqb_lower_ascii_meta (m c : ascii) :
  m = "?"%char \/ m = "*"%char \/ m = "["%char ->
  Ascii.eqb m (lower_ascii c) = Ascii.eqb m c.
Proof.
  intros [-> | [-> | ->]];
    destruct c as [[] [] [] [] [] [] [] []]; reflexivity.
Qed.

Lemma has_char_lower_meta (m : ascii) (s : string) :
  m = "?"%char \/ m = "*"%char \/ m = "["%char ->
  has_char m (lower s) = has_char m s.
Proof.
  intros Hm. induction s as [|c r IH]; simpl; [reflexivity|].
  now rewrite eqb_lower_ascii_meta, IH.
Qed.

Lemma has_glob_meta_lower (s : string) :
  has_glob_meta (lower s) = has_glob_meta s.
Proof.
  unfold has_glob_meta.
  rewrite !has_char_lower_meta; auto.
Qed.

Lemma find_compare_str (pattern candidate : string) :
  find_compare (VStr pattern) (VStr candidate) =
  Ok (if has_glob_meta pattern
      then fnmatch (lower candidate) (lower pattern)
      else String.eqb (lower candidate) (lower pattern)).
Proof.
  unfold find_compare. rewrite <- (has_glob_meta_lower pattern).
  unfold has_glob_meta.
  destruct (has_char "?" (lower pattern)), (has_char "*" (lower pattern)),
    (has_char "[" (lower pattern)); reflexivity.
Qed.

(** A [None] pattern never reaches a comparison in the interface loop. *)
Lemma scan_interfaces_none (ifs : dict) (key : string) :
  scan_interfaces ifs key VNone = Ok false.
Proof.
  induction ifs as [|[name interface] r IH]; simpl; [reflexivity|exact IH].
Qed.

Lemma find_match_single_key_none (data : dict) (key : string)
    (no_errors : bool) :
  dict_has key data = true ->
  (forall v, dict_get "interfaces" data = Some v -> exists ifs, v = VDict ifs) ->
  find_match_single_key data key VNone no_errors = Ok true.
Proof.
  intros Hkey Hifs. unfold find_match_single_key.
  rewrite Hkey. unfold dict_has.
  destruct (dict_get "interfaces" data) as [v|] eqn:Hi.
  - destruct (Hifs v eq_refl) as [ifs ->].
    destruct (existsb (String.eqb key) interface_fields); simpl.
    + rewrite scan_interfaces_none. reflexivity.
    + reflexivity.
  - reflexivity.
Qed.


(** C10: a criterion whose pattern is [None], on a key of the flattened
    attribute dictionary, is satisfied whatever the stored value is: the
    [find_match] loop passes on to the remaining criteria, and alone the
    criterion makes [find_match] answer [True]. *)
Theorem find_match_none_pattern (data : dict) (key : string)
    (rest : list (string * value)) (no_errors : bool) :
  dict_has key data = true ->
  (forall v, dict_get "interfaces" data = Some v -> exists ifs, v = VDict ifs) ->
  find_match_single_key data key VNone no_errors = Ok true
  /\ find_match data [(key, VNone)] no_errors = Ok true
  /\ find_match data ((key, VNone) :: rest) no_errors
     = find_match data rest no_errors.
Proof.
  intros Hkey Hifs.
  pose proof (find_match_single_key_none data key no_errors Hkey Hifs) as H.
  unfold find_match. simpl. rewrite H. auto.
Qed.

(** ** Scalar resolution *)

(** The first source, in the given order, that has the attribute. *)
Fixpoint first_found (sources : list (option value)) : option value :=
  match sources with
  | [] => None
  | Some v :: _ => Some v
  | None :: r => first_found r
  end.

(** The sources of an inherited scalar, in the order of the
    specification: the same-type parent's property, the conceptual
    parent's property, the settings field, the settings field with the
    prefix [default_]. *)
Definition scalar_sources (a : api) (from_parent from_conceptual : option value)
    (settings_name : string) : list (option value) :=
  [ from_parent; from_conceptual;
    dict_get settings_name (api_settings a);
    dict_get ("default_" ++ settings_name) (api_settings a) ].

Lemma resolve_not_inherited (fuel : nat) (a : api) (self : item)
    (property_name : string) (raw : value) (settings_name : string) :
  common_resolve self property_name = Ok (raw, settings_name) ->
  is_inherited raw = false ->
  _resolve fuel a self property_name = Ok raw.
Proof.
  intros Hc Hi. unfold _resolve, resolve_with. rewrite Hc. simpl.
  rewrite Hi. reflexivity.
Qed.

Lemma resolve_get_parent_or_settings_first (fuel : nat) (a : api)
    (self : item) (property_name settings_name : string)
    (cp : option obj) (s1 s2 : option value) :
  get_conceptual_parent fuel a self = Ok cp ->
  lookup_on (getattr_prop fuel a) (parent a self) property_name = Ok s1 ->
  (s1 = None ->
   lookup_on (getattr_prop fuel a) cp property_name = Ok s2) ->
  resolve_get_parent_or_settings (getattr_prop fuel a) fuel a self
    property_name settings_name
  = Ok (match first_found (scalar_sources a s1 s2 settings_name) with
        | Some v => v
        | None => VNone
        end).
Proof.
  intros Hcp H1 H2. unfold resolve_get_parent_or_settings.
  rewrite Hcp. simpl. rewrite H1. simpl.
  destruct s1 as [v1|]; [reflexivity|].
  rewrite (H2 eq_refl). simpl.
  destruct s2 as [v2|]; [reflexivity|]. simpl.
  repeat match goal with
         | |- context [dict_get ?k ?d] => destruct (dict_get k d)
         end; reflexivity.
Qed.



(** ** Dictionaries and dict resolution *)

Lemma dict_get_set (k k' : string) (v : value) (d : dict) :
  dict_get k (dict_set k' v d) =
  if String.eqb k k' then Some v else dict_get k d.
Proof.
  induction d as [|[h w] r IH]; simpl.
  - destruct (String.eqb k k'); reflexivity.
  - destruct (String.eqb_spec k' h) as [->|Hne]; simpl.
    + destruct (String.eqb k h); reflexivity.
    + rewrite IH. destruct (String.eqb_spec k h) as [->|Hkh];
        [|reflexivity].
      destruct (String.eqb_spec h k') as [Heq|_]; [|reflexivity].
      congruence.
Qed.

Lemma dict_get_none_keys (k : string) (d : dict) :
  dict_get k d = None <-> k ∉ map fst d.
Proof.
  induction d as [|[h w] r IH]; simpl.
  - split; [intros _; apply not_elem_of_nil|reflexivity].
  - rewrite not_elem_of_cons.
    destruct (String.eqb_spec k h) as [->|Hne].
    + split; [discriminate|]. intros [H _]. congruence.
    + rewrite IH. tauto.
Qed.

(** Lookup in [d.update(other)]: the keys of [other] win. *)
Lemma dict_get_update (k : string) (d other : dict) :
  NoDup (map fst other) ->
  dict_get k (dict_update d other) =
  match dict_get k other with
  | Some v => Some v
  | None => dict_get k d
  end.
Proof.
  unfold dict_update. revert d.
  induction other as [|[h w] r IH]; intros d Hnd; simpl; [reflexivity|].
  apply NoDup_cons in Hnd as [Hnotin Hnd']. simpl in Hnotin.
  rewrite IH by assumption. rewrite dict_get_set.
  destruct (String.eqb_spec k h) as [->|Hne].
  - apply dict_get_none_keys in Hnotin. rewrite Hnotin. reflexivity.
  - reflexivity.
Qed.

Lemma dict_get_filter (P : string * value -> bool) (k : string) (d : dict) :
  NoDup (map fst d) ->
  (forall k1 k2 v, P (k1, v) = P (k2, v)) ->
  dict_get k (List.filter P d) =
  match dict_get k d with
  | Some v => if P (k, v) then Some v else None
  | None => None
  end.
Proof.
  intros Hnd HP. induction d as [|[h w] r IH]; simpl; [reflexivity|].
  apply NoDup_cons in Hnd as [Hnotin Hnd']. simpl in Hnotin.
  destruct (String.eqb_spec k h) as [->|Hne].
  - destruct (P (h, w)) eqn:HPw; simpl.
    + rewrite String.eqb_refl. reflexivity.
    + rewrite IH by assumption.
      apply dict_get_none_keys in Hnotin. rewrite Hnotin. reflexivity.
  - destruct (P (h, w)); simpl.
    + destruct (String.eqb_spec k h); [congruence|]. now apply IH.
    + now apply IH.
Qed.

Lemma dict_set_keys (k : string) (v : value) (d : dict) (x : string) :
  x ∈ map fst (dict_set k v d) <-> x = k \/ x ∈ map fst d.
Proof.
  induction d as [|[h w] r IH]; simpl.
  - rewrite elem_of_cons. tauto.
  - destruct (String.eqb_spec k h) as [->|Hne]; simpl.
    + rewrite elem_of_cons. tauto.
    + rewrite !elem_of_cons, IH. tauto.
Qed.

Lemma dict_set_nodup (k : string) (v : value) (d : dict) :
  NoDup (map fst d) -> NoDup (map fst (dict_set k v d)).
Proof.
  induction d as [|[h w] r IH]; simpl; intros Hnd.
  - apply NoDup_singleton.
  - apply NoDup_cons in Hnd as [Hnotin Hnd']. simpl in Hnotin.
    destruct (String.eqb_spec k h) as [->|Hne]; simpl.
    + apply NoDup_cons; split; assumption.
    + apply NoDup_cons; split; [|now apply IH].
      rewrite dict_set_keys. intros [Heq|Hin]; [congruence|tauto].
Qed.

Lemma dict_update_nodup (d other : dict) :
  NoDup (map fst d) -> NoDup (map fst (dict_update d other)).
Proof.
  unfold dict_update. revert d.
  induction other as [|[h w] r IH]; intros d Hnd; simpl; [assumption|].
  apply IH. now apply dict_set_nodup.
Qed.

Lemma dict_update_empty_l (other : dict) (k : string) :
  NoDup (map fst other) ->
  dict_get k (dict_update [] other) = dict_get k other.
Proof.
  intros Hnd. rewrite dict_get_update by assumption.
  destruct (dict_get k other); reflexivity.
Qed.

(** No value of an annihilated dictionary is the marker. *)
Lemma dict_annihilate_clean (d : dict) (k : string) (v : value) :
  dict_get k (dict_annihilate d) = Some v -> py_eq v annihilator = false.
Proof.
  unfold dict_annihilate. induction d as [|[h w] r IH]; simpl; [discriminate|].
  destruct (py_eq w annihilator) eqn:Hw; simpl; [exact IH|].
  destruct (String.eqb k h); [|exact IH].
  intros [= <-]. exact Hw.
Qed.

(** The mapping that dict resolution starts from: the conceptual
    parent's property if it has one, else the settings field, else the
    empty mapping. *)
Definition dict_base (a : api) (from_conceptual : option value)
    (property_name : string) : value :=
  match from_conceptual with
  | Some v => v
  | None =>
      match dict_get property_name (api_settings a) with
      | Some v => v
      | None => VDict []
      end
  end.

(** The binding of a key after the item's own raw mapping is laid over
    the base: the child's key wins, unless the raw value is the
    sentinel, in which case only the base contributes. *)
Definition overlay_get (base : dict) (raw : value) (k : string)
    : option value :=
  match raw with
  | VDict own =>
      match dict_get k own with
      | Some v => Some v
      | None => dict_get k base
      end
  | _ => dict_get k base
  end.

(** C2: dict resolution starts from the conceptual parent's mapping of
    the same name (or the settings' mapping when no conceptual parent has
    the property), lays the item's own raw mapping over it with the
    child's keys winning unless the raw value is the sentinel, and deletes
    every key whose value is the annihilator marker; no value of the
    returned mapping is the marker. *)
Theorem resolve_dict_merge (fuel : nat) (a : api) (self : item)
    (property_name : string) (raw : value) (cp : option obj)
    (from_conceptual : option value) (base : dict) :
  raw_attr self property_name = Ok raw ->
  get_conceptual_parent fuel a self = Ok cp ->
  lookup_on (getattr_prop fuel a) cp property_name = Ok from_conceptual ->
  dict_base a from_conceptual property_name = VDict base ->
  NoDup (map fst base) ->
  (is_inherited raw = true
   \/ exists own, raw = VDict own /\ NoDup (map fst own)) ->
  exists merged,
    _resolve_dict fuel a self property_name = Ok (VDict merged)
    /\ (forall k,
          dict_get k merged =
          match overlay_get base raw k with
          | Some v => if py_eq v annihilator then None else Some v
          | None => None
          end)
    /\ (forall k v, dict_get k merged = Some v -> py_eq v annihilator = false).
Proof.
  intros Hraw Hcp Hlook Hbase Hnd Hown.
  assert (Hstart :
            match from_conceptual with
            | Some v => update_with [] v
            | None =>
                match dict_get property_name (api_settings a) with
                | Some v => update_with [] v
                | None => Ok []
                end
            end = Ok (dict_update [] base)).
  { unfold dict_base in Hbase.
    destruct from_conceptual as [v|]; [subst v; reflexivity|].
    destruct (dict_get property_name (api_settings a)) as [v|];
      [subst v; reflexivity|].
    injection Hbase as <-. reflexivity. }
  assert (Hfilter : forall d k, NoDup (map fst d) ->
            dict_get k (dict_annihilate d) =
            match dict_get k d with
            | Some v => if py_eq v annihilator then None else Some v
            | None => None
            end).
  { intros d k Hd. unfold dict_annihilate.
    rewrite dict_get_filter by (assumption || reflexivity).
    destruct (dict_get k d) as [v|]; [|reflexivity]. simpl.
    destruct (py_eq v annihilator); reflexivity. }
  unfold _resolve_dict, resolve_dict_with.
  rewrite Hraw. cbn [mbind result_bind]. rewrite Hcp.
  cbn [mbind result_bind]. rewrite Hlook. cbn [mbind result_bind].
  rewrite Hstart. cbn [mbind result_bind].
  destruct Hown as [Hinh | (own & -> & Hndown)].
  - rewrite Hinh. cbn [negb mbind result_bind].
    eexists. split; [reflexivity|]. split.
    + intros k. rewrite Hfilter by (apply dict_update_nodup, NoDup_nil_2).
      rewrite dict_update_empty_l by assumption.
      unfold overlay_get. destruct raw; try reflexivity.
      discriminate Hinh.
    + intros k v. apply dict_annihilate_clean.
  - cbn [is_inherited py_eq negb update_with mbind result_bind].
    eexists. split; [reflexivity|]. split.
    + intros k.
      rewrite Hfilter
        by (apply dict_update_nodup, dict_update_nodup, NoDup_nil_2).
      rewrite dict_get_update by assumption.
      rewrite dict_update_empty_l by assumption. reflexivity.
    + intros k v. apply dict_annihilate_clean.
Qed.

(** ** The parent setter *)

(** C7: the parent setter raises when the name is the item's own name and
    when the family collection has no item of that name; the state, the
    parent name included, is left as it was.  A name is a string that is
    not empty: the empty string stands for "no parent" and is the
    argument of the clearing, not the name of an item. *)
Theorem set_parent_rejects (fuel : nat) (a : api) (o : nat) (self : item)
    (name : string) :
  deref a o = Ok self ->
  name <> EmptyString ->
  name = it_name self
  \/ collection_get (get_items a (it_family self)) name = None ->
  exists msg, set_parent fuel a o (VStr name) = (Raise (CX msg), a).
Proof.
  intros Hself Hne Hbad. unfold set_parent, reading. rewrite Hself.
  destruct (String.eqb_spec name EmptyString) as [Heq|_]; [contradiction|].
  destruct (String.eqb_spec name (it_name self)) as [_|Hother].
  - eexists. reflexivity.
  - destruct Hbad as [Heq|Hnone]; [contradiction|].
    rewrite Hnone. eexists. reflexivity.
Qed.

(** ** The dict cache *)

Lemma with_cache_id (it : item) : with_cache (fun c => c) it = it.
Proof. destruct it; reflexivity. Qed.

Lemma update_obj_lookup (f : item -> item) (o i : nat) (a : api) :
  api_objs (update_obj f o a) !! i =
  (fun it => if Nat.eqb i o then f it else it) <$> api_objs a !! i.
Proof.
  unfold update_obj. simpl. rewrite list_lookup_alter.
  destruct (Nat.eqb_spec i o) as [->|Hne]; case_decide; try congruence.
  - destruct (api_objs a !! o); reflexivity.
  - destruct (api_objs a !! i); reflexivity.
Qed.

Lemma update_obj_settings (f : item -> item) (o : nat) (a : api) :
  api_settings (update_obj f o a) = api_settings a.
Proof. reflexivity. Qed.

Lemma invalidate_resolved_settings (deps : list obj) (a : api) :
  api_settings (invalidate_resolved deps a) = api_settings a.
Proof.
  unfold invalidate_resolved. revert a.
  induction deps as [|d r IH]; intros a; simpl; [reflexivity|].
  rewrite IH. reflexivity.
Qed.

(** The cascade clears the resolved snapshot of exactly the listed
    objects. *)
Lemma invalidate_resolved_lookup (deps : list obj) (a : api) (i : nat) :
  api_objs (invalidate_resolved deps a) !! i =
  (fun it => if set_mem i deps then with_cache set_dict_cache_none it else it)
    <$> api_objs a !! i.
Proof.
  unfold invalidate_resolved. revert a.
  induction deps as [|d r IH]; intros a; simpl.
  - destruct (api_objs a !! i); reflexivity.
  - rewrite IH, update_obj_lookup.
    destruct (api_objs a !! i) as [it|]; [|reflexivity]. simpl. f_equal.
    rewrite (Nat.eqb_sym d.1 i).
    destruct (Nat.eqb i d.1); simpl; [|reflexivity].
    destruct (set_mem i r); destruct it; reflexivity.
Qed.

(** An item without its cache. *)
Definition erase (it : item) : item := with_cache (fun _ => empty_cache) it.





(** ** The conceptual parent *)

(** [y] is [x] or one of its same-type ancestors. *)
Inductive ancestor_or_self (a : api) : item -> item -> Prop :=
| aos_self (x : item) : ancestor_or_self a x x
| aos_parent (x : item) (p : obj) (y : item) :
    parent a x = Some p ->
    ancestor_or_self a (snd p) y ->
    ancestor_or_self a x y.

Lemma top_ancestor_topmost (fuel : nat) (a : api) (self top : item) :
  top_ancestor fuel a self = Ok top ->
  parent a top = None /\ ancestor_or_self a self top.
Proof.
  revert self. induction fuel as [|n IH]; intros self H; simpl in H.
  - destruct (parent a self) eqn:Hp; [discriminate|].
    injection H as <-. split; [assumption|constructor].
  - destruct (parent a self) as [p|] eqn:Hp.
    + destruct (IH _ H) as [Htop Hanc]. split; [assumption|].
      econstructor; eassumption.
    + injection H as <-. split; [assumption|constructor].
Qed.

(** A reference value that [get_conceptual_parent] looks up: anything but
    [None] and the empty string. *)
Definition usable_reference (v : value) : bool :=
  negb (is_none v) && negb (py_eq v (VStr EmptyString)).

(** The previous-level entry [level] gives no item: its reference is not
    usable, or no item is found under it. *)
Definition yields_nothing (a : api) (top : item) (level : family * string)
    : Prop :=
  exists v, raw_attr top (snd level) = Ok v
            /\ (usable_reference v = false
                \/ find_item a (fst level) [("name", v)] = Ok None).

(** The previous-level entry [level] gives the item [x]. *)
Definition yields (a : api) (top : item) (level : family * string) (x : obj)
    : Prop :=
  exists v, raw_attr top (snd level) = Ok v
            /\ usable_reference v = true
            /\ find_item a (fst level) [("name", v)] = Ok (Some x).

Lemma first_prev_level_some (a : api) (top : item)
    (levels : list (family * string)) (x : obj) :
  first_prev_level a top levels = Ok (Some x) <->
  exists pre level post,
    levels = (pre ++ level :: post)%list
    /\ Forall (yields_nothing a top) pre
    /\ yields a top level x.
Proof.
  induction levels as [|[ty attr] r IH]; simpl.
  - split; [discriminate|].
    intros (pre & level & post & Heq & _). destruct pre; discriminate.
  - split.
    + intros H.
      destruct (raw_attr top attr) as [v| |] eqn:Hraw; try discriminate.
      cbn [mbind result_bind] in H.
      destruct (negb (is_none v) && negb (py_eq v (VStr EmptyString)))
        eqn:Huse.
      * destruct (find_item a ty [("name", v)]) as [[found|]| |] eqn:Hfind;
          try discriminate; cbn [mbind result_bind] in H.
        -- injection H as <-. exists [], (ty, attr), r.
           split; [reflexivity|]. split; [constructor|].
           exists v. auto.
        -- apply IH in H as (pre & level & post & -> & Hpre & Hlevel).
           exists ((ty, attr) :: pre), level, post.
           split; [reflexivity|]. split; [|assumption].
           constructor; [|assumption]. exists v. auto.
      * apply IH in H as (pre & level & post & -> & Hpre & Hlevel).
        exists ((ty, attr) :: pre), level, post.
        split; [reflexivity|]. split; [|assumption].
        constructor; [|assumption]. exists v. auto.
    + intros (pre & level & post & Heq & Hpre & Hlevel).
      destruct pre as [|first pre]; simpl in Heq; injection Heq as <- ->.
      * destruct Hlevel as (v & Hraw & Huse & Hfind). simpl in *.
        rewrite Hraw. cbn [mbind result_bind].
        unfold usable_reference in Huse. rewrite Huse, Hfind. reflexivity.
      * apply Forall_cons in Hpre as [(v & Hraw & Hnothing) Hpre].
        simpl in *. rewrite Hraw. cbn [mbind result_bind].
        assert (Hrest : first_prev_level a top (pre ++ level :: post)
                        = Ok (Some x)).
        { apply IH. exists pre, level, post. auto. }
        unfold usable_reference in Hnothing.
        destruct (negb (is_none v) && negb (py_eq v (VStr EmptyString)));
          [|exact Hrest].
        destruct Hnothing as [|Hfind]; [discriminate|].
        rewrite Hfind. exact Hrest.
Qed.

Lemma first_prev_level_none (a : api) (top : item)
    (levels : list (family * string)) :
  first_prev_level a top levels = Ok None <->
  Forall (yields_nothing a top) levels.
Proof.
  induction levels as [|[ty attr] r IH]; simpl.
  - split; [constructor|reflexivity].
  - split.
    + intros H.
      destruct (raw_attr top attr) as [v| |] eqn:Hraw; try discriminate.
      cbn [mbind result_bind] in H.
      destruct (negb (is_none v) && negb (py_eq v (VStr EmptyString)))
        eqn:Huse.
      * destruct (find_item a ty [("name", v)]) as [[found|]| |] eqn:Hfind;
          try discriminate; cbn [mbind result_bind] in H.
        constructor; [|now apply IH]. exists v. auto.
      * constructor; [|now apply IH]. exists v. auto.
    + intros H. apply Forall_cons in H as [(v & Hraw & Hnothing) Hrest].
      simpl in *. rewrite Hraw. cbn [mbind result_bind].
      apply IH in Hrest. unfold usable_reference in Hnothing.
      destruct (negb (is_none v) && negb (py_eq v (VStr EmptyString)));
        [|exact Hrest].
      destruct Hnothing as [|Hfind]; [discriminate|].
      rewrite Hfind. exact Hrest.
Qed.

(** A string criterion on a key that is not an interface field is
    compared with the value that the flattened dictionary holds under
    the key. *)
Lemma find_match_single_key_plain (data : dict) (key t : string)
    (candidate : value) (no_errors : bool) :
  existsb (String.eqb key) interface_fields = false ->
  dict_get key data = Some candidate ->
  find_match_single_key data key (VStr t) no_errors
  = find_compare (VStr t) candidate.
Proof.
  intros Hkey Hget. unfold find_match_single_key. rewrite Hkey.
  assert (Hhas : dict_has key data = true)
    by (unfold dict_has; now rewrite Hget).
  destruct (dict_has "interfaces" data); cbn [mbind result_bind];
    rewrite Hhas, Hget; reflexivity.
Qed.

(** The search of an item by a string under a key of its flattened
    dictionary that holds a string: it answers, and for a string without
    leading [~] and without glob metacharacter the answer is the
    equality of the lower-cased strings. *)
Lemma find_match_string_field (data : dict) (key s field : string) :
  existsb (String.eqb key) interface_fields = false ->
  dict_get key data = Some (VStr field) ->
  exists b,
    find_match data [(key, VStr s)] false = Ok b
    /\ (startswith s "~" = false -> has_glob_meta s = false ->
        b = String.eqb (lower field) (lower s)).
Proof.
  intros Hkey Hget. unfold find_match. cbn [find_match_loop].
  destruct (startswith s "~") eqn:Hs.
  - rewrite (find_match_single_key_plain data key (tail_str s) (VStr field)
               false Hkey Hget), find_compare_str.
    cbn [mbind result_bind].
    destruct (if has_glob_meta (tail_str s) then _ else _);
      eexists; (split; [reflexivity|discriminate]).
  - rewrite (find_match_single_key_plain data key s (VStr field) false
               Hkey Hget), find_compare_str.
    cbn [mbind result_bind].
    destruct (has_glob_meta s).
    + destruct (fnmatch (lower field) (lower s));
        eexists; (split; [reflexivity|discriminate]).
    + destruct (String.eqb (lower field) (lower s));
        eexists; (split; [reflexivity|reflexivity]).
Qed.

Lemma filter_matching_ok (coll : list obj) (criteria : list (string * value)) :
  (forall p, p ∈ coll ->
             exists b, find_match (to_dict p.2) criteria false = Ok b) ->
  exists l, filter_matching coll criteria = Ok l.
Proof.
  induction coll as [|p coll IH]; intros H; simpl.
  - eexists. reflexivity.
  - destruct (H p (list_elem_of_here _ _)) as [b ->].
    destruct IH as [rest ->].
    + intros q Hq. apply H. now apply list_elem_of_further.
    + cbn [mbind result_bind]. eexists. reflexivity.
Qed.

Lemma filter_matching_none (coll : list obj)
    (criteria : list (string * value)) :
  (forall p, p ∈ coll -> find_match (to_dict p.2) criteria false = Ok false) ->
  filter_matching coll criteria = Ok [].
Proof.
  induction coll as [|p coll IH]; intros H; simpl; [reflexivity|].
  rewrite (H p (list_elem_of_here _ _)), IH; [reflexivity|].
  intros q Hq. apply H. now apply list_elem_of_further.
Qed.

(** Where no item carries the sentinel as its name, nothing is found
    under the sentinel. *)
Lemma find_item_sentinel (a : api) (ty : family) :
  (forall y, y ∈ get_items a ty -> lower (it_name y.2) <> VALUE_INHERITED) ->
  find_item a ty [("name", VStr VALUE_INHERITED)] = Ok None.
Proof.
  intros H. unfold find_item, find_items.
  rewrite filter_matching_none; [reflexivity|].
  intros p Hp.
  destruct (find_match_string_field (to_dict p.2) "name" VALUE_INHERITED
              (it_name p.2) eq_refl eq_refl) as (b & -> & Hb).
  rewrite (Hb eq_refl eq_refl). f_equal.
  apply String.eqb_neq. exact (H p Hp).
Qed.

Lemma find_item_string (a : api) (ty : family) (s : string) :
  exists r, find_item a ty [("name", VStr s)] = Ok r.
Proof.
  unfold find_item, find_items.
  destruct (filter_matching_ok (get_items a ty) [("name", VStr s)])
    as [l ->].
  - intros p _.
    destruct (find_match_string_field (to_dict p.2) "name" s (it_name p.2)
                eq_refl eq_refl) as (b & Hb & _).
    now exists b.
  - eexists. reflexivity.
Qed.

Lemma is_inherited_sentinel (v : value) :
  is_inherited v = true -> v = VStr VALUE_INHERITED.
Proof.
  unfold is_inherited. destruct v; try discriminate. simpl.
  now intros ->%String.eqb_eq.
Qed.

(** A reference value that names an item: anything but [None], the empty
    string and the sentinel. *)
Definition names_an_item (v : value) : bool :=
  negb (is_none v) && negb (py_eq v (VStr EmptyString))
  && negb (is_inherited v).

(** The previous-level entry [level] gives the item [x]: its reference
    names an item, and the lookup under it finds [x]. *)
Definition gives (a : api) (top : item) (level : family * string) (x : obj)
    : Prop :=
  exists v, raw_attr top (snd level) = Ok v
            /\ names_an_item v = true
            /\ find_item a (fst level) [("name", v)] = Ok (Some x).

(** The previous-level entry [level] gives no item: its reference is
    [None], empty or the sentinel, or no item is found under it. *)
Definition gives_nothing (a : api) (top : item) (level : family * string)
    : Prop :=
  exists v, raw_attr top (snd level) = Ok v
            /\ (names_an_item v = false
                \/ find_item a (fst level) [("name", v)] = Ok None).

Section Sentinel.

Variable a : api.

(** No item carries the sentinel as its name, in any case of the
    letters. *)
Hypothesis sentinel_free :
  forall ty y, y ∈ get_items a ty -> lower (it_name y.2) <> VALUE_INHERITED.

Lemma gives_yields (top : item) (level : family * string) (x : obj) :
  gives a top level x <-> yields a top level x.
Proof.
  unfold gives, yields, names_an_item, usable_reference. split.
  - intros (v & Hraw & Hname & Hfind). exists v.
    apply andb_true_iff in Hname as [Huse _]. auto.
  - intros (v & Hraw & Huse & Hfind). exists v.
    split; [assumption|]. split; [|assumption].
    rewrite Huse. destruct (is_inherited v) eqn:Hinh; [|reflexivity].
    apply is_inherited_sentinel in Hinh as ->.
    rewrite find_item_sentinel in Hfind by apply sentinel_free.
    discriminate.
Qed.

Lemma gives_nothing_yields (top : item) (level : family * string) :
  gives_nothing a top level <-> yields_nothing a top level.
Proof.
  unfold gives_nothing, yields_nothing, names_an_item, usable_reference.
  split; intros (v & Hraw & Hnothing); exists v; (split; [assumption|]).
  - destruct Hnothing as [Hname|Hfind]; [|now right].
    destruct (negb (is_none v) && negb (py_eq v (VStr EmptyString)));
      [|now left].
    right. destruct (is_inherited v) eqn:Hinh; [|discriminate].
    apply is_inherited_sentinel in Hinh as ->.
    apply find_item_sentinel, sentinel_free.
  - destruct Hnothing as [Huse|Hfind]; [|now right].
    left. now rewrite Huse.
Qed.

End Sentinel.

Lemma first_prev_level_total (a : api) (top : item)
    (levels : list (family * string)) :
  (forall level, level ∈ levels ->
     exists v, raw_attr top level.2 = Ok v
               /\ (v = VNone \/ exists s, v = VStr s)) ->
  exists r, first_prev_level a top levels = Ok r.
Proof.
  induction levels as [|[ty attr] r IH]; intros H; simpl.
  - eexists. reflexivity.
  - destruct (H (ty, attr) (list_elem_of_here _ _)) as (v & Hraw & Hv).
    simpl in Hraw. rewrite Hraw. cbn [mbind result_bind].
    assert (Hrest : exists res, first_prev_level a top r = Ok res).
    { apply IH. intros level Hl. apply H. now apply list_elem_of_further. }
    destruct Hv as [->|[s ->]]; [exact Hrest|].
    destruct (negb (is_none (VStr s)) && negb (py_eq (VStr s) (VStr EmptyString)));
      [|exact Hrest].
    destruct (find_item_string a ty s) as [[found|] ->];
      cbn [mbind result_bind]; [eexists; reflexivity|exact Hrest].
Qed.

(** C8: the conceptual parent is found from the topmost same-type
    ancestor, through the previous-level entries that the
    logical-inheritance table gives for that ancestor's family, taken in
    table order.  In a state where no item carries the sentinel as its
    name, it is the item looked up through a reference attribute exactly
    when that attribute's value is not [None], not empty and not the
    sentinel (and the lookup finds the item, the entries before it
    giving nothing); otherwise, when every entry's reference is [None],
    empty or the sentinel, or names no item, and when the family has no
    entry, the result is nothing.  With references that are [None] or
    strings a result is always returned.  For a family with one
    previous level, as a profile has, the result is the outcome of the
    lookup when the reference names an item, and nothing otherwise. *)
Theorem conceptual_parent_lookup (fuel : nat) (a : api) (self top : item) :
  top_ancestor fuel a self = Ok top ->
  (forall ty y, y ∈ get_items a ty ->
                lower (it_name y.2) <> VALUE_INHERITED) ->
  parent a top = None
  /\ ancestor_or_self a self top
  /\ (forall x,
        get_conceptual_parent fuel a self = Ok (Some x) <->
        exists prev_levels next_levels pre level post,
          LOGICAL_INHERITANCE (it_family top)
          = Some (prev_levels, next_levels)
          /\ prev_levels = (pre ++ level :: post)%list
          /\ Forall (gives_nothing a top) pre
          /\ gives a top level x)
  /\ (get_conceptual_parent fuel a self = Ok None <->
      forall prev_levels next_levels,
        LOGICAL_INHERITANCE (it_family top)
        = Some (prev_levels, next_levels) ->
        Forall (gives_nothing a top) prev_levels)
  /\ ((forall prev_levels next_levels level,
         LOGICAL_INHERITANCE (it_family top)
         = Some (prev_levels, next_levels) ->
         level ∈ prev_levels ->
         exists v, raw_attr top level.2 = Ok v
                   /\ (v = VNone \/ exists s, v = VStr s)) ->
      exists r, get_conceptual_parent fuel a self = Ok r)
  /\ (forall level next_levels v,
        LOGICAL_INHERITANCE (it_family top) = Some ([level], next_levels) ->
        raw_attr top level.2 = Ok v ->
        get_conceptual_parent fuel a self =
          if names_an_item v then find_item a level.1 [("name", v)]
          else Ok None).
Proof.
  intros Htop Hfree.
  destruct (top_ancestor_topmost _ _ _ _ Htop) as [Hp Hanc].
  split; [assumption|]. split; [assumption|].
  unfold get_conceptual_parent. rewrite Htop. cbn [mbind result_bind].
  pose proof (gives_nothing_yields a Hfree top) as Hnothing.
  split; [|split; [|split]].
  - intros x.
    destruct (LOGICAL_INHERITANCE (it_family top)) as [[prev next]|].
    + rewrite first_prev_level_some. split.
      * intros (pre & level & post & Heq & Hpre & Hlevel).
        exists prev, next, pre, level, post.
        split; [reflexivity|]. split; [assumption|].
        split; [|now apply gives_yields].
        eapply Forall_impl; [exact Hpre|]. intros lv. apply Hnothing.
      * intros (prev' & next' & pre & level & post & Heq & Hl & Hpre & Hlevel).
        injection Heq as <- <-. exists pre, level, post.
        split; [assumption|].
        split; [|now apply (gives_yields a Hfree)].
        eapply Forall_impl; [exact Hpre|]. intros lv. apply Hnothing.
    + split; [discriminate|].
      intros (prev' & next' & pre & level & post & Heq & _). discriminate.
  - destruct (LOGICAL_INHERITANCE (it_family top)) as [[prev next]|].
    + rewrite first_prev_level_none. split.
      * intros Hall prev' next' [= <- <-].
        eapply Forall_impl; [exact Hall|]. intros lv. apply Hnothing.
      * intros Hall.
        eapply Forall_impl; [exact (Hall prev next eq_refl)|].
        intros lv. apply Hnothing.
    + split; [discriminate|reflexivity].
  - intros Hrefs.
    destruct (LOGICAL_INHERITANCE (it_family top)) as [[prev next]|].
    + apply first_prev_level_total. intros level Hl.
      exact (Hrefs prev next level eq_refl Hl).
    + eexists. reflexivity.
  - intros [ty attr] next v -> Hraw. simpl in Hraw |- *.
    rewrite Hraw. cbn [mbind result_bind]. unfold names_an_item.
    destruct (negb (is_none v) && negb (py_eq v (VStr EmptyString)));
      [|reflexivity].
    destruct (is_inherited v) eqn:Hinh; cbn [andb negb].
    + apply is_inherited_sentinel in Hinh as ->.
      now rewrite find_item_sentinel by apply Hfree.
    + destruct (find_item a ty [("name", v)]) as [[x|]| |]; reflexivity.
Qed.

(** ** Collections *)

Lemma elem_of_list_filter {A : Type} (f : A -> bool) (l : list A) (x : A) :
  x ∈ List.filter f l <-> x ∈ l /\ f x = true.
Proof. rewrite !list_elem_of_In. apply filter_In. Qed.

Lemma NoDup_list_filter {A : Type} (f : A -> bool) (l : list A) :
  NoDup l -> NoDup (List.filter f l).
Proof.
  induction 1 as [|x l Hx Hl IH]; simpl; [constructor|].
  destruct (f x); [|assumption].
  constructor; [|assumption].
  rewrite elem_of_list_filter. tauto.
Qed.

Lemma enum_from_elem (k : nat) (l : list item) (i : nat) (x : item) :
  (i, x) ∈ enum_from k l <-> (k <= i)%nat /\ l !! (i - k)%nat = Some x.
Proof.
  revert k. induction l as [|y r IH]; intros k; simpl.
  - split; [intros H; inversion H|intros [_ H]; discriminate].
  - rewrite elem_of_cons, IH. split.
    + intros [[= -> ->]|[Hle Hlook]].
      * split; [lia|]. now rewrite Nat.sub_diag.
      * split; [lia|]. replace (i - k)%nat with (S (i - S k)) by lia.
        exact Hlook.
    + intros [Hle Hlook]. destruct (decide (i = k)) as [->|Hne].
      * left. rewrite Nat.sub_diag in Hlook. simpl in Hlook. congruence.
      * right. split; [lia|].
        replace (i - k)%nat with (S (i - S k)) in Hlook by lia.
        exact Hlook.
Qed.

Lemma enum_from_fst_ge (k : nat) (l : list item) (p : obj) :
  p ∈ enum_from k l -> (k <= p.1)%nat.
Proof. destruct p as [i x]. rewrite enum_from_elem. tauto. Qed.

Lemma enum_from_NoDup (k : nat) (l : list item) : NoDup (enum_from k l).
Proof.
  revert k. induction l as [|y r IH]; intros k; simpl; constructor;
    [|apply IH].
  intros H. apply enum_from_fst_ge in H. simpl in H. lia.
Qed.

(** The members of a collection are the registered objects of the family. *)
Lemma get_items_elem (a : api) (f : family) (p : obj) :
  p ∈ get_items a f <->
  api_objs a !! p.1 = Some p.2
  /\ it_registered p.2 = true /\ it_family p.2 = f.
Proof.
  unfold get_items. rewrite elem_of_list_filter. destruct p as [i x].
  rewrite enum_from_elem, Nat.sub_0_r, andb_true_iff, bool_decide_eq_true.
  simpl. intuition lia.
Qed.

Lemma get_items_NoDup (a : api) (f : family) : NoDup (get_items a f).
Proof. apply NoDup_list_filter, enum_from_NoDup. Qed.

(** An identity denotes one object. *)
Lemma get_items_fst_inj (a : api) (f : family) (p q : obj) :
  p ∈ get_items a f -> q ∈ get_items a f -> p.1 = q.1 -> p = q.
Proof.
  rewrite !get_items_elem. destruct p as [i x], q as [j y]. simpl.
  intros (Hp & _) (Hq & _) ->. congruence.
Qed.

Lemma children_elem (a : api) (self : item) (c : obj) :
  c ∈ children a self <->
  c ∈ get_items a (it_family self) /\ it_parent c.2 = it_name self.
Proof.
  unfold children. rewrite elem_of_list_filter.
  now rewrite String.eqb_eq.
Qed.

Lemma children_NoDup (a : api) (self : item) : NoDup (children a self).
Proof. apply NoDup_list_filter, get_items_NoDup. Qed.

(** ** Tree walk *)

(** The pre-order list of a forest: every root, followed by what [g]
    gives for it. *)
Fixpoint walk_list (g : obj -> result (list obj)) (l : list obj)
    : result (list obj) :=
  match l with
  | [] => Ok []
  | c :: r =>
      sub ← g c;
      rest ← walk_list g r;
      Ok (c :: sub ++ rest)%list
  end.

Lemma foldM_walk (g : obj -> result (list obj)) (l acc : list obj) :
  foldM (fun results child => sub ← g child; Ok (results ++ child :: sub)%list)
        acc l
  = (r ← walk_list g l; Ok (acc ++ r)%list).
Proof.
  revert acc. induction l as [|c r IH]; intros acc; simpl.
  - now rewrite app_nil_r.
  - destruct (g c) as [sub| |]; try reflexivity. cbn [mbind result_bind].
    rewrite IH. destruct (walk_list g r) as [rest| |]; try reflexivity.
    cbn [mbind result_bind]. now rewrite <- app_assoc.
Qed.

(** [tree_walk] visits each child and then, before the next child, the
    walk of that child. *)
Lemma tree_walk_S (n : nat) (a : api) (self : item) :
  tree_walk (S n) a self
  = walk_list (fun c => tree_walk n a c.2) (children a self).
Proof.
  simpl. rewrite foldM_walk.
  destruct (walk_list _ _); reflexivity.
Qed.

Lemma walk_list_ext (g g' : obj -> result (list obj)) (l r : list obj) :
  (forall c sub, c ∈ l -> g c = Ok sub -> g' c = Ok sub) ->
  walk_list g l = Ok r -> walk_list g' l = Ok r.
Proof.
  revert r. induction l as [|c l IH]; intros r Hext; simpl; [auto|].
  destruct (g c) as [sub| |] eqn:Hg; try discriminate.
  cbn [mbind result_bind].
  destruct (walk_list g l) as [rest| |] eqn:Hw; try discriminate.
  cbn [mbind result_bind]. intros [= <-].
  rewrite (Hext c sub) by (auto; left).
  rewrite (IH rest) by (auto; intros; apply Hext; auto; now right).
  reflexivity.
Qed.

(** More fuel does not change a result. *)
Lemma tree_walk_mono (n : nat) (a : api) (self : item) (l : list obj) :
  tree_walk n a self = Ok l -> tree_walk (S n) a self = Ok l.
Proof.
  revert self l. induction n as [|n IH]; intros self l; [discriminate|].
  rewrite !tree_walk_S. apply walk_list_ext. intros c sub _. apply IH.
Qed.

Lemma tree_walk_mono_le (n m : nat) (a : api) (self : item) (l : list obj) :
  (n <= m)%nat -> tree_walk n a self = Ok l -> tree_walk m a self = Ok l.
Proof.
  induction 1 as [|m Hle IH]; [auto|]. intros H. now apply tree_walk_mono, IH.
Qed.

Lemma walk_list_elem (g : obj -> result (list obj)) (l r : list obj) (y : obj) :
  walk_list g l = Ok r ->
  y ∈ r <-> exists c sub, c ∈ l /\ g c = Ok sub /\ (y = c \/ y ∈ sub).
Proof.
  revert r. induction l as [|c l IH]; intros r; simpl.
  - intros [= <-]. split; [intros H; inversion H|].
    intros (c & sub & H & _). inversion H.
  - destruct (g c) as [sub| |] eqn:Hg; try discriminate.
    cbn [mbind result_bind].
    destruct (walk_list g l) as [rest| |] eqn:Hw; try discriminate.
    cbn [mbind result_bind]. intros [= <-].
    rewrite elem_of_cons, elem_of_app, (IH rest eq_refl). split.
    + intros [->|[Hsub|(c' & sub' & Hc' & Hg' & Hy)]].
      * exists c, sub. split; [left|]. auto.
      * exists c, sub. split; [left|]. auto.
      * exists c', sub'. split; [now right|]. auto.
    + intros (c' & sub' & Hc' & Hg' & Hy).
      apply elem_of_cons in Hc' as [->|Hc'].
      * rewrite Hg in Hg'. injection Hg' as <-. tauto.
      * right. right. exists c', sub'. auto.
Qed.

Lemma walk_list_all_ok (g : obj -> result (list obj)) (l r : list obj) (c : obj) :
  walk_list g l = Ok r -> c ∈ l -> exists sub, g c = Ok sub.
Proof.
  revert r. induction l as [|d l IH]; intros r; simpl.
  - intros _ H. inversion H.
  - destruct (g d) as [sub| |] eqn:Hg; try discriminate.
    cbn [mbind result_bind].
    destruct (walk_list g l) as [rest| |] eqn:Hw; try discriminate.
    intros _ [->|Hc]%elem_of_cons; eauto.
Qed.

Lemma walk_list_ok (g : obj -> result (list obj)) (l : list obj) :
  (forall c, c ∈ l -> exists sub, g c = Ok sub) ->
  exists r, walk_list g l = Ok r.
Proof.
  induction l as [|d l IH]; intros Hall; simpl; [eauto|].
  destruct (Hall d) as [sub ->]; [left|].
  destruct IH as [rest ->]; [intros; apply Hall; now right|].
  eexists. reflexivity.
Qed.

Lemma walk_list_NoDup (g : obj -> result (list obj)) (l r : list obj) :
  NoDup l ->
  (forall c sub, c ∈ l -> g c = Ok sub -> NoDup (c :: sub)) ->
  (forall c1 c2 sub1 sub2 y,
      c1 ∈ l -> c2 ∈ l -> g c1 = Ok sub1 -> g c2 = Ok sub2 ->
      y ∈ c1 :: sub1 -> y ∈ c2 :: sub2 -> c1 = c2) ->
  walk_list g l = Ok r -> NoDup r.
Proof.
  revert r. induction l as [|c l IH]; intros r Hnd Hpiece Hdisj; simpl.
  - intros [= <-]. constructor.
  - destruct (g c) as [sub| |] eqn:Hg; try discriminate.
    cbn [mbind result_bind].
    destruct (walk_list g l) as [rest| |] eqn:Hw; try discriminate.
    cbn [mbind result_bind]. intros [= <-].
    apply NoDup_cons in Hnd as [Hc Hnd].
    change (NoDup ((c :: sub) ++ rest)). apply NoDup_app.
    split; [apply Hpiece; [left|assumption]|]. split.
    + intros y Hy Hrest.
      apply (walk_list_elem g l rest y Hw) in Hrest
        as (c' & sub' & Hc' & Hg' & Hy').
      assert (c = c').
      { apply (Hdisj c c' sub sub' y); auto; [left|now right|].
        apply elem_of_cons. exact Hy'. }
      subst c'. contradiction.
    + apply IH; auto.
      * intros c' sub' Hc'. apply Hpiece. now right.
      * intros c1 c2 sub1 sub2 y H1 H2. apply Hdisj; now right.
Qed.

(** [y] is a transitive same-family child of the item named [p]: a child
    of [p], or a child of a transitive child of [p]. *)
Inductive descends (a : api) (ty : family) (p : string) : obj -> Prop :=
| descends_child (y : obj) :
    y ∈ get_items a ty -> it_parent y.2 = p -> descends a ty p y
| descends_below (z y : obj) :
    descends a ty p z ->
    y ∈ get_items a ty -> it_parent y.2 = it_name z.2 ->
    descends a ty p y.

Lemma descends_items (a : api) (ty : family) (p : string) (y : obj) :
  descends a ty p y -> y ∈ get_items a ty.
Proof. destruct 1; assumption. Qed.

Lemma descends_left (a : api) (ty : family) (p : string) (c y : obj) :
  c ∈ get_items a ty -> it_parent c.2 = p ->
  descends a ty (it_name c.2) y -> descends a ty p y.
Proof.
  intros Hc Hp. induction 1 as [y Hy Hpar|z y _ IH Hy Hpar].
  - apply (descends_below _ _ _ c); [apply descends_child|..]; assumption.
  - eapply descends_below; eassumption.
Qed.

Lemma tree_walk_children (n : nat) (a : api) (self : item) (l : list obj)
    (y : obj) :
  tree_walk n a self = Ok l -> y ∈ children a self -> y ∈ l.
Proof.
  destruct n as [|n]; [discriminate|]. rewrite tree_walk_S. intros Hw Hy.
  destruct (walk_list_all_ok _ _ _ _ Hw Hy) as [sub Hsub].
  apply (walk_list_elem _ _ _ y Hw). exists y, sub. auto.
Qed.

Lemma get_items_family (a : api) (ty : family) (c : obj) :
  c ∈ get_items a ty -> it_family c.2 = ty.
Proof. rewrite get_items_elem. tauto. Qed.

(** A walk is closed under taking children. *)
Lemma tree_walk_closed (n : nat) (a : api) (self : item) (l : list obj)
    (z y : obj) :
  tree_walk n a self = Ok l -> z ∈ l ->
  y ∈ get_items a (it_family self) -> it_parent y.2 = it_name z.2 ->
  y ∈ l.
Proof.
  revert self l. induction n as [|n IH]; intros self l; [discriminate|].
  rewrite tree_walk_S. intros Hw Hz Hy Hpar.
  apply (walk_list_elem _ _ _ z Hw) in Hz as (c & sub & Hc & Hsub & Hz).
  apply (walk_list_elem _ _ _ y Hw). exists c, sub.
  split; [assumption|]. split; [assumption|]. right.
  pose proof Hc as Hc'. apply children_elem in Hc' as [Hitems _].
  pose proof (get_items_family _ _ _ Hitems) as Hfam.
  destruct Hz as [->|Hz].
  - apply (tree_walk_children n a c.2 sub y Hsub).
    apply children_elem. rewrite Hfam. auto.
  - apply (IH c.2 sub Hsub Hz); [rewrite Hfam|]; assumption.
Qed.

(** The members of a walk are the transitive same-family children. *)
Lemma tree_walk_descends (n : nat) (a : api) (self : item) (l : list obj)
    (y : obj) :
  tree_walk n a self = Ok l ->
  y ∈ l <-> descends a (it_family self) (it_name self) y.
Proof.
  intros Hw. split.
  - revert self l Hw. induction n as [|n IH]; intros self l; [discriminate|].
    rewrite tree_walk_S. intros Hw Hy.
    apply (walk_list_elem _ _ _ y Hw) in Hy as (c & sub & Hc & Hsub & Hy).
    apply children_elem in Hc as [Hitems Hpar].
    destruct Hy as [->|Hy]; [now apply descends_child|].
    apply (descends_left _ _ _ c); auto.
    rewrite <- (get_items_family _ _ _ Hitems). eapply IH; eassumption.
  - induction 1 as [y Hy Hpar|z y _ IH Hy Hpar].
    + apply (tree_walk_children n a self l y Hw).
      apply children_elem. auto.
    + eapply tree_walk_closed; eassumption.
Qed.

Lemma NoDup_map_inj {A B : Type} (f : A -> B) (l : list A) (x y : A) :
  NoDup (map f l) -> x ∈ l -> y ∈ l -> f x = f y -> x = y.
Proof.
  induction l as [|z l IH]; simpl; intros Hnd Hx Hy Heq;
    [inversion Hx|].
  apply NoDup_cons in Hnd as [Hz Hnd].
  apply elem_of_cons in Hx as [->|Hx]; apply elem_of_cons in Hy as [->|Hy];
    auto.
  - exfalso. apply Hz. rewrite Heq. now apply list_elem_of_fmap_2.
  - exfalso. apply Hz. rewrite <- Heq. now apply list_elem_of_fmap_2.
Qed.

Section Forest.

(** A well-formed same-type parent graph: the names of a collection are
    pairwise distinct, and some rank puts every parent name before the
    names of its children (as [depth] does). *)
Variable a : api.
Variable ty : family.
Variable rank : string -> nat.
Hypothesis names_unique :
  NoDup (map (fun p : obj => it_name p.2) (get_items a ty)).
Hypothesis parents_first :
  forall c, c ∈ get_items a ty ->
            (rank (it_parent c.2) < rank (it_name c.2))%nat.

Lemma descends_rank (p : string) (y : obj) :
  descends a ty p y -> (rank p < rank (it_name y.2))%nat.
Proof.
  induction 1 as [y Hy Hpar|z y _ IH Hy Hpar].
  - subst p. now apply parents_first.
  - pose proof (parents_first y Hy). rewrite Hpar in *. lia.
Qed.

Lemma sibling_not_below (c1 c2 : obj) :
  c1 ∈ get_items a ty -> c2 ∈ get_items a ty ->
  it_parent c1.2 = it_parent c2.2 ->
  ~ descends a ty (it_name c2.2) c1.
Proof.
  intros H1 H2 Hpar Hd. pose proof (parents_first c2 H2) as Hlt.
  inversion Hd as [y Hy Hp|z y Hz Hy Hp]; subst.
  - rewrite <- Hpar, Hp in Hlt. lia.
  - apply descends_rank in Hz. rewrite <- Hpar, Hp in Hlt. lia.
Qed.

Lemma names_inj (x y : obj) :
  x ∈ get_items a ty -> y ∈ get_items a ty ->
  it_name x.2 = it_name y.2 -> x = y.
Proof.
  intros Hx Hy. apply (NoDup_map_inj _ _ x y names_unique Hx Hy).
Qed.

(** Two children of one parent have no transitive child in common. *)
Lemma same_branch (c1 c2 y : obj) :
  c1 ∈ get_items a ty -> c2 ∈ get_items a ty ->
  it_parent c1.2 = it_parent c2.2 ->
  descends a ty (it_name c1.2) y -> descends a ty (it_name c2.2) y ->
  c1 = c2.
Proof.
  intros H1 H2 Hpar Hd1.
  induction Hd1 as [y Hy Hp1|z1 y Hz1 IH Hy Hp1]; intros Hd2;
    inversion Hd2 as [y' _ Hp2|z2 y' Hz2 _ Hp2]; subst y'.
  - apply names_inj; congruence.
  - exfalso. assert (z2 = c1) as ->.
    { apply names_inj; eauto using descends_items. congruence. }
    now apply (sibling_not_below c1 c2).
  - exfalso. assert (z1 = c2) as ->.
    { apply names_inj; eauto using descends_items. congruence. }
    now apply (sibling_not_below c2 c1).
  - assert (z2 = z1) as ->.
    { apply names_inj; eauto using descends_items. congruence. }
    auto.
Qed.

Lemma tree_walk_NoDup (n : nat) (self : item) (l : list obj) :
  it_family self = ty -> tree_walk n a self = Ok l -> NoDup l.
Proof.
  revert self l. induction n as [|n IH]; intros self l Hfam;
    [discriminate|].
  rewrite tree_walk_S. apply walk_list_NoDup.
  - apply children_NoDup.
  - intros c sub Hc Hsub.
    apply children_elem in Hc as [Hc _]. rewrite Hfam in Hc.
    pose proof (get_items_family _ _ _ Hc) as Hcf.
    apply NoDup_cons. split; [|now apply (IH c.2)].
    intros Hin. apply (tree_walk_descends _ _ _ _ c Hsub) in Hin.
    rewrite Hcf in Hin. apply descends_rank in Hin. lia.
  - intros c1 c2 sub1 sub2 y Hc1 Hc2 Hs1 Hs2 Hy1 Hy2.
    apply children_elem in Hc1 as [Hc1 Hp1].
    apply children_elem in Hc2 as [Hc2 Hp2].
    rewrite Hfam in Hc1, Hc2.
    pose proof (get_items_family _ _ _ Hc1) as Hf1.
    pose proof (get_items_family _ _ _ Hc2) as Hf2.
    assert (Hpar : it_parent c1.2 = it_parent c2.2) by congruence.
    apply elem_of_cons in Hy1 as [->|Hy1];
      apply elem_of_cons in Hy2 as [Heq|Hy2]; auto.
    + exfalso. apply (tree_walk_descends _ _ _ _ c1 Hs2) in Hy2.
      rewrite Hf2 in Hy2. now apply (sibling_not_below c1 c2).
    + exfalso. subst y. apply (tree_walk_descends _ _ _ _ c2 Hs1) in Hy1.
      rewrite Hf1 in Hy1. now apply (sibling_not_below c2 c1).
    + apply (tree_walk_descends _ _ _ _ y Hs1) in Hy1.
      apply (tree_walk_descends _ _ _ _ y Hs2) in Hy2.
      rewrite Hf1 in Hy1. rewrite Hf2 in Hy2.
      now apply (same_branch c1 c2 y).
Qed.

(** The largest rank of a name of the collection. *)
Definition rank_bound : nat :=
  max_list (map (fun p : obj => rank (it_name p.2)) (get_items a ty)).

Lemma rank_bound_ge (c : obj) :
  c ∈ get_items a ty -> (rank (it_name c.2) <= rank_bound)%nat.
Proof.
  intros Hc. apply max_list_elem_of_le.
  now apply (list_elem_of_fmap_2 (fun p : obj => rank (it_name p.2))).
Qed.

(** The walk returns once the fuel exceeds the height left above the
    item. *)
Lemma tree_walk_total (n : nat) (self : item) :
  it_family self = ty ->
  (rank_bound - rank (it_name self) < n)%nat ->
  exists l, tree_walk n a self = Ok l.
Proof.
  revert self. induction n as [|n IH]; intros self Hfam Hn; [lia|].
  rewrite tree_walk_S. apply walk_list_ok. intros c Hc.
  apply children_elem in Hc as [Hc Hp]. rewrite Hfam in Hc.
  apply IH; [now apply (get_items_family a)|].
  pose proof (parents_first c Hc). pose proof (rank_bound_ge c Hc).
  rewrite Hp in *. lia.
Qed.

End Forest.

(** C5 (amended): in a well-formed same-type parent graph [tree_walk]
    returns; its result is the depth-first pre-order list of the
    children (each child, in collection order, followed by its own
    walk); it holds each transitive child of the item within the item's
    own family collection exactly once, and never the item itself.
    (Items of other families that refer to the item are not part of the
    walk.) *)
Theorem tree_walk_preorder (a : api) (self : item) (rank : string -> nat) :
  NoDup (map (fun p : obj => it_name p.2) (get_items a (it_family self))) ->
  (forall c, c ∈ get_items a (it_family self) ->
             (rank (it_parent c.2) < rank (it_name c.2))%nat) ->
  exists fuel0 l,
    (forall fuel, (fuel0 <= fuel)%nat -> tree_walk fuel a self = Ok l)
    /\ (forall fuel, (fuel0 <= fuel)%nat ->
         walk_list (fun c => tree_walk fuel a c.2) (children a self) = Ok l)
    /\ NoDup l
    /\ NoDup (map fst l)
    /\ (forall y, y ∈ l <-> descends a (it_family self) (it_name self) y)
    /\ (forall o, api_objs a !! o = Some self -> o ∉ map fst l).
Proof.
  intros Hnames Hrank.
  set (ty := it_family self) in *.
  set (fuel0 := S (rank_bound a ty rank)).
  destruct (tree_walk_total a ty rank Hrank fuel0 self eq_refl) as [l Hl];
    [unfold fuel0; lia|].
  assert (Hall : forall fuel, (fuel0 <= fuel)%nat ->
                              tree_walk fuel a self = Ok l).
  { intros fuel Hle. now apply (tree_walk_mono_le fuel0). }
  assert (Hmem : forall y, y ∈ l <-> descends a ty (it_name self) y).
  { intros y. apply (tree_walk_descends _ _ _ _ y Hl). }
  assert (Hitems : forall y, y ∈ l -> y ∈ get_items a ty).
  { intros y Hy. apply Hmem in Hy. eapply descends_items; eassumption. }
  assert (Hnd : NoDup l).
  { apply (tree_walk_NoDup a ty rank Hnames Hrank fuel0 self l eq_refl Hl). }
  exists fuel0, l. repeat split; try assumption.
  - intros fuel Hle. rewrite <- tree_walk_S. apply Hall. lia.
  - apply (NoDup_fmap_2_strong fst); [|assumption].
    intros x y Hx Hy. apply (get_items_fst_inj a ty); auto.
  - apply Hmem.
  - apply Hmem.
  - intros o Ho Hin. apply list_elem_of_fmap in Hin as (y & -> & Hy).
    pose proof (Hitems y Hy) as Hyi.
    apply get_items_elem in Hyi as (Hlook & _).
    assert (y.2 = self) by congruence.
    apply Hmem, (descends_rank a ty rank Hrank) in Hy.
    subst self. lia.
Qed.

(** ** Walks of members and cycles *)

Lemma walk_list_length (g : obj -> result (list obj)) (l r : list obj)
    (c : obj) (sub : list obj) :
  walk_list g l = Ok r -> c ∈ l -> g c = Ok sub ->
  (length sub < length r)%nat.
Proof.
  revert r. induction l as [|c' l IH]; intros r Hr Hc Hsub.
  - now apply elem_of_nil in Hc.
  - simpl in Hr.
    destruct (g c') as [sub'| |] eqn:Hg; try discriminate.
    destruct (walk_list g l) as [rest| |] eqn:Hrest; try discriminate.
    injection Hr as <-. simpl. rewrite length_app.
    apply elem_of_cons in Hc as [->|Hc].
    + assert (sub' = sub) by congruence. subst. lia.
    + pose proof (IH rest eq_refl Hc Hsub). lia.
Qed.

Lemma walk_list_raise (g : obj -> result (list obj)) (l : list obj) (e : exn) :
  walk_list g l = Raise e -> exists c, c ∈ l /\ g c = Raise e.
Proof.
  induction l as [|c l IH]; [discriminate|]. simpl.
  destruct (g c) as [sub| |] eqn:Hg; try discriminate.
  - destruct (walk_list g l) as [rest| |]; try discriminate.
    intros [= <-]. destruct (IH eq_refl) as (c' & Hc' & Hr).
    exists c'. split; [now apply list_elem_of_further|assumption].
  - intros [= <-]. exists c. split; [apply list_elem_of_here|assumption].
Qed.

Lemma tree_walk_no_raise (n : nat) (a : api) (self : item) (e : exn) :
  tree_walk n a self <> Raise e.
Proof.
  revert self. induction n as [|n IH]; intros self; [discriminate|].
  rewrite tree_walk_S. intros H.
  apply walk_list_raise in H as (c & _ & Hc). exact (IH _ Hc).
Qed.

(** The walk of a member of a walk is shorter than the walk. *)
Lemma tree_walk_sub (n : nat) (a : api) (self : item) (l : list obj)
    (y : obj) :
  tree_walk n a self = Ok l -> y ∈ l ->
  exists l', tree_walk n a y.2 = Ok l' /\ (length l' < length l)%nat.
Proof.
  revert self l. induction n as [|n IH]; intros self l Hl Hy;
    [discriminate|].
  rewrite tree_walk_S in Hl.
  pose proof (proj1 (walk_list_elem _ _ _ y Hl) Hy)
    as (c & sub & Hc & Hsub & Hcase).
  pose proof (walk_list_length _ _ _ c sub Hl Hc Hsub) as Hlen.
  destruct Hcase as [->|Hin].
  - exists sub. split; [now apply tree_walk_mono|assumption].
  - destruct (IH c.2 sub Hsub Hin) as (l' & Hl' & Hlen').
    exists l'. split; [now apply tree_walk_mono|lia].
Qed.

Lemma tree_walk_cycle_not_ok (fuel : nat) (a : api) (o : nat) (self : item)
    (l : list obj) :
  descends a (it_family self) (it_name self) (o, self) ->
  tree_walk fuel a self <> Ok l.
Proof.
  intros Hcycle Hl.
  apply (tree_walk_descends _ _ _ _ (o, self) Hl) in Hcycle.
  destruct (tree_walk_sub _ _ _ _ _ Hl Hcycle) as (l' & Hl' & Hlen).
  simpl in Hl'. rewrite Hl in Hl'. injection Hl' as <-. lia.
Qed.

(** ** Descendants *)











Lemma filter_matching_sub (coll : list obj) (criteria : list (string * value))
    (l : list obj) (d : obj) :
  filter_matching coll criteria = Ok l -> d ∈ l -> d ∈ coll.
Proof.
  revert l. induction coll as [|p coll IH]; intros l; simpl.
  - intros [= <-] H. inversion H.
  - destruct (find_match _ _ _) as [hit| |]; try discriminate.
    cbn [mbind result_bind].
    destruct (filter_matching coll criteria) as [rest| |]; try discriminate.
    cbn [mbind result_bind]. intros [= <-] Hd.
    destruct hit.
    + apply elem_of_cons in Hd as [->|Hd]; [left|right; eauto].
    + right. eauto.
Qed.










Lemma descendants_S (n : nat) (a : api) (self : item) :
  descendants (S n) a self =
  (childs ← tree_walk (S n) a self;
   foldM (add_child_dependents (descendants n a) a) (set_update [] childs)
         (map snd childs ++ [self])%list).
Proof. reflexivity. Qed.




(** The items that a computation of [descendants] on [self] can reach:
    [self] and the members of the collections. *)
Definition known (a : api) (self c : item) : Prop :=
  c = self \/ exists o, (o, c) ∈ get_items a (it_family c).

Definition all_families : list family :=
  [Distro; Profile; Image; System; Menu; Repo].

Lemma all_families_elem (f : family) : f ∈ all_families.
Proof. unfold all_families. destruct f; repeat constructor. Qed.

Section Dependencies.

(** A well-formed dependency graph: a rank on the names of each family
    puts every parent before its children and every item before its
    dependents, and [find_items] answers for the rows of the table. *)
Variable a : api.
Variable self0 : item.
Variable rank : family -> string -> nat.
Hypothesis parents_first_all :
  forall f c, c ∈ get_items a f ->
              (rank f (it_parent c.2) < rank f (it_name c.2))%nat.
Hypothesis dependents_after :
  forall c, known a self0 c ->
  forall row, row ∈ TYPE_DEPENDENCIES (it_family c) ->
  exists deps,
    find_items a row.1 [(row.2, VStr (it_name c))] = Ok deps
    /\ forall d, d ∈ deps ->
                 (rank (it_family c) (it_name c)
                  < rank row.1 (it_name d.2))%nat.

Definition global_bound : nat :=
  max_list (map (fun f => rank_bound a f (rank f)) all_families).

Lemma rank_bound_le_global (f : family) :
  (rank_bound a f (rank f) <= global_bound)%nat.
Proof.
  apply max_list_elem_of_le.
  apply (list_elem_of_fmap_2 (fun f => rank_bound a f (rank f))).
  apply all_families_elem.
Qed.

Lemma global_bound_ge (f : family) (c : obj) :
  c ∈ get_items a f -> (rank f (it_name c.2) <= global_bound)%nat.
Proof.
  intros Hc. pose proof (rank_bound_ge a f (rank f) c Hc).
  pose proof (rank_bound_le_global f). lia.
Qed.



End Dependencies.

(** ** Dependents of the own family and of other families *)







Section OtherFamilies.

(** A well-formed dependency graph whose names are unambiguous for the
    search: no name of an item starts with the negation mark or holds a
    glob metacharacter, and a parent reference that is the name of an
    item up to the case of the letters is that name. *)
Variable a : api.
Variable self : item.
Variable rank : family -> string -> nat.
Hypothesis parents_first_all :
  forall f c, c ∈ get_items a f ->
              (rank f (it_parent c.2) < rank f (it_name c.2))%nat.
Hypothesis dependents_after :
  forall c, known a self c ->
  forall row, row ∈ TYPE_DEPENDENCIES (it_family c) ->
  exists deps,
    find_items a row.1 [(row.2, VStr (it_name c))] = Ok deps
    /\ forall d, d ∈ deps ->
                 (rank (it_family c) (it_name c)
                  < rank row.1 (it_name d.2))%nat.
Hypothesis names_plain :
  forall c, known a self c ->
            startswith (it_name c) "~" = false
            /\ has_glob_meta (it_name c) = false.
Hypothesis names_exact :
  forall c d, known a self c -> d ∈ get_items a (it_family c) ->
              lower (it_parent d.2) = lower (it_name c) ->
              it_parent d.2 = it_name c.




Variable fuel1 : nat.
Variable walk : list obj.
Hypothesis walk_of_self : tree_walk fuel1 a self = Ok walk.







End OtherFamilies.

(** ** The item itself among its descendants *)
















(** ** The parent setter and the depth *)

(** Two states that differ in caches only. *)
Definition same_but_caches (a a1 : api) : Prop :=
  forall i, erase <$> api_objs a1 !! i = erase <$> api_objs a !! i.

Lemma same_but_caches_refl (a : api) : same_but_caches a a.
Proof. intros i. reflexivity. Qed.

Lemma same_but_caches_trans (a a1 a2 : api) :
  same_but_caches a a1 -> same_but_caches a1 a2 -> same_but_caches a a2.
Proof. intros H1 H2 i. now rewrite H2, H1. Qed.

Lemma update_cache_same (f : cache -> cache) (o : nat) (a : api) :
  same_but_caches a (update_obj (with_cache f) o a).
Proof.
  intros i. rewrite update_obj_lookup.
  destruct (api_objs a !! i) as [it|]; [|reflexivity]. simpl.
  destruct (Nat.eqb i o); reflexivity.
Qed.

Lemma invalidate_resolved_same (deps : list obj) (a : api) :
  same_but_caches a (invalidate_resolved deps a).
Proof.
  intros i. rewrite invalidate_resolved_lookup.
  destruct (api_objs a !! i) as [it|]; [|reflexivity]. simpl.
  destruct (set_mem i deps); reflexivity.
Qed.

(** The cache invalidation touches nothing but caches, whatever its
    outcome. *)
Lemma clean_dict_cache_same (fuel : nat) (a : api) (o : nat)
    (name : option string) (r : result unit) (a1 : api) :
  _clean_dict_cache fuel a o name = (r, a1) -> same_but_caches a a1.
Proof.
  unfold _clean_dict_cache, reading, and_then, done.
  destruct (deref a o) as [self| |];
    try (intros [= <- <-]; apply same_but_caches_refl).
  destruct (dict_get "cache_enabled" (api_settings a)) as [ce|];
    [|intros [= <- <-]; apply same_but_caches_refl].
  destruct (negb (truthy ce));
    [intros [= <- <-]; apply same_but_caches_refl|].
  destruct name as [name|];
    [|intros [= <- <-]; apply update_cache_same].
  destruct (it_inmemory self);
    [|intros [= <- <-]; apply update_cache_same].
  destruct (class_attr a (it_family self) (tail_str name)) as [attr|];
    [|intros [= <- <-]; apply same_but_caches_refl].
  destruct (invalidates_descendants a self attr);
    [|intros [= <- <-]; apply update_cache_same].
  destruct (descendants fuel a self) as [deps| |];
    try (intros [= <- <-]; apply same_but_caches_refl).
  intros [= <- <-].
  eapply same_but_caches_trans;
    [apply invalidate_resolved_same|apply update_cache_same].
Qed.

Lemma setattr_hook_same (fuel : nat) (a : api) (o : nat) (name : string)
    (r : result unit) (a1 : api) :
  setattr_hook fuel a o name = (r, a1) -> same_but_caches a a1.
Proof.
  unfold setattr_hook, reading, clean_cache, done.
  destruct (deref a o) as [self| |];
    try (intros [= <- <-]; apply same_but_caches_refl).
  destruct (_is_dict_key name && it_has_initialized self);
    [apply clean_dict_cache_same|].
  intros [= <- <-]. apply same_but_caches_refl.
Qed.

Lemma same_but_caches_lookup (a a1 : api) (i : nat) (it : item) :
  same_but_caches a a1 -> api_objs a !! i = Some it ->
  exists it1, api_objs a1 !! i = Some it1 /\ erase it1 = erase it.
Proof.
  intros Hsame Hit. specialize (Hsame i). rewrite Hit in Hsame.
  destruct (api_objs a1 !! i) as [it1|]; [|discriminate].
  exists it1. split; [reflexivity|]. simpl in Hsame. congruence.
Qed.

Lemma erase_fields (it1 it : item) :
  erase it1 = erase it ->
  it_name it1 = it_name it /\ it_parent it1 = it_parent it
  /\ it_depth it1 = it_depth it /\ it_family it1 = it_family it.
Proof. destruct it1, it. unfold erase. simpl. intros [=]. auto. Qed.

Lemma deref_lookup (a : api) (o : nat) (it : item) :
  deref a o = Ok it <-> api_objs a !! o = Some it.
Proof.
  unfold deref. destruct (api_objs a !! o); split; congruence.
Qed.

(** Clearing the parent stores the empty name and leaves the depth as it
    was. *)
Lemma set_parent_clear_keeps_depth (fuel : nat) (a a' : api) (o : nat)
    (self : item) :
  deref a o = Ok self ->
  set_parent fuel a o (VStr EmptyString) = (Ok (), a') ->
  exists self',
    api_objs a' !! o = Some self'
    /\ it_parent self' = EmptyString
    /\ it_depth self' = it_depth self.
Proof.
  intros Hself. unfold set_parent, reading, and_then, done.
  rewrite Hself. simpl.
  destruct (setattr_hook fuel a o "_parent") as [r a1] eqn:Hhook.
  destruct r; try discriminate. intros [= <-].
  apply setattr_hook_same in Hhook.
  apply deref_lookup in Hself.
  destruct (same_but_caches_lookup _ _ _ _ Hhook Hself) as (s1 & Hs1 & He).
  apply erase_fields in He as (_ & _ & Hd & _).
  exists (with_parent EmptyString s1).
  rewrite update_obj_lookup, Hs1, Nat.eqb_refl. auto.
Qed.

Lemma collection_get_some (coll : list obj) (name : string) (p : obj) :
  collection_get coll name = Some p -> p ∈ coll /\ it_name p.2 = name.
Proof.
  unfold collection_get. intros H. apply find_some in H as [Hin Heq].
  split; [now apply list_elem_of_In|now apply String.eqb_eq].
Qed.

(** Setting a parent that exists stores the name and makes the depth one
    more than the parent's. *)
Lemma set_parent_sets_depth (fuel : nat) (a a' : api) (o : nat)
    (self : item) (name : string) :
  deref a o = Ok self ->
  name <> EmptyString ->
  set_parent fuel a o (VStr name) = (Ok (), a') ->
  exists found self' found',
    collection_get (get_items a (it_family self)) name = Some found
    /\ api_objs a' !! o = Some self'
    /\ api_objs a' !! found.1 = Some found'
    /\ it_name found' = name
    /\ it_parent self' = name
    /\ it_depth self' = (it_depth found' + 1)%Z.
Proof.
  intros Hself Hne. unfold set_parent, reading, and_then, done.
  rewrite Hself.
  destruct (String.eqb_spec name EmptyString) as [|_]; [contradiction|].
  destruct (String.eqb_spec name (it_name self)) as [|Hother];
    [discriminate|].
  destruct (collection_get _ name) as [found|] eqn:Hfound; [|discriminate].
  destruct (setattr_hook fuel a o "_parent") as [r a1] eqn:Hhook1.
  destruct r; try discriminate.
  apply setattr_hook_same in Hhook1. apply deref_lookup in Hself.
  apply collection_get_some in Hfound as [Hitems Hname].
  apply get_items_elem in Hitems as (Hflook & _).
  assert (Hfo : found.1 <> o).
  { intros Heq. rewrite Heq in Hflook. congruence. }
  destruct (same_but_caches_lookup _ _ _ _ Hhook1 Hself) as (s1 & Hs1 & He1).
  destruct (same_but_caches_lookup _ _ _ _ Hhook1 Hflook) as (f1 & Hf1 & Hef1).
  set (a2 := update_obj (with_parent name) o a1).
  assert (Hf2 : api_objs a2 !! found.1 = Some f1).
  { unfold a2. rewrite update_obj_lookup, Hf1. simpl.
    destruct (Nat.eqb_spec found.1 o); [contradiction|reflexivity]. }
  assert (Hs2 : api_objs a2 !! o = Some (with_parent name s1)).
  { unfold a2. rewrite update_obj_lookup, Hs1. simpl.
    now rewrite Nat.eqb_refl. }
  unfold deref. rewrite Hf2. unfold set_depth, and_then, done.
  destruct (setattr_hook fuel a2 o "_depth") as [r a3] eqn:Hhook2.
  destruct r; try discriminate. intros [= <-].
  apply setattr_hook_same in Hhook2.
  destruct (same_but_caches_lookup _ _ _ _ Hhook2 Hs2) as (s3 & Hs3 & He3).
  destruct (same_but_caches_lookup _ _ _ _ Hhook2 Hf2) as (f3 & Hf3 & Hef3).
  apply erase_fields in He3 as (_ & Hp3 & _ & _).
  apply erase_fields in Hef3 as (Hn3 & _ & Hd3 & _).
  apply erase_fields in Hef1 as (Hn1 & _ & Hd1 & _).
  exists found, (with_depth (it_depth f1 + 1) s3), f3.
  split; [reflexivity|].
  rewrite !update_obj_lookup, Hs3, Hf3, Nat.eqb_refl. simpl.
  destruct (Nat.eqb_spec found.1 o); [contradiction|].
  repeat split; try congruence.
  exact Hp3.
Qed.

(** * Further properties

    ** The match engine: criteria, errors, containers, interfaces *)

Lemma find_match_cons (data : dict) (key : string) (v : value)
    (rest : list (string * value)) (no_errors : bool) :
  find_match data ((key, v) :: rest) no_errors =
  (b ← find_match data [(key, v)] no_errors;
   if b : bool then find_match data rest no_errors else Ok false).
Proof.
  unfold find_match. simpl.
  destruct v; simpl; try reflexivity.
  - destruct (find_match_single_key data key VNone no_errors) as [[]| |];
      reflexivity.
  - destruct (startswith s "~").
    + destruct (find_match_single_key data key (VStr (tail_str s)) no_errors)
        as [[]| |]; reflexivity.
    + destruct (find_match_single_key data key (VStr s) no_errors)
        as [[]| |]; reflexivity.
Qed.

(** X1: the criteria of [find_match] are a conjunction evaluated in
    order: no criterion at all is satisfied by every item, and the
    criteria [c1 ++ c2] are satisfied when [c1] and then [c2] are; once
    [c1] fails, [c2] is not looked at (its errors are not raised), and an
    error of [c1] is the error of the whole. *)
Theorem find_match_app (data : dict) (c1 c2 : list (string * value))
    (no_errors : bool) :
  find_match data [] no_errors = Ok true
  /\ find_match data (c1 ++ c2) no_errors =
     (b ← find_match data c1 no_errors;
      if b : bool then find_match data c2 no_errors else Ok false).
Proof.
  split; [reflexivity|].
  induction c1 as [|[key v] r IH].
  - reflexivity.
  - change (((key, v) :: r) ++ c2)%list with ((key, v) :: (r ++ c2))%list.
    rewrite (find_match_cons data key v (r ++ c2)), IH.
    rewrite (find_match_cons data key v r).
    destruct (find_match data [(key, v)] no_errors) as [[]| |];
      reflexivity.
Qed.

(** One criterion on its own. *)
Lemma find_match_single (data : dict) (key : string) (v : value)
    (no_errors : bool) :
  find_match data [(key, v)] no_errors =
  match v with
  | VNone => find_match_single_key data key VNone no_errors
  | VStr s =>
      if startswith s "~" then
        b ← find_match_single_key data key (VStr (tail_str s)) no_errors;
        Ok (negb b)
      else find_match_single_key data key (VStr s) no_errors
  | _ => Raise (AttributeError "object has no attribute 'startswith'")
  end.
Proof.
  unfold find_match. cbn [find_match_loop].
  destruct v; try reflexivity.
  - destruct (find_match_single_key data key VNone no_errors) as [[]| |];
      reflexivity.
  - destruct (startswith s "~").
    + destruct (find_match_single_key data key (VStr (tail_str s)) no_errors)
        as [[]| |]; reflexivity.
    + destruct (find_match_single_key data key (VStr s) no_errors)
        as [[]| |]; reflexivity.
Qed.

Lemma startswith_tilde (s : string) : startswith (String "~" s) "~" = true.
Proof. unfold startswith. simpl. now destruct s. Qed.

(** X2: a criterion [~s] is the negation of the single-key match of [s],
    errors passing through unchanged; only one [~] is stripped, so [~~s]
    negates the match of the literal pattern [~s].  When [s] itself does
    not start with [~], the criterion [~s] is the negation of the
    criterion [s]. *)
Theorem find_match_negation (data : dict) (key s : string)
    (no_errors : bool) :
  startswith s "~" = false ->
  find_match data [(key, VStr (String "~" s))] no_errors =
    (b ← find_match data [(key, VStr s)] no_errors; Ok (negb b))
  /\ find_match data [(key, VStr (String "~" (String "~" s)))] no_errors =
    (b ← find_match_single_key data key (VStr (String "~" s)) no_errors;
     Ok (negb b)).
Proof.
  intros Hs. rewrite !find_match_single, !startswith_tilde, Hs.
  split; reflexivity.
Qed.

(** X3: a criterion value is [None] or a string: for any other value
    (a boolean, a number, a list, a mapping) [find_match] raises an
    [AttributeError] when it reaches the criterion, whatever the item
    holds. *)
Theorem find_match_rejects_non_string (data : dict) (key : string)
    (v : value) (rest : list (string * value)) (no_errors : bool) :
  v <> VNone ->
  (forall s, v <> VStr s) ->
  exists msg,
    find_match data ((key, v) :: rest) no_errors
    = Raise (AttributeError msg).
Proof.
  intros Hnone Hstr. unfold find_match. simpl.
  destruct v; try (eexists; reflexivity).
  - contradiction.
  - now destruct (Hstr s).
Qed.

(** X4: a key that the flattened dictionary lacks (and that is not
    searched in the interfaces): in strict mode the criterion fails,
    whatever its pattern, the pattern [None] included; with [no_errors]
    set the pattern [None] is satisfied and any other pattern raises a
    [KeyError]. *)
Theorem find_match_single_key_missing (data : dict) (key : string)
    (v : value) (no_errors : bool) :
  dict_has key data = false ->
  dict_has "interfaces" data = false
  \/ existsb (String.eqb key) interface_fields = false ->
  find_match_single_key data key v no_errors =
    if no_errors
    then (if is_none v then Ok true else Raise (KeyError key))
    else Ok false.
Proof.
  intros Hkey Hifs. unfold find_match_single_key.
  assert (Hpre :
    (if dict_has "interfaces" data
     then if existsb (String.eqb key) interface_fields
          then match dict_get "interfaces" data with
               | Some (VDict ifs) =>
                   hit ← scan_interfaces ifs key v; Ok (true, hit)
               | _ => Raise (AttributeError "object has no attribute 'items'")
               end
          else Ok (false, false)
     else Ok (false, false)) = Ok (false, false)).
  { destruct Hifs as [-> | ->]; [reflexivity|].
    destruct (dict_has "interfaces" data); reflexivity. }
  rewrite Hpre. cbn [mbind result_bind]. rewrite Hkey.
  destruct no_errors; simpl; [|reflexivity].
  destruct (is_none v); [reflexivity|].
  unfold dict_has in Hkey. destruct (dict_get key data); [discriminate|].
  reflexivity.
Qed.

(** X5: [__find_compare] answers only for a string pattern against a
    string, a list, a mapping or a boolean; a pattern that is no string
    raises an [AttributeError] against a string candidate and a
    [TypeError] against any other, and a string pattern against [None],
    a number or an object raises a [TypeError]. *)
Theorem find_compare_domain (from_search from_obj : value) :
  (forall b, find_compare from_search from_obj = Ok b ->
     exists s, from_search = VStr s
               /\ match from_obj with
                  | VStr _ | VList _ | VDict _ | VBool _ => True
                  | _ => False
                  end)
  /\ ((forall s, from_search <> VStr s) ->
      exists msg,
        find_compare from_search from_obj =
          match from_obj with
          | VStr _ => Raise (AttributeError msg)
          | _ => Raise (TypeError msg)
          end)
  /\ (forall s, from_search = VStr s ->
      match from_obj with
      | VNone | VInt _ | VOpaque _ =>
          exists msg, find_compare from_search from_obj
                      = Raise (TypeError msg)
      | VStr _ | VBool _ =>
          exists b, find_compare from_search from_obj = Ok b
      | _ => True
      end).
Proof.
  repeat split.
  - intros b H.
    destruct from_search as [| | |s| | |];
      try (destruct from_obj; discriminate).
    exists s. split; [reflexivity|].
    destruct from_obj; try exact I; discriminate.
  - intros Hstr.
    destruct from_search as [| | |s| | |];
      try (destruct from_obj; eexists; reflexivity).
    now destruct (Hstr s).
  - intros s ->.
    destruct from_obj as [|b|z|t|l|d|tag]; try exact I;
      try (eexists; reflexivity).
    + simpl. destruct (Bool.eqb _ b); eexists; reflexivity.
    + rewrite find_compare_str. eexists. reflexivity.
Qed.

Lemma all_members_list (tokens l : list value) :
  all_members tokens (VList l)
  = Ok (forallb (fun t => existsb (py_eq t) l) tokens).
Proof.
  induction tokens as [|t r IH]; [reflexivity|].
  simpl. destruct (existsb (fun y => py_eq t y) l) eqn:Ht; simpl.
  - rewrite IH. f_equal.
  - reflexivity.
Qed.

(** X6: against a list the pattern is split by
    [input_string_or_list] and matches exactly when every token is
    (Python-)equal to some element of the list: the list may hold more,
    and a pattern without tokens matches every list.  An error of the
    converter is the error of the comparison. *)
Theorem find_compare_list (search : string) (l : list value) :
  (forall tokens,
     input_string_or_list search = Ok (VList tokens) ->
     find_compare (VStr search) (VList l)
     = Ok (forallb (fun t => existsb (py_eq t) l) tokens))
  /\ (input_string_or_list search = Ok (VList []) ->
      find_compare (VStr search) (VList l) = Ok true)
  /\ (forall e,
        input_string_or_list search = Raise e ->
        find_compare (VStr search) (VList l) = Raise e).
Proof.
  repeat split.
  - intros tokens H. simpl. rewrite H. simpl. apply all_members_list.
  - intros H. simpl. rewrite H. reflexivity.
  - intros e H. simpl. rewrite H. reflexivity.
Qed.

Lemma dict_get_elem (d : dict) (k : string) (v : value) :
  NoDup (map fst d) -> (k, v) ∈ d -> dict_get k d = Some v.
Proof.
  induction d as [|[k' v'] r IH]; intros Hnd Hin.
  - now apply elem_of_nil in Hin.
  - simpl in *. apply NoDup_cons in Hnd as [Hnotin Hnd].
    apply elem_of_cons in Hin as [[= -> ->]|Hin].
    + now rewrite String.eqb_refl.
    + destruct (String.eqb_spec k k') as [->|_]; [|now apply IH].
      exfalso. apply Hnotin.
      apply (list_elem_of_fmap_2 fst) in Hin. exact Hin.
Qed.

(** The pairs of the parsed pattern that the candidate mapping holds
    with an equal value. *)
Definition pair_in (d : dict) (kv : string * value) : bool :=
  match dict_get kv.1 d with
  | Some w => py_eq kv.2 w
  | None => false
  end.

Lemma all_pairs_dict (parsed d l : dict) :
  (forall kv, kv ∈ l -> dict_get kv.1 parsed = Some kv.2) ->
  all_pairs (map fst l) (VDict parsed) d = Ok (forallb (pair_in d) l).
Proof.
  induction l as [|[k v] r IH]; intros Hl; [reflexivity|].
  pose proof (Hl (k, v) (list_elem_of_here _ _)) as Hk. simpl in Hk.
  simpl. rewrite Hk. simpl.
  unfold pair_in at 1. simpl.
  destruct (dict_get k d) as [w|]; [|reflexivity].
  destruct (py_eq v w); simpl; [|reflexivity].
  apply IH. intros kv Hkv. apply Hl. now apply list_elem_of_further.
Qed.

(** X7: against a mapping the pattern is parsed by
    [input_string_or_dict] and matches exactly when the candidate binds
    every parsed key to a (Python-)equal value: the candidate may bind
    more keys, and a pattern without pairs matches every mapping. *)
Theorem find_compare_dict (search : string) (parsed d : dict) :
  input_string_or_dict search = Ok (VDict parsed) ->
  NoDup (map fst parsed) ->
  find_compare (VStr search) (VDict d) = Ok (forallb (pair_in d) parsed).
Proof.
  intros H Hnd. simpl. rewrite H. simpl.
  apply all_pairs_dict. intros [k v] Hkv. now apply dict_get_elem.
Qed.

(** Whether the interface [entry] (its name and its fields) satisfies a
    search for [s] under the interface field [key]: the interface is
    named [s], or the field it stores, read as the pattern, matches [s]. *)
Definition interface_hit (key s : string) (entry : string * value) : bool :=
  String.eqb s entry.1
  || match entry.2 with
     | VDict fields =>
         match dict_get key fields with
         | Some (VStr stored) =>
             if has_glob_meta stored then fnmatch (lower s) (lower stored)
             else String.eqb (lower s) (lower stored)
         | _ => false
         end
     | _ => false
     end.

Lemma scan_interfaces_str (ifs : dict) (key s : string) :
  Forall (fun entry : string * value =>
            exists fields, entry.2 = VDict fields
              /\ forall w, dict_get key fields = Some w ->
                           exists t, w = VStr t) ifs ->
  scan_interfaces ifs key (VStr s) = Ok (existsb (interface_hit key s) ifs).
Proof.
  induction 1 as [|[name interface] r (fields & Hf & Hstr) _ IH];
    [reflexivity|].
  simpl in Hf. subst interface. simpl.
  unfold interface_hit at 1. simpl.
  destruct (String.eqb s name); [reflexivity|]. simpl.
  unfold dict_has. destruct (dict_get key fields) as [w|] eqn:Hw;
    [|exact IH].
  destruct (Hstr w eq_refl) as [t ->].
  change (find_compare (VStr t) (VStr s) ≫=
          (λ hit : bool, if hit then Ok true
                         else scan_interfaces r key (VStr s))
          = Ok ((if has_glob_meta t then fnmatch (lower s) (lower t)
                 else String.eqb (lower s) (lower t))
                || existsb (interface_hit key s) r)).
  rewrite find_compare_str. cbn [mbind result_bind].
  destruct (if has_glob_meta t then fnmatch (lower s) (lower t)
            else String.eqb (lower s) (lower t)); [reflexivity|exact IH].
Qed.

(** X8: a criterion on an interface field of a system (whose flattened
    dictionary has no such key of its own) is satisfied exactly when
    some interface is named by the criterion value, whatever the field,
    or stores under the field a string that, read as the pattern,
    matches the criterion value: the roles are exchanged, so a glob in
    the stored field is expanded and a glob in the criterion is not. *)
Theorem find_match_single_key_interfaces (data ifs : dict) (key s : string)
    (no_errors : bool) :
  dict_get "interfaces" data = Some (VDict ifs) ->
  existsb (String.eqb key) interface_fields = true ->
  dict_has key data = false ->
  Forall (fun entry : string * value =>
            exists fields, entry.2 = VDict fields
              /\ forall w, dict_get key fields = Some w ->
                           exists t, w = VStr t) ifs ->
  find_match_single_key data key (VStr s) no_errors
  = Ok (existsb (interface_hit key s) ifs).
Proof.
  intros Hifs Hfield Hkey Hwf. unfold find_match_single_key.
  assert (Hhas : dict_has "interfaces" data = true)
    by (unfold dict_has; now rewrite Hifs).
  rewrite Hhas, Hfield, Hifs, (scan_interfaces_str ifs key s Hwf).
  cbn [mbind result_bind].
  destruct (existsb (interface_hit key s) ifs); [reflexivity|].
  rewrite Hkey. reflexivity.
Qed.

(** ** Scalar resolution: renamed attributes and the parent's value *)

Lemma startswith_app (p s : string) : startswith (p ++ s) p = true.
Proof.
  unfold startswith. induction p as [|c p IH]; simpl.
  - now destruct s.
  - destruct (ascii_dec c c); [exact IH|contradiction].
Qed.

(** What an inherited attribute resolves to once the sources are known. *)
Definition resolved_from (self : item) (property_name : string)
    (sources : list (option value)) : result value :=
  match first_found sources with
  | Some v =>
      if is_none v then Raise (resolution_error self property_name)
      else Ok v
  | None => Raise (resolution_error self property_name)
  end.

Lemma resolve_inherited_sources (fuel : nat) (a : api) (self : item)
    (property_name : string) (raw : value) (settings_name : string)
    (cp : option obj) (s1 s2 : option value) :
  common_resolve self property_name = Ok (raw, settings_name) ->
  is_inherited raw = true ->
  get_conceptual_parent fuel a self = Ok cp ->
  lookup_on (getattr_prop fuel a) (parent a self) property_name = Ok s1 ->
  (s1 = None ->
   lookup_on (getattr_prop fuel a) cp property_name = Ok s2) ->
  _resolve fuel a self property_name
  = resolved_from self property_name (scalar_sources a s1 s2 settings_name).
Proof.
  intros Hc Hi Hcp H1 H2.
  pose proof (resolve_get_parent_or_settings_first fuel a self property_name
                settings_name cp s1 s2 Hcp H1 H2) as Hfirst.
  unfold _resolve, resolve_with, resolved_from.
  rewrite Hc. cbn [mbind result_bind]. rewrite Hi, Hfirst.
  cbn [mbind result_bind].
  destruct (first_found (scalar_sources a s1 s2 settings_name)) as [v|];
    [|reflexivity].
  destruct (is_none v); reflexivity.
Qed.

(** X9: two attributes are resolved under another name.  [owners] reads
    the raw [_owners] and, when it is inherited by an item without
    parent and conceptual parent, takes the settings field
    [default_ownership] (then [default_default_ownership]), never a
    settings field [owners].  A property [proxy_url_...] reads the raw
    attribute [_proxy]: a value stored there that is not the sentinel is
    the result, whatever the suffix. *)
Theorem resolve_renamed_attributes (fuel : nat) (a : api) (self : item) :
  (raw_attr self "owners" = Ok (VStr VALUE_INHERITED) ->
   parent a self = None ->
   get_conceptual_parent fuel a self = Ok None ->
   _resolve fuel a self "owners"
   = resolved_from self "owners"
       [dict_get "default_ownership" (api_settings a);
        dict_get "default_default_ownership" (api_settings a)])
  /\ (forall suffix raw,
        raw_attr self "proxy" = Ok raw ->
        is_inherited raw = false ->
        _resolve fuel a self ("proxy_url_" ++ suffix) = Ok raw).
Proof.
  split.
  - intros Hraw Hp Hcp.
    rewrite (resolve_inherited_sources fuel a self "owners"
               (VStr VALUE_INHERITED) "default_ownership" None None None).
    + reflexivity.
    + unfold common_resolve. simpl. rewrite Hraw. reflexivity.
    + reflexivity.
    + exact Hcp.
    + rewrite Hp. reflexivity.
    + reflexivity.
  - intros suffix raw Hraw Hi.
    apply (resolve_not_inherited fuel a self _ raw ("proxy_url_" ++ suffix));
      [|exact Hi].
    unfold common_resolve.
    rewrite (startswith_app "proxy_url_" suffix). simpl.
    rewrite Hraw. reflexivity.
Qed.

(** X10: the inheritance law of scalar attributes.  An item whose raw
    value is the sentinel and whose same-type parent declares the
    property as an inheritable scalar resolves to whatever the parent
    resolves to (an error if that is [None]); when the parent's own
    resolution fails with an [AttributeError], the parent is skipped
    silently and the conceptual parent and the settings decide. *)
Theorem resolve_inherits_from_parent (fuel : nat) (a : api) (self : item)
    (p : obj) (property_name : string) (raw : value) (settings_name : string)
    (cp : option obj) (d : descriptor) :
  common_resolve self property_name = Ok (raw, settings_name) ->
  is_inherited raw = true ->
  parent a self = Some p ->
  class_attr a (it_family p.2) property_name = Some d ->
  d_getter d = GResolve ->
  get_conceptual_parent (S fuel) a self = Ok cp ->
  (forall v,
     _resolve fuel a p.2 property_name = Ok v ->
     _resolve (S fuel) a self property_name
     = if is_none v then Raise (resolution_error self property_name)
       else Ok v)
  /\ (forall msg s2,
        _resolve fuel a p.2 property_name = Raise (AttributeError msg) ->
        lookup_on (getattr_prop (S fuel) a) cp property_name = Ok s2 ->
        _resolve (S fuel) a self property_name
        = resolved_from self property_name
            (scalar_sources a None s2 settings_name)).
Proof.
  intros Hc Hi Hp Hattr Hget Hcp.
  assert (Hparent : getattr_prop (S fuel) a p.2 property_name
                    = _resolve fuel a p.2 property_name).
  { simpl. rewrite Hattr, Hget. reflexivity. }
  split.
  - intros v Hv.
    rewrite (resolve_inherited_sources (S fuel) a self property_name raw
               settings_name cp (Some v) None Hc Hi Hcp).
    + reflexivity.
    + rewrite Hp. unfold lookup_on. rewrite Hparent, Hv. reflexivity.
    + discriminate.
  - intros msg s2 Hfail Hs2.
    apply (resolve_inherited_sources (S fuel) a self property_name raw
             settings_name cp None s2 Hc Hi Hcp).
    + rewrite Hp. unfold lookup_on. rewrite Hparent, Hfail. reflexivity.
    + intros _. exact Hs2.
Qed.

(** ** The parent graph: parents, children and the topmost ancestor *)

Lemma top_ancestor_mono (n : nat) (a : api) (x t : item) :
  top_ancestor n a x = Ok t -> top_ancestor (S n) a x = Ok t.
Proof.
  revert x. induction n as [|n IH]; intros x.
  - simpl. destruct (parent a x); [discriminate|auto].
  - intros H. simpl in *. destruct (parent a x) as [p|]; [|exact H].
    exact (IH _ H).
Qed.

Lemma top_ancestor_mono_le (n m : nat) (a : api) (x t : item) :
  (n <= m)%nat -> top_ancestor n a x = Ok t -> top_ancestor m a x = Ok t.
Proof.
  induction 1 as [|m _ IH]; [auto|].
  intros H. apply top_ancestor_mono. auto.
Qed.

Section Ancestors.

Variable a : api.
Variable ty : family.
Variable rank : string -> nat.
Hypothesis names_unique :
  NoDup (map (fun p : obj => it_name p.2) (get_items a ty)).
Hypothesis parents_first :
  forall c, c ∈ get_items a ty ->
            (rank (it_parent c.2) < rank (it_name c.2))%nat.
Hypothesis named :
  forall c, c ∈ get_items a ty -> it_name c.2 <> EmptyString.

Lemma collection_get_unique (x : obj) :
  x ∈ get_items a ty ->
  collection_get (get_items a ty) (it_name x.2) = Some x.
Proof.
  intros Hx. unfold collection_get.
  destruct (find _ _) as [y|] eqn:Hfind.
  - apply find_some in Hfind as [Hy Heq].
    apply list_elem_of_In in Hy. apply String.eqb_eq in Heq.
    f_equal. now apply (names_inj a ty names_unique).
  - apply list_elem_of_In in Hx.
    pose proof (find_none _ _ Hfind x Hx) as Hno. simpl in Hno.
    now rewrite String.eqb_refl in Hno.
Qed.

Lemma parent_is (c : item) (x : obj) :
  it_family c = ty -> x ∈ get_items a ty ->
  parent a c = Some x <-> it_parent c = it_name x.2.
Proof.
  intros Hc Hx. unfold parent. rewrite Hc. split.
  - destruct (String.eqb (it_parent c) EmptyString); [discriminate|].
    intros H. apply collection_get_some in H as [_ H]. now symmetry.
  - intros ->. destruct (String.eqb_spec (it_name x.2) EmptyString) as [He|_].
    + now apply named in He.
    + now apply collection_get_unique.
Qed.

Lemma top_ancestor_total (n : nat) (x : item) :
  it_family x = ty -> (rank (it_parent x) <= n)%nat ->
  exists t, top_ancestor n a x = Ok t.
Proof.
  revert x. induction n as [|n IH]; intros x Hx Hn.
  - simpl. destruct (parent a x) as [p|] eqn:Hp; [|eauto]. exfalso.
    unfold parent in Hp. rewrite Hx in Hp.
    destruct (String.eqb _ _); [discriminate|].
    apply collection_get_some in Hp as [Hp Hname].
    pose proof (parents_first p Hp). rewrite Hname in *. lia.
  - simpl. destruct (parent a x) as [p|] eqn:Hp; [|eauto].
    unfold parent in Hp. rewrite Hx in Hp.
    destruct (String.eqb _ _); [discriminate|].
    apply collection_get_some in Hp as [Hp Hname].
    apply IH; [now apply (get_items_family a)|].
    pose proof (parents_first p Hp). rewrite Hname in *. lia.
Qed.

Lemma top_ancestor_descends (x y : obj) :
  x ∈ get_items a ty ->
  descends a ty (it_name x.2) y ->
  forall n t, top_ancestor n a y.2 = Ok t ->
              exists m, top_ancestor m a x.2 = Ok t.
Proof.
  intros Hx. induction 1 as [y Hy Hp|z y Hz IH Hy Hp]; intros n t Ht.
  - assert (Hpar : parent a y.2 = Some x).
    { apply parent_is; [now apply (get_items_family a)|assumption..]. }
    destruct n as [|n]; simpl in Ht; rewrite Hpar in Ht; [discriminate|].
    eauto.
  - assert (Hpar : parent a y.2 = Some z).
    { apply parent_is; [now apply (get_items_family a)| |assumption].
      eapply descends_items; eassumption. }
    destruct n as [|n]; simpl in Ht; rewrite Hpar in Ht; [discriminate|].
    eapply IH; eassumption.
Qed.

End Ancestors.

(** X11: [parent] and [children] are inverse to each other on a
    collection whose items have distinct, non-empty names: an item [c]
    of the collection has the parent [x] exactly when [c] is one of the
    children of [x]. *)
Theorem parent_children_inverse (a : api) (x c : obj) :
  NoDup (map (fun p : obj => it_name p.2) (get_items a (it_family x.2))) ->
  (forall y, y ∈ get_items a (it_family x.2) ->
             it_name y.2 <> EmptyString) ->
  x ∈ get_items a (it_family x.2) ->
  c ∈ get_items a (it_family x.2) ->
  parent a c.2 = Some x <-> c ∈ children a x.2.
Proof.
  intros Hnames Hnamed Hx Hc.
  rewrite children_elem.
  rewrite (parent_is a (it_family x.2) Hnames Hnamed c.2 x
             (get_items_family _ _ _ Hc) Hx).
  tauto.
Qed.

(** X12: in a well-formed graph the members of [tree_walk] have the
    conceptual parent of the item they descend from: with enough fuel
    [get_conceptual_parent] gives on every member of the walk of a
    registered item what it gives on the item, value or error. *)
Theorem conceptual_parent_shared (a : api) (o : nat) (self : item)
    (rank : string -> nat) :
  NoDup (map (fun p : obj => it_name p.2) (get_items a (it_family self))) ->
  (forall c, c ∈ get_items a (it_family self) ->
             (rank (it_parent c.2) < rank (it_name c.2))%nat) ->
  (forall c, c ∈ get_items a (it_family self) ->
             it_name c.2 <> EmptyString) ->
  (o, self) ∈ get_items a (it_family self) ->
  exists fuel0,
    forall fuel l y,
      (fuel0 <= fuel)%nat ->
      tree_walk fuel a self = Ok l -> y ∈ l ->
      get_conceptual_parent fuel a y.2 = get_conceptual_parent fuel a self.
Proof.
  intros Hnames Hrank Hnamed Hself.
  set (ty := it_family self) in *.
  exists (rank_bound a ty rank).
  intros fuel l y Hfuel Hwalk Hy.
  apply (tree_walk_descends _ _ _ _ y Hwalk) in Hy. fold ty in Hy.
  pose proof (descends_items _ _ _ _ Hy) as Hitems.
  assert (Hbound : forall c, c ∈ get_items a ty ->
                             (rank (it_parent c.2) <= fuel)%nat).
  { intros c Hc. pose proof (Hrank c Hc).
    pose proof (rank_bound_ge a ty rank c Hc). lia. }
  destruct (top_ancestor_total a ty rank Hrank fuel y.2
              (get_items_family _ _ _ Hitems) (Hbound y Hitems))
    as [t Ht].
  destruct (top_ancestor_descends a ty Hnames Hnamed (o, self) y Hself Hy
              fuel t Ht) as [m Hm].
  destruct (top_ancestor_total a ty rank Hrank fuel self eq_refl
              (Hbound (o, self) Hself)) as [t' Ht'].
  assert (t' = t).
  { pose proof (top_ancestor_mono_le m (Nat.max m fuel) a self t
                  (Nat.le_max_l _ _) Hm) as H1.
    pose proof (top_ancestor_mono_le fuel (Nat.max m fuel) a self t'
                  (Nat.le_max_r _ _) Ht') as H2.
    simpl in H1. congruence. }
  subst t'. unfold get_conceptual_parent. rewrite Ht.
  simpl in Ht'. rewrite Ht'. reflexivity.
Qed.

(** ** Traversal of a graph that is not well-formed *)

(** X13: well-formedness is needed.  When the parent graph has a cycle
    through a registered item (the item is among the transitive children
    of its own name), [tree_walk] on it does not return, whatever the
    fuel: the recursion of the source has no guard against cycles. *)
Theorem tree_walk_cycle (a : api) (o : nat) (self : item) :
  descends a (it_family self) (it_name self) (o, self) ->
  forall fuel, tree_walk fuel a self = Diverge.
Proof.
  intros Hcycle fuel.
  destruct (tree_walk fuel a self) as [l|e|] eqn:Hl; [exfalso| |reflexivity].
  - now apply (tree_walk_cycle_not_ok fuel a o self l Hcycle).
  - now apply tree_walk_no_raise in Hl.
Qed.

(** ** The parent setter: what it changes and what it accepts *)

Lemma erase_flags (it1 it : item) :
  erase it1 = erase it ->
  it_registered it1 = it_registered it /\ it_attrs it1 = it_attrs it
  /\ it_inmemory it1 = it_inmemory it
  /\ it_has_initialized it1 = it_has_initialized it.
Proof. destruct it1, it. unfold erase. simpl. intros [=]. auto. Qed.

(** An item without its cache and without its place in the parent
    graph. *)
Definition unplaced (it : item) : item :=
  with_parent EmptyString (with_depth 0 (erase it)).

(** Two states that differ in caches and in the parent name and the
    depth of the object [o] only. *)
Definition moved_only (o : nat) (a a' : api) : Prop :=
  api_settings a' = api_settings a
  /\ forall i,
       (if Nat.eqb i o then unplaced else erase) <$> api_objs a' !! i
       = (if Nat.eqb i o then unplaced else erase) <$> api_objs a !! i.

Lemma moved_only_trans (o : nat) (a a1 a2 : api) :
  moved_only o a a1 -> moved_only o a1 a2 -> moved_only o a a2.
Proof.
  intros [Hs1 H1] [Hs2 H2]. split; [congruence|].
  intros i. now rewrite H2, H1.
Qed.

Lemma same_but_caches_moved (o : nat) (a a1 : api) :
  api_settings a1 = api_settings a -> same_but_caches a a1 ->
  moved_only o a a1.
Proof.
  intros Hs Hsame. split; [assumption|]. intros i.
  specialize (Hsame i).
  destruct (api_objs a1 !! i) as [x|], (api_objs a !! i) as [y|];
    try discriminate; [|reflexivity].
  change (Some (erase x) = Some (erase y)) in Hsame.
  assert (He : erase x = erase y) by congruence. clear Hsame.
  rename He into Hsame.
  destruct (Nat.eqb i o).
  - change (Some (unplaced x) = Some (unplaced y)).
    unfold unplaced. now rewrite Hsame.
  - change (Some (erase x) = Some (erase y)). now rewrite Hsame.
Qed.

Lemma update_parent_moved (name : string) (o : nat) (a : api) :
  moved_only o a (update_obj (with_parent name) o a).
Proof.
  split; [apply update_obj_settings|]. intros i.
  rewrite update_obj_lookup.
  destruct (api_objs a !! i) as [it|]; [|reflexivity]. simpl.
  destruct (Nat.eqb i o); reflexivity.
Qed.

Lemma update_depth_moved (z : Z) (o : nat) (a : api) :
  moved_only o a (update_obj (with_depth z) o a).
Proof.
  split; [apply update_obj_settings|]. intros i.
  rewrite update_obj_lookup.
  destruct (api_objs a !! i) as [it|]; [|reflexivity]. simpl.
  destruct (Nat.eqb i o); reflexivity.
Qed.

Lemma clean_dict_cache_settings (fuel : nat) (a : api) (o : nat)
    (name : option string) (r : result unit) (a1 : api) :
  _clean_dict_cache fuel a o name = (r, a1) ->
  api_settings a1 = api_settings a.
Proof.
  unfold _clean_dict_cache, reading, and_then, done.
  destruct (deref a o) as [self| |]; try (now intros [= <- <-]).
  destruct (dict_get "cache_enabled" (api_settings a)) as [ce|];
    [|now intros [= <- <-]].
  destruct (negb (truthy ce)); [now intros [= <- <-]|].
  destruct name as [name|];
    [|intros [= <- <-]; apply update_obj_settings].
  destruct (it_inmemory self);
    [|intros [= <- <-]; apply update_obj_settings].
  destruct (class_attr a (it_family self) (tail_str name)) as [attr|];
    [|now intros [= <- <-]].
  destruct (invalidates_descendants a self attr);
    [|intros [= <- <-]; apply update_obj_settings].
  destruct (descendants fuel a self) as [deps| |];
    try (now intros [= <- <-]).
  intros [= <- <-].
  now rewrite update_obj_settings, invalidate_resolved_settings.
Qed.

Lemma setattr_hook_moved (fuel : nat) (a : api) (o : nat) (name : string)
    (r : result unit) (a1 : api) (i : nat) :
  setattr_hook fuel a o name = (r, a1) -> moved_only i a a1.
Proof.
  intros H. apply same_but_caches_moved.
  - revert H. unfold setattr_hook, reading, clean_cache, done.
    destruct (deref a o) as [self| |]; try (now intros [= <- <-]).
    destruct (_is_dict_key name && it_has_initialized self);
      [apply clean_dict_cache_settings|now intros [= <- <-]].
  - eapply setattr_hook_same. eassumption.
Qed.

Lemma moved_only_refl (o : nat) (a : api) : moved_only o a a.
Proof. split; [reflexivity|]. intros i. reflexivity. Qed.

Lemma set_depth_moved (fuel : nat) (a : api) (o : nat) (depth : value)
    (r : result unit) (a' : api) :
  set_depth fuel a o depth = (r, a') -> moved_only o a a'.
Proof.
  unfold set_depth, and_then, done.
  destruct depth;
    try (intros [= <- <-]; apply moved_only_refl);
    (destruct (setattr_hook fuel a o "_depth") as [r1 a1] eqn:Hhook;
     apply (setattr_hook_moved _ _ _ _ _ _ o) in Hhook;
     destruct r1; intros [= <- <-]; try assumption;
     eapply moved_only_trans; [eassumption|apply update_depth_moved]).
Qed.

Lemma set_parent_moved (fuel : nat) (a : api) (o : nat) (new_parent : value)
    (r : result unit) (a' : api) :
  set_parent fuel a o new_parent = (r, a') -> moved_only o a a'.
Proof.
  unfold set_parent, reading, and_then, done.
  destruct (deref a o) as [self| |];
    try (intros [= <- <-]; apply moved_only_refl).
  destruct new_parent as [| | |name| | |];
    try (intros [= <- <-]; apply moved_only_refl).
  destruct (String.eqb name EmptyString).
  { destruct (setattr_hook fuel a o "_parent") as [r1 a1] eqn:Hhook.
    apply (setattr_hook_moved _ _ _ _ _ _ o) in Hhook.
    destruct r1; intros [= <- <-]; try assumption.
    eapply moved_only_trans; [eassumption|apply update_parent_moved]. }
  destruct (String.eqb name (it_name self));
    [intros [= <- <-]; apply moved_only_refl|].
  destruct (collection_get _ name) as [found|];
    [|intros [= <- <-]; apply moved_only_refl].
  destruct (setattr_hook fuel a o "_parent") as [r1 a1] eqn:Hhook.
  apply (setattr_hook_moved _ _ _ _ _ _ o) in Hhook.
  destruct r1; try (intros [= <- <-]; assumption).
  set (a2 := update_obj (with_parent name) o a1).
  assert (H2 : moved_only o a a2).
  { eapply moved_only_trans; [eassumption|apply update_parent_moved]. }
  destruct (deref a2 found.1) as [f| |];
    try (intros [= <- <-]; assumption).
  intros H. apply set_depth_moved in H.
  eapply moved_only_trans; eassumption.
Qed.

Lemma moved_only_lookup (o : nat) (a a' : api) (i : nat) (it : item) :
  moved_only o a a' -> api_objs a !! i = Some it ->
  exists it',
    api_objs a' !! i = Some it'
    /\ it_name it' = it_name it /\ it_family it' = it_family it
    /\ it_registered it' = it_registered it /\ it_attrs it' = it_attrs it
    /\ (i <> o ->
        it_parent it' = it_parent it /\ it_depth it' = it_depth it).
Proof.
  intros [_ H] Hit. specialize (H i). rewrite Hit in H.
  destruct (api_objs a' !! i) as [it'|]; [|discriminate].
  exists it'. split; [reflexivity|]. simpl in H. injection H as H.
  destruct (Nat.eqb_spec i o) as [->|Hne].
  - destruct it, it'. unfold unplaced, erase in H. simpl in *.
    injection H as -> -> -> -> -> ->. repeat split; contradiction.
  - destruct it, it'. unfold erase in H. simpl in *.
    injection H as -> -> -> -> -> -> -> ->. repeat split; reflexivity.
Qed.

(** X14: whatever its argument and its outcome, the parent setter
    leaves the settings alone and keeps the name, the family, the
    registration and the raw attributes of every object; it changes the
    parent name and the depth of no object but the one it is called on.
    In particular the depths of the item's own children are not
    recomputed when the item moves. *)
Theorem set_parent_frame (fuel : nat) (a : api) (o : nat)
    (new_parent : value) (r : result unit) (a' : api) :
  set_parent fuel a o new_parent = (r, a') ->
  api_settings a' = api_settings a
  /\ forall i it,
       api_objs a !! i = Some it ->
       exists it',
         api_objs a' !! i = Some it'
         /\ it_name it' = it_name it /\ it_family it' = it_family it
         /\ it_registered it' = it_registered it
         /\ it_attrs it' = it_attrs it
         /\ (i <> o ->
             it_parent it' = it_parent it /\ it_depth it' = it_depth it).
Proof.
  intros H. apply set_parent_moved in H.
  split; [apply H|].
  intros i it Hit. eapply moved_only_lookup; eassumption.
Qed.

Lemma set_parent_success_name (fuel : nat) (a a' : api) (o : nat)
    (self : item) (name : string) :
  deref a o = Ok self ->
  name <> EmptyString ->
  set_parent fuel a o (VStr name) = (Ok (), a') ->
  name <> it_name self.
Proof.
  intros Hself Hne. unfold set_parent, reading. rewrite Hself.
  destruct (String.eqb_spec name EmptyString) as [|_]; [contradiction|].
  destruct (String.eqb_spec name (it_name self)) as [|Hother];
    [discriminate|auto].
Qed.

(** X15: a successful call of the parent setter with a non-empty name:
    the collection of the item's family holds an item [found] of that
    name, another object than the item itself; afterwards the item's
    parent name is the name and its depth is one more than the depth of
    [found]. *)
Theorem set_parent_valid (fuel : nat) (a a' : api) (o : nat)
    (self : item) (name : string) :
  deref a o = Ok self ->
  name <> EmptyString ->
  set_parent fuel a o (VStr name) = (Ok (), a') ->
  exists found self',
    collection_get (get_items a (it_family self)) name = Some found
    /\ found.1 <> o
    /\ api_objs a' !! o = Some self'
    /\ it_parent self' = name
    /\ it_depth self' = (it_depth found.2 + 1)%Z.
Proof.
  intros Hself Hne Hset.
  pose proof (set_parent_success_name _ _ _ _ _ _ Hself Hne Hset) as Hother.
  destruct (set_parent_sets_depth _ _ _ _ _ _ Hself Hne Hset)
    as (found & self' & found' & Hfound & Hs' & Hf' & _ & Hp & Hd).
  pose proof (collection_get_some _ _ _ Hfound) as [Hitems Hname].
  apply get_items_elem in Hitems as (Hflook & _).
  assert (Hfo : found.1 <> o).
  { intros Heq. apply deref_lookup in Hself. rewrite Heq in Hflook.
    congruence. }
  destruct (moved_only_lookup o a a' found.1 found.2
              (set_parent_moved _ _ _ _ _ _ Hset) Hflook)
    as (f2 & Hf2 & _ & _ & _ & _ & Hsame).
  destruct (Hsame Hfo) as [_ Hdepth].
  exists found, self'. repeat split; try assumption.
  rewrite Hd. congruence.
Qed.

(** X16: the setter checks the new parent against the item's own name
    only.  When it succeeds with the name of one of the item's own
    children, the parent graph has a cycle afterwards, and [tree_walk] on
    the item no longer returns. *)
Theorem set_parent_closes_cycle (fuel : nat) (a a' : api) (o : nat)
    (self : item) (name : string) (found : obj) :
  deref a o = Ok self ->
  it_registered self = true ->
  name <> EmptyString ->
  collection_get (get_items a (it_family self)) name = Some found ->
  it_parent found.2 = it_name self ->
  set_parent fuel a o (VStr name) = (Ok (), a') ->
  exists self',
    api_objs a' !! o = Some self'
    /\ it_parent self' = name
    /\ forall n, tree_walk n a' self' = Diverge.
Proof.
  intros Hself Hreg Hne Hfound Hchild Hset.
  pose proof (set_parent_moved _ _ _ _ _ _ Hset) as Hmoved.
  destruct (set_parent_sets_depth _ _ _ _ _ _ Hself Hne Hset)
    as (found0 & self' & found' & Hfound0 & Hs' & Hf' & Hfn & Hp & _).
  assert (found0 = found) by congruence. subst found0.
  pose proof (collection_get_some _ _ _ Hfound) as [Hitems Hname].
  apply get_items_elem in Hitems as (Hflook & Hfreg & Hffam).
  apply deref_lookup in Hself.
  destruct (moved_only_lookup o a a' o self Hmoved Hself)
    as (s2 & Hs2 & Hsn & Hsf & Hsr & _).
  assert (s2 = self') by congruence. subst s2.
  destruct (moved_only_lookup o a a' found.1 found.2 Hmoved Hflook)
    as (f2 & Hf2 & Hfn2 & Hff2 & Hfr2 & _ & Hsame).
  assert (f2 = found') by congruence. subst f2.
  assert (Hfo : found.1 <> o).
  { intros Heq. rewrite Heq in Hflook.
    pose proof (set_parent_success_name _ _ _ _ _ _
                  (proj2 (deref_lookup _ _ _) Hself) Hne Hset).
    congruence. }
  destruct (Hsame Hfo) as [Hfp _].
  exists self'. split; [assumption|]. split; [assumption|].
  assert (Hcycle : descends a' (it_family self') (it_name self') (o, self')).
  2: { intros n.
       destruct (tree_walk n a' self') as [l|e|] eqn:Hl; [|exfalso|reflexivity].
       - now destruct (tree_walk_cycle_not_ok n a' o self' l Hcycle).
       - now apply tree_walk_no_raise in Hl. }
  apply (descends_below _ _ _ (found.1, found')).
  - apply descends_child.
    + apply get_items_elem. simpl. repeat split; congruence.
    + simpl. congruence.
  - apply get_items_elem. simpl. repeat split; congruence.
  - simpl. congruence.
Qed.

(** ** Deduplication of a mapping against what is inherited *)

(** [value.pop(key)] *)
Definition dict_pop (k : string) (d : dict) : dict :=
  List.filter (fun kv => negb (String.eqb kv.1 k)) d.

(** The loop of [_deduplicate_dict] over [parent_value], whose keys are
    [keys], for the mapping [val] (the parameter [value] of the source,
    a dict with string keys by its type): a key that [val] holds with a
    value equal to [parent_value[key]] is popped from [val].  Keys that
    are no strings are not keys of [val]; a key that cannot be hashed
    makes the test [key in value] raise. *)
Fixpoint dedup_loop (parent_value : value) (keys : list value) (val : dict)
    : result dict :=
  match keys with
  | [] => Ok val
  | key :: r =>
      match key with
      | VStr k =>
          match dict_get k val with
          | Some v =>
              pv ← py_getitem parent_value k;
              if py_eq pv v then dedup_loop parent_value r (dict_pop k val)
              else dedup_loop parent_value r val
          | None => dedup_loop parent_value r val
          end
      | VList _ | VDict _ => Raise (TypeError "unhashable type")
      | _ => dedup_loop parent_value r val
      end
  end.

Section Deduplicate.

Variable getattr : item -> string -> result value.

(** [Item._deduplicate_dict(property_name, value)]; the mapping passed in
    is an object of its own (the result of the converter), not the
    object that the parent or the settings hold. *)
Definition deduplicate_with (fuel : nat) (a : api) (self : item)
    (property_name : string) (val : dict) : result dict :=
  '(_, settings_name) ← common_resolve self property_name;
  let settings := api_settings a in
  conceptual_parent ← get_conceptual_parent fuel a self;
  from_parent ← lookup_on getattr (parent a self) property_name;
  parent_value ←
    match from_parent with
    | Some v => Ok v
    | None =>
        from_conceptual ← lookup_on getattr conceptual_parent property_name;
        match from_conceptual with
        | Some v => Ok v
        | None =>
            match dict_get settings_name settings with
            | Some v => Ok v
            | None =>
                match dict_get ("default_" ++ settings_name) settings with
                | Some v => Ok v
                | None => Ok (VDict [])
                end
            end
        end
    end;
  keys ← py_iter parent_value;
  dedup_loop parent_value keys val.

End Deduplicate.

(** [self._deduplicate_dict(property_name, value)] *)
Definition _deduplicate_dict (fuel : nat) (a : api) (self : item)
    (property_name : string) (val : dict) : result dict :=
  deduplicate_with (getattr_prop fuel a) fuel a self property_name val.

(** Whether the mapping [pv] binds [k] to a value equal to [v]. *)
Definition inherited_binding (pv : dict) (k : string) (v : value) : bool :=
  match dict_get k pv with
  | Some w => py_eq w v
  | None => false
  end.

(** The value against which [_deduplicate_dict] compares: the first of
    the four sources that has the attribute, an empty mapping if there
    is none. *)
Definition dedup_base (a : api) (from_parent from_conceptual : option value)
    (settings_name : string) : value :=
  match first_found (scalar_sources a from_parent from_conceptual
                       settings_name) with
  | Some v => v
  | None => VDict []
  end.

Lemma dict_get_pop (k k' : string) (d : dict) :
  dict_get k (dict_pop k' d) =
  if String.eqb k k' then None else dict_get k d.
Proof.
  unfold dict_pop. induction d as [|[k0 v0] r IH]; simpl.
  - now destruct (String.eqb k k').
  - destruct (String.eqb_spec k0 k') as [->|Hne]; simpl.
    + rewrite IH. destruct (String.eqb_spec k k'); reflexivity.
    + rewrite IH. destruct (String.eqb_spec k k0) as [->|_];
        [|reflexivity].
      destruct (String.eqb_spec k0 k'); [contradiction|reflexivity].
Qed.

Lemma dedup_loop_get (pv : dict) (keys : list string) (val : dict) :
  (forall k, k ∈ keys -> dict_has k pv = true) ->
  exists r,
    dedup_loop (VDict pv) (map VStr keys) val = Ok r
    /\ forall k,
         dict_get k r =
         match dict_get k val with
         | Some v =>
             if existsb (String.eqb k) keys && inherited_binding pv k v
             then None else Some v
         | None => None
         end.
Proof.
  revert val. induction keys as [|k0 keys IH]; intros val Hkeys.
  - exists val. split; [reflexivity|]. intros k.
    destruct (dict_get k val); reflexivity.
  - assert (Hrest : forall k, k ∈ keys -> dict_has k pv = true).
    { intros k Hk. apply Hkeys. now apply list_elem_of_further. }
    pose proof (Hkeys k0 (list_elem_of_here _ _)) as Hk0.
    unfold dict_has in Hk0.
    destruct (dict_get k0 pv) as [w|] eqn:Hw; [|discriminate].
    simpl. destruct (dict_get k0 val) as [v0|] eqn:Hv0.
    + rewrite Hw. cbn [mbind result_bind].
      destruct (py_eq w v0) eqn:Heq.
      * destruct (IH (dict_pop k0 val) Hrest) as (r & Hr & Hget).
        exists r. split; [exact Hr|]. intros k. rewrite Hget, dict_get_pop.
        destruct (String.eqb_spec k k0) as [->|Hne].
        -- rewrite Hv0. unfold inherited_binding. rewrite Hw, Heq.
           reflexivity.
        -- reflexivity.
      * destruct (IH val Hrest) as (r & Hr & Hget).
        exists r. split; [exact Hr|]. intros k. rewrite Hget.
        destruct (String.eqb_spec k k0) as [->|Hne]; [|reflexivity].
        rewrite Hv0. unfold inherited_binding. rewrite Hw, Heq.
        now rewrite andb_false_r.
    + destruct (IH val Hrest) as (r & Hr & Hget).
      exists r. split; [exact Hr|]. intros k. rewrite Hget.
      destruct (String.eqb_spec k k0) as [->|Hne]; [|reflexivity].
      now rewrite Hv0.
Qed.

Lemma existsb_keys (k : string) (pv : dict) :
  existsb (String.eqb k) (map fst pv) = dict_has k pv.
Proof.
  unfold dict_has. induction pv as [|[k' v'] r IH]; [reflexivity|].
  simpl. destruct (String.eqb k k'); [reflexivity|exact IH].
Qed.

Lemma deduplicate_base (fuel : nat) (a : api) (self : item)
    (property_name : string) (raw : value) (settings_name : string)
    (cp : option obj) (s1 s2 : option value) (val : dict) :
  common_resolve self property_name = Ok (raw, settings_name) ->
  get_conceptual_parent fuel a self = Ok cp ->
  lookup_on (getattr_prop fuel a) (parent a self) property_name = Ok s1 ->
  (s1 = None ->
   lookup_on (getattr_prop fuel a) cp property_name = Ok s2) ->
  _deduplicate_dict fuel a self property_name val =
  (keys ← py_iter (dedup_base a s1 s2 settings_name);
   dedup_loop (dedup_base a s1 s2 settings_name) keys val).
Proof.
  intros Hc Hcp H1 H2. unfold _deduplicate_dict, deduplicate_with.
  rewrite Hc. cbn [mbind result_bind]. rewrite Hcp.
  cbn [mbind result_bind]. rewrite H1. cbn [mbind result_bind].
  unfold dedup_base, scalar_sources.
  destruct s1 as [v1|]; [reflexivity|].
  rewrite (H2 eq_refl). cbn [mbind result_bind].
  destruct s2 as [v2|]; [reflexivity|]. cbn [first_found].
  repeat match goal with
         | |- context [dict_get ?k ?d] => destruct (dict_get k d)
         end; reflexivity.
Qed.

Lemma dedup_loop_dict (pv val : dict) :
  exists r,
    (keys ← py_iter (VDict pv); dedup_loop (VDict pv) keys val) = Ok r
    /\ forall k,
         dict_get k r =
         match dict_get k val with
         | Some v => if inherited_binding pv k v then None else Some v
         | None => None
         end.
Proof.
  cbn [py_iter mbind result_bind].
  replace (map (fun kv : string * value => VStr kv.1) pv)
    with (map VStr (map fst pv)) by (now rewrite map_map).
  destruct (dedup_loop_get pv (map fst pv) val) as (r & Hr & Hget).
  { intros k Hk. rewrite <- existsb_keys. apply existsb_exists.
    exists k. split; [now apply list_elem_of_In|apply String.eqb_refl]. }
  exists r. split; [exact Hr|]. intros k. rewrite Hget.
  destruct (dict_get k val) as [v|]; [|reflexivity].
  rewrite existsb_keys. unfold inherited_binding, dict_has.
  destruct (dict_get k pv); reflexivity.
Qed.

(** X17: [_deduplicate_dict] compares the mapping with the first of the
    sources parent, conceptual parent, settings field, [default_]
    settings field that has the attribute (an empty mapping if none
    has).  When that source is a mapping, the result keeps exactly the
    bindings of the mapping passed in that the source does not hold
    with an equal value; no binding is added or changed. *)
Theorem deduplicate_removes_inherited (fuel : nat) (a : api) (self : item)
    (property_name : string) (raw : value) (settings_name : string)
    (cp : option obj) (s1 s2 : option value) (pv val : dict) :
  common_resolve self property_name = Ok (raw, settings_name) ->
  get_conceptual_parent fuel a self = Ok cp ->
  lookup_on (getattr_prop fuel a) (parent a self) property_name = Ok s1 ->
  (s1 = None ->
   lookup_on (getattr_prop fuel a) cp property_name = Ok s2) ->
  dedup_base a s1 s2 settings_name = VDict pv ->
  exists r,
    _deduplicate_dict fuel a self property_name val = Ok r
    /\ forall k,
         dict_get k r =
         match dict_get k val with
         | Some v => if inherited_binding pv k v then None else Some v
         | None => None
         end.
Proof.
  intros Hc Hcp H1 H2 Hbase.
  rewrite (deduplicate_base fuel a self property_name raw settings_name
             cp s1 s2 val Hc Hcp H1 H2), Hbase.
  apply dedup_loop_dict.
Qed.

(** Two bindings that are the same, or hold (Python-)equal values. *)
Definition agree (x y : option value) : Prop :=
  x = y \/ exists w v, x = Some w /\ y = Some v /\ py_eq w v = true.

(** X18: deduplication loses nothing for an item without same-type
    parent whose conceptual parent is looked up without error, for an
    attribute that the settings know under its own name,
    as long as the deduplication does not fall back on the [default_]
    settings field: the conceptual parent or the settings field of the
    attribute's name supplies the attribute, or the settings have no
    [default_] field of it either.  ([_deduplicate_dict] consults that
    field last, [_resolve_dict] never does; where only that field exists
    the two bases differ and the property does not hold.)  Under this
    condition, and when the base on which [_resolve_dict] lays the raw
    mapping (the conceptual parent's mapping, else the settings') is a
    mapping, it is also the base of the deduplication, and the
    deduplicated mapping laid over it gives, key by key, the binding
    that the original mapping gives, up to Python equality of the
    values. *)
Theorem deduplicate_keeps_resolution (fuel : nat) (a : api) (self : item)
    (property_name : string) (raw : value) (cp : option obj)
    (s2 : option value) (pv val : dict) :
  common_resolve self property_name = Ok (raw, property_name) ->
  parent a self = None ->
  get_conceptual_parent fuel a self = Ok cp ->
  lookup_on (getattr_prop fuel a) cp property_name = Ok s2 ->
  (s2 = None -> dict_get property_name (api_settings a) = None ->
   dict_get ("default_" ++ property_name) (api_settings a) = None) ->
  dict_base a s2 property_name = VDict pv ->
  exists r,
    _deduplicate_dict fuel a self property_name val = Ok r
    /\ forall k,
         agree (overlay_get pv (VDict r) k) (overlay_get pv (VDict val) k).
Proof.
  intros Hc Hp Hcp H2 Hdefault Hbase.
  assert (Hsame : dedup_base a None s2 property_name = VDict pv).
  { rewrite <- Hbase. unfold dedup_base, dict_base, scalar_sources.
    destruct s2 as [v2|]; [reflexivity|]. cbn [first_found].
    destruct (dict_get property_name (api_settings a)); [reflexivity|].
    now rewrite (Hdefault eq_refl eq_refl). }
  rewrite (deduplicate_base fuel a self property_name raw property_name
             cp None s2 val Hc Hcp);
    [|now rewrite Hp|intros _; exact H2].
  rewrite Hsame.
  destruct (dedup_loop_dict pv val) as (r & Hr & Hget).
  exists r. split; [exact Hr|]. intros k. unfold overlay_get, agree.
  rewrite Hget. destruct (dict_get k val) as [v|]; [|now left].
  unfold inherited_binding.
  destruct (dict_get k pv) as [w|] eqn:Hw; [|now left].
  destruct (py_eq w v) eqn:Heq; [|now left].
  right. exists w, v. auto.
Qed.

(** ** The setters of the dict attributes *)

Definition with_attr (name : string) (v : value) (it : item) : item :=
  {| it_family := it_family it; it_name := it_name it;
     it_parent := it_parent it; it_depth := it_depth it;
     it_inmemory := it_inmemory it;
     it_has_initialized := it_has_initialized it;
     it_registered := it_registered it;
     it_attrs := dict_set name v (it_attrs it);
     it_cache := it_cache it |}.

(** The assignment [self._name = v]: [__setattr__] runs the cache
    cleanup for [_name] and stores the value. *)
Definition set_attr (fuel : nat) (a : api) (o : nat) (name : string)
    (v : value) : effect :=
  and_then (setattr_hook fuel a o ("_" ++ name)) (fun a =>
  done (update_obj (with_attr name v) o a)).

(** [try: ... except TypeError as error: raise TypeError(msg) from
    error] *)
Definition reraise_type_error (msg : string) (m : effect) : effect :=
  match m with
  | (Raise (TypeError _), a) => (Raise (TypeError msg), a)
  | _ => m
  end.

(** What [input_string_or_dict] returns by its declared type: the
    sentinel, or a dict. *)
Inductive converted : Type :=
| Inherit
| Mapping (d : dict).

(** The value that is stored for it. *)
Definition stored (c : converted) : value :=
  match c with
  | Inherit => VStr VALUE_INHERITED
  | Mapping d => VDict d
  end.

Section Setters.

(** [input_converters.input_string_or_dict(options, allow_multiples)]
    and [input_converters.input_string_or_dict_no_inherit(options,
    allow_multiples)] on an arbitrary argument; they belong to another
    module. *)
Variable input_string_or_dict_any : value -> bool -> result converted.
Variable input_string_or_dict_no_inherit : value -> bool -> result dict.

(** The body shared by the setters of [kernel_options] and
    [autoinstall_meta]: the sentinel is stored as it is, a mapping is
    deduplicated first. *)
Definition set_deduplicated (fuel : nat) (a : api) (o : nat)
    (name : string) (options : value) : effect :=
  reading a (input_string_or_dict_any options true) (fun val =>
  match val with
  | Inherit => set_attr fuel a o name (VStr VALUE_INHERITED)
  | Mapping d =>
      reading a (deref a o) (fun self =>
      reading a (_deduplicate_dict fuel a self name d) (fun d' =>
      set_attr fuel a o name (VDict d')))
  end).

(** The setter of [Item.kernel_options]. *)
Definition set_kernel_options (fuel : nat) (a : api) (o : nat)
    (options : value) : effect :=
  reraise_type_error "invalid kernel value"
    (set_deduplicated fuel a o "kernel_options" options).

(** The setter of [Item.autoinstall_meta]. *)
Definition set_autoinstall_meta (fuel : nat) (a : api) (o : nat)
    (options : value) : effect :=
  set_deduplicated fuel a o "autoinstall_meta" options.

(** The body shared by the setters that store the converter's result. *)
Definition set_converted (fuel : nat) (a : api) (o : nat) (name : string)
    (allow_multiples : bool) (options : value) : effect :=
  reading a (input_string_or_dict_any options allow_multiples) (fun val =>
  set_attr fuel a o name (stored val)).

(** The setter of [Item.kernel_options_post]. *)
Definition set_kernel_options_post (fuel : nat) (a : api) (o : nat)
    (options : value) : effect :=
  reraise_type_error "invalid post kernel options"
    (set_converted fuel a o "kernel_options_post" true options).

(** The setter of [Item.boot_files]. *)
Definition set_boot_files (fuel : nat) (a : api) (o : nat)
    (boot_files : value) : effect :=
  reraise_type_error "invalid boot files specified"
    (set_converted fuel a o "boot_files" false boot_files).

(** The setter of [Item.fetchable_files]. *)
Definition set_fetchable_files (fuel : nat) (a : api) (o : nat)
    (fetchable_files : value) : effect :=
  reraise_type_error "invalid fetchable files specified"
    (set_converted fuel a o "fetchable_files" false fetchable_files).

(** The setter of [Item.template_files]. *)
Definition set_template_files (fuel : nat) (a : api) (o : nat)
    (template_files : value) : effect :=
  reraise_type_error "invalid template files specified"
    (reading a (input_string_or_dict_no_inherit template_files false)
       (fun d => set_attr fuel a o "template_files" (VDict d))).

(** The setter of [Item.is_subobject]. *)
Definition set_is_subobject (fuel : nat) (a : api) (o : nat) (v : value)
    : effect :=
  match v with
  | VBool _ => set_attr fuel a o "is_subobject" v
  | _ =>
      (Raise (TypeError
                "Field is_subobject of object item needs to be of type bool!"),
       a)
  end.

(** The state after a successful assignment of [v] to the attribute
    [name] of the object [o]: caches apart, the state before with the
    attribute stored. *)
Definition assigned (o : nat) (name : string) (v : value) (a a' : api)
    : Prop :=
  api_settings a' = api_settings a
  /\ forall i,
       erase <$> api_objs a' !! i =
       (fun it => erase (if Nat.eqb i o then with_attr name v it else it))
         <$> api_objs a !! i.

Lemma set_attr_outcome (fuel : nat) (a : api) (o : nat) (name : string)
    (v : value) (r : result unit) (a' : api) :
  set_attr fuel a o name v = (r, a') ->
  match r with
  | Ok _ => assigned o name v a a'
  | _ => api_settings a' = api_settings a /\ same_but_caches a a'
  end.
Proof.
  unfold set_attr, and_then, done.
  destruct (setattr_hook fuel a o ("_" ++ name)) as [r1 a1] eqn:Hhook.
  pose proof (setattr_hook_moved _ _ _ _ _ _ o Hhook) as [Hs _].
  apply setattr_hook_same in Hhook.
  destruct r1; intros [= <- <-]; try (split; assumption).
  split; [now rewrite update_obj_settings|].
  intros i. rewrite update_obj_lookup. specialize (Hhook i).
  destruct (api_objs a1 !! i) as [x|], (api_objs a !! i) as [y|];
    try discriminate; [|reflexivity].
  change (Some (erase x) = Some (erase y)) in Hhook.
  assert (He : erase x = erase y) by congruence.
  change (Some (erase (if Nat.eqb i o then with_attr name v x else x))
          = Some (erase (if Nat.eqb i o then with_attr name v y else y))).
  f_equal. destruct (Nat.eqb i o); [|exact He].
  destruct x, y. unfold erase, with_attr in *. simpl in *.
  injection He as -> -> -> -> -> -> -> ->. reflexivity.
Qed.

Lemma assigned_raw (o : nat) (name : string) (v : value) (a a' : api)
    (self : item) :
  assigned o name v a a' -> api_objs a !! o = Some self ->
  exists self',
    api_objs a' !! o = Some self'
    /\ dict_get name (it_attrs self') = Some v
    /\ it_name self' = it_name self /\ it_parent self' = it_parent self
    /\ it_depth self' = it_depth self.
Proof.
  intros [_ H] Hself. specialize (H o).
  rewrite Hself, Nat.eqb_refl in H.
  destruct (api_objs a' !! o) as [self'|]; [|discriminate].
  exists self'. split; [reflexivity|].
  change (Some (erase self') = Some (erase (with_attr name v self))) in H.
  assert (He : erase self' = erase (with_attr name v self)) by congruence.
  destruct (erase_fields _ _ He) as (Hn & Hp & Hd & _).
  destruct (erase_flags _ _ He) as (_ & Ha & _).
  rewrite Ha. simpl. rewrite dict_get_set, String.eqb_refl. auto.
Qed.

Lemma reraise_ok (msg : string) (m : effect) (a' : api) :
  reraise_type_error msg m = (Ok (), a') -> m = (Ok (), a').
Proof.
  destruct m as [[u|e|] a1]; simpl; try discriminate.
  - auto.
  - destruct e; discriminate.
Qed.

(** X19: a successful call of the setter of [kernel_options].  When the
    converter gives the sentinel, the sentinel is stored and nothing is
    compared; when it gives a mapping, what is stored is that mapping
    deduplicated against what the item inherits in the state before the
    call.  Caches apart, nothing else changes: not the item's name,
    parent or depth, no other attribute, no other object. *)
Theorem set_kernel_options_stores (fuel : nat) (a a' : api) (o : nat)
    (self : item) (options : value) :
  deref a o = Ok self ->
  set_kernel_options fuel a o options = (Ok (), a') ->
  exists v,
    assigned o "kernel_options" v a a'
    /\ ((input_string_or_dict_any options true = Ok Inherit
         /\ v = VStr VALUE_INHERITED)
        \/ exists d r,
             input_string_or_dict_any options true = Ok (Mapping d)
             /\ _deduplicate_dict fuel a self "kernel_options" d = Ok r
             /\ v = VDict r).
Proof.
  intros Hself H. apply reraise_ok in H.
  unfold set_deduplicated, reading in H. rewrite Hself in H.
  destruct (input_string_or_dict_any options true) as [[|d]| |];
    try discriminate.
  - exists (VStr VALUE_INHERITED). split; [|left; auto].
    exact (set_attr_outcome _ _ _ _ _ _ _ H).
  - destruct (_deduplicate_dict fuel a self "kernel_options" d)
      as [r| |] eqn:Hr; try discriminate.
    exists (VDict r). split; [|right; eauto].
    exact (set_attr_outcome _ _ _ _ _ _ _ H).
Qed.

Lemma set_deduplicated_failure (fuel : nat) (a : api) (o : nat)
    (name : string) (options : value) (r : result unit) (a' : api) :
  set_deduplicated fuel a o name options = (r, a') ->
  r <> Ok () -> api_settings a' = api_settings a /\ same_but_caches a a'.
Proof.
  unfold set_deduplicated, reading. intros H Hr.
  assert (Hrefl : forall e : result unit,
             (e, a) = (r, a') ->
             api_settings a' = api_settings a /\ same_but_caches a a').
  { intros e [= <- <-]. split; [reflexivity|apply same_but_caches_refl]. }
  destruct (input_string_or_dict_any options true) as [[|d]| |]; eauto.
  - pose proof (set_attr_outcome _ _ _ _ _ _ _ H) as Hout.
    destruct r as [[]| |]; [contradiction|assumption..].
  - destruct (deref a o) as [self| |]; eauto.
    destruct (_deduplicate_dict fuel a self name d) as [d'| |]; eauto.
    pose proof (set_attr_outcome _ _ _ _ _ _ _ H) as Hout.
    destruct r as [[]| |]; [contradiction|assumption..].
Qed.

(** X20: the errors of the setter of [kernel_options].  A [TypeError]
    leaves it only with the message [invalid kernel value], wherever it
    arose (in the converter, in the deduplication, in the cache
    cleanup); an error of the converter that is no [TypeError] passes
    unchanged; and a call that fails stores nothing: the state differs
    from the one before in caches at most. *)
Theorem set_kernel_options_errors (fuel : nat) (a : api) (o : nat)
    (options : value) :
  (forall msg a',
     set_kernel_options fuel a o options = (Raise (TypeError msg), a') ->
     msg = "invalid kernel value")
  /\ (forall e,
        input_string_or_dict_any options true = Raise e ->
        set_kernel_options fuel a o options =
          (Raise (match e with
                  | TypeError _ => TypeError "invalid kernel value"
                  | _ => e
                  end), a))
  /\ (forall r a',
        set_kernel_options fuel a o options = (r, a') ->
        r <> Ok () ->
        api_settings a' = api_settings a /\ same_but_caches a a').
Proof.
  unfold set_kernel_options. split; [|split].
  - intros msg a'.
    destruct (set_deduplicated fuel a o "kernel_options" options)
      as [[u|e|] a1]; simpl; try discriminate.
    destruct e; intros [= <-]; reflexivity.
  - intros e He. unfold set_deduplicated, reading. rewrite He.
    destruct e; reflexivity.
  - intros r a' H Hr.
    destruct (set_deduplicated fuel a o "kernel_options" options)
      as [r1 a1] eqn:Hd.
    assert (Hr1 : r1 <> Ok () /\ a1 = a').
    { destruct r1 as [[]|e|]; simpl in H.
      - injection H as <- <-. contradiction.
      - destruct e; injection H as <- <-; split; congruence.
      - injection H as <- <-. split; congruence. }
    destruct Hr1 as [Hr1 <-].
    apply (set_deduplicated_failure _ _ _ _ _ _ _ Hd Hr1).
Qed.

(** X21: the setters of [kernel_options_post], [boot_files] and
    [fetchable_files] store what the converter returns as it is, the
    sentinel or the mapping, without deduplication; the first asks the
    converter to allow multiples, the other two do not.  The setter of
    [template_files] stores the mapping of the converter that knows no
    sentinel, called without multiples. *)
Theorem plain_setters_store (fuel : nat) (a a' : api) (o : nat)
    (options : value) :
  (set_kernel_options_post fuel a o options = (Ok (), a') ->
   exists c, input_string_or_dict_any options true = Ok c
             /\ assigned o "kernel_options_post" (stored c) a a')
  /\ (set_boot_files fuel a o options = (Ok (), a') ->
      exists c, input_string_or_dict_any options false = Ok c
                /\ assigned o "boot_files" (stored c) a a')
  /\ (set_fetchable_files fuel a o options = (Ok (), a') ->
      exists c, input_string_or_dict_any options false = Ok c
                /\ assigned o "fetchable_files" (stored c) a a')
  /\ (set_template_files fuel a o options = (Ok (), a') ->
      exists d, input_string_or_dict_no_inherit options false = Ok d
                /\ assigned o "template_files" (VDict d) a a').
Proof.
  split; [|split; [|split]]; intros H; apply reraise_ok in H;
    unfold set_converted, reading in H.
  - destruct (input_string_or_dict_any options true) as [c| |];
      try discriminate.
    exists c. split; [reflexivity|].
    exact (set_attr_outcome _ _ _ _ _ _ _ H).
  - destruct (input_string_or_dict_any options false) as [c| |];
      try discriminate.
    exists c. split; [reflexivity|].
    exact (set_attr_outcome _ _ _ _ _ _ _ H).
  - destruct (input_string_or_dict_any options false) as [c| |];
      try discriminate.
    exists c. split; [reflexivity|].
    exact (set_attr_outcome _ _ _ _ _ _ _ H).
  - destruct (input_string_or_dict_no_inherit options false) as [d| |];
      try discriminate.
    exists d. split; [reflexivity|].
    exact (set_attr_outcome _ _ _ _ _ _ _ H).
Qed.

(** X26: the setter of [autoinstall_meta] stores like the one of
    [kernel_options], the sentinel as it is and a mapping deduplicated,
    but it has no [try]: every error, a [TypeError] of the converter
    included, leaves it as it was raised. *)
Theorem set_autoinstall_meta_stores (fuel : nat) (a a' : api) (o : nat)
    (self : item) (options : value) :
  deref a o = Ok self ->
  (set_autoinstall_meta fuel a o options = (Ok (), a') ->
   exists v,
     assigned o "autoinstall_meta" v a a'
     /\ ((input_string_or_dict_any options true = Ok Inherit
          /\ v = VStr VALUE_INHERITED)
         \/ exists d r,
              input_string_or_dict_any options true = Ok (Mapping d)
              /\ _deduplicate_dict fuel a self "autoinstall_meta" d = Ok r
              /\ v = VDict r))
  /\ (forall e,
        input_string_or_dict_any options true = Raise e ->
        set_autoinstall_meta fuel a o options = (Raise e, a))
  /\ (forall d e,
        input_string_or_dict_any options true = Ok (Mapping d) ->
        _deduplicate_dict fuel a self "autoinstall_meta" d = Raise e ->
        set_autoinstall_meta fuel a o options = (Raise e, a)).
Proof.
  intros Hself. unfold set_autoinstall_meta, set_deduplicated, reading.
  rewrite Hself. split; [|split].
  - intros H.
    destruct (input_string_or_dict_any options true) as [[|d]| |];
      try discriminate.
    + exists (VStr VALUE_INHERITED). split; [|left; auto].
      exact (set_attr_outcome _ _ _ _ _ _ _ H).
    + destruct (_deduplicate_dict fuel a self "autoinstall_meta" d)
        as [r| |] eqn:Hr; try discriminate.
      exists (VDict r). split; [|right; eauto].
      exact (set_attr_outcome _ _ _ _ _ _ _ H).
  - intros e ->. reflexivity.
  - intros d e -> ->. reflexivity.
Qed.

(** X22: the type checks of the setters.  [depth] takes an integer (a
    boolean is one), [parent] a string, [is_subobject] a boolean and
    nothing else, not even an integer; a value of another type raises a
    [TypeError] and the state is left as it was. *)
Theorem setters_check_types (fuel : nat) (a : api) (o : nat) (v : value) :
  ((forall z, v <> VInt z) -> (forall b, v <> VBool b) ->
   exists msg, set_depth fuel a o v = (Raise (TypeError msg), a))
  /\ ((forall s, v <> VStr s) ->
      (exists self, deref a o = Ok self) ->
      exists msg, set_parent fuel a o v = (Raise (TypeError msg), a))
  /\ ((forall b, v <> VBool b) ->
      exists msg, set_is_subobject fuel a o v = (Raise (TypeError msg), a)).
Proof.
  repeat split.
  - intros Hz Hb. destruct v; try (eexists; reflexivity).
    + now destruct (Hb b).
    + now destruct (Hz z).
  - intros Hs [self Hself]. unfold set_parent, reading. rewrite Hself.
    destruct v; try (eexists; reflexivity). now destruct (Hs s).
  - intros Hb. destruct v; try (eexists; reflexivity).
    now destruct (Hb b).
Qed.

End Setters.

(** ** Climbing the tree *)

(** An element of the list that [grab_tree] returns: an item or the
    settings object. *)
Inductive node : Type :=
| NItem (it : item)
| NSettings (settings : dict).

(** The [while] loop of [grab_tree]: the logical parents above
    [cur_obj], nearest first. *)
Fixpoint climb (fuel : nat) (a : api) (cur_obj : item) : result (list obj) :=
  match fuel with
  | O => Diverge
  | S n =>
      p ← logical_parent n a cur_obj;
      match p with
      | None => Ok []
      | Some q => rest ← climb n a q.2; Ok (q :: rest)
      end
  end.

(** [Item.grab_tree()]; the debug message it logs is not modelled. *)
Definition grab_tree (fuel : nat) (a : api) (self : item)
    : result (list node) :=
  above ← climb fuel a self;
  Ok (NItem self :: map (fun q : obj => NItem q.2) above
        ++ [NSettings (api_settings a)])%list.

(** A chain of logical parents that ends at an item without one. *)
Inductive climbs (a : api) : item -> list obj -> Prop :=
| climbs_top (x : item) :
    (exists n, logical_parent n a x = Ok None) -> climbs a x []
| climbs_up (x : item) (q : obj) (rest : list obj) :
    (exists n, logical_parent n a x = Ok (Some q)) ->
    climbs a q.2 rest -> climbs a x (q :: rest).

Lemma climb_climbs (fuel : nat) (a : api) (x : item) (l : list obj) :
  climb fuel a x = Ok l -> climbs a x l.
Proof.
  revert x l. induction fuel as [|n IH]; intros x l; [discriminate|].
  simpl. destruct (logical_parent n a x) as [[q|]| |] eqn:Hp;
    try discriminate; cbn [mbind result_bind].
  - destruct (climb n a q.2) as [rest| |] eqn:Hrest; try discriminate.
    intros [= <-]. apply climbs_up; eauto.
  - intros [= <-]. apply climbs_top. eauto.
Qed.

(** X23: the list that [grab_tree] returns starts with the item itself
    and ends with the settings, so it has at least two elements; in
    between stand the items reached by taking the logical parent again
    and again, nearest first, up to an item that has none. *)
Theorem grab_tree_shape (fuel : nat) (a : api) (self : item)
    (l : list node) :
  grab_tree fuel a self = Ok l ->
  exists above,
    l = (NItem self :: map (fun q : obj => NItem q.2) above
           ++ [NSettings (api_settings a)])%list
    /\ climbs a self above
    /\ head l = Some (NItem self)
    /\ last l = Some (NSettings (api_settings a))
    /\ (2 <= length l)%nat.
Proof.
  unfold grab_tree. destruct (climb fuel a self) as [above| |] eqn:Hc;
    try discriminate.
  intros [= <-]. exists above. split; [reflexivity|].
  split; [eapply climb_climbs; eassumption|].
  split; [reflexivity|]. split.
  - change (NItem self :: map (fun q : obj => NItem q.2) above
              ++ [NSettings (api_settings a)])%list
      with ((NItem self :: map (fun q : obj => NItem q.2) above)
              ++ [NSettings (api_settings a)])%list.
    apply last_snoc.
  - simpl. rewrite length_app. simpl. lia.
Qed.

Lemma climb_S (n : nat) (a : api) (x : item) :
  climb (S n) a x =
  (p ← logical_parent n a x;
   match p with
   | None => Ok []
   | Some q => rest ← climb n a q.2; Ok (q :: rest)
   end).
Proof. reflexivity. Qed.

Lemma logical_parent_fuel (n m : nat) (a : api) (x : item)
    (r : option obj) :
  (n <= m)%nat -> logical_parent n a x = Ok r -> logical_parent m a x = Ok r.
Proof.
  intros Hle. unfold logical_parent, get_conceptual_parent.
  destruct (parent a x); [auto|].
  destruct (top_ancestor n a x) as [t| |] eqn:Ht; try discriminate.
  now rewrite (top_ancestor_mono_le n m a x t Hle Ht).
Qed.

Lemma climb_mono (n : nat) (a : api) (x : item) (l : list obj) :
  climb n a x = Ok l -> climb (S n) a x = Ok l.
Proof.
  revert x l. induction n as [|n IH]; intros x l; [discriminate|].
  intros H. simpl in H.
  destruct (logical_parent n a x) as [[q|]| |] eqn:Hp; try discriminate;
    cbn [mbind result_bind] in H.
  - destruct (climb n a q.2) as [rest| |] eqn:Hrest; try discriminate.
    injection H as <-.
    change (climb (S (S n)) a x)
      with (p ← logical_parent (S n) a x;
            match p with
            | None => Ok []
            | Some q => rest ← climb (S n) a q.2; Ok (q :: rest)
            end).
    rewrite (logical_parent_fuel n (S n) a x _ (Nat.le_succ_diag_r n) Hp).
    cbn [mbind result_bind]. now rewrite (IH _ _ Hrest).
  - injection H as <-.
    change (climb (S (S n)) a x)
      with (p ← logical_parent (S n) a x;
            match p with
            | None => Ok []
            | Some q => rest ← climb (S n) a q.2; Ok (q :: rest)
            end).
    now rewrite (logical_parent_fuel n (S n) a x _ (Nat.le_succ_diag_r n) Hp).
Qed.

Lemma climb_mono_le (n m : nat) (a : api) (x : item) (l : list obj) :
  (n <= m)%nat -> climb n a x = Ok l -> climb m a x = Ok l.
Proof.
  induction 1 as [|m _ IH]; [auto|].
  intros H. apply climb_mono. auto.
Qed.

(** The level of a family in the logical hierarchy: a conceptual parent
    is of a lower level. *)
Definition level (f : family) : nat :=
  match f with
  | System => 2
  | Profile | Image => 1
  | Distro | Menu | Repo => 0
  end.

Lemma prev_levels_lower (f : family) (levels next : list (family * string))
    (lv : family * string) :
  LOGICAL_INHERITANCE f = Some (levels, next) -> lv ∈ levels ->
  (level lv.1 < level f)%nat.
Proof.
  destruct f; simpl; intros [= <- <-] Hlv;
    repeat (apply elem_of_cons in Hlv as [->|Hlv]; [simpl; lia|]);
    now apply elem_of_nil in Hlv.
Qed.

Lemma filter_matching_head (coll : list obj)
    (criteria : list (string * value)) (l : list obj) (q : obj) :
  filter_matching coll criteria = Ok l -> head l = Some q -> q ∈ coll.
Proof.
  intros Hl Hq. apply (filter_matching_sub coll criteria l q Hl).
  destruct l as [|x l']; [discriminate|]. injection Hq as ->.
  apply list_elem_of_here.
Qed.

Lemma first_prev_level_items (a : api) (c : item)
    (levels : list (family * string)) (q : obj) :
  first_prev_level a c levels = Ok (Some q) ->
  exists lv, lv ∈ levels /\ q ∈ get_items a lv.1.
Proof.
  induction levels as [|[ty attr] r IH]; [discriminate|]. simpl.
  destruct (raw_attr c attr) as [v| |]; try discriminate.
  cbn [mbind result_bind].
  assert (Hrest : first_prev_level a c r = Ok (Some q) ->
                  exists lv, lv ∈ (ty, attr) :: r /\ q ∈ get_items a lv.1).
  { intros H. destruct (IH H) as (lv & Hlv & Hq).
    exists lv. split; [now apply list_elem_of_further|assumption]. }
  destruct (negb (is_none v) && negb (py_eq v (VStr EmptyString)));
    [|exact Hrest].
  unfold find_item, find_items.
  destruct (filter_matching (get_items a ty) [("name", v)]) as [l| |] eqn:Hl;
    try discriminate.
  cbn [mbind result_bind].
  destruct (head l) as [found|] eqn:Hhead; [|exact Hrest].
  intros [= <-]. exists (ty, attr).
  split; [apply list_elem_of_here|].
  eapply filter_matching_head; eassumption.
Qed.

Section Climbing.

Variable a : api.
Variable self0 : item.
Variable rank : family -> string -> nat.
Hypothesis parents_first_all :
  forall f c, c ∈ get_items a f ->
              (rank f (it_parent c.2) < rank f (it_name c.2))%nat.
Hypothesis lookups_succeed :
  forall c levels next,
    known a self0 c -> parent a c = None ->
    LOGICAL_INHERITANCE (it_family c) = Some (levels, next) ->
    exists r, first_prev_level a c levels = Ok r.

(** The measure that decreases along the logical parents of registered
    items. *)
Definition height (x : item) : nat :=
  level (it_family x) * S (global_bound a rank)
  + rank (it_family x) (it_name x).

Lemma logical_parent_step (x : item) :
  known a self0 x ->
  exists r,
    (forall n, logical_parent n a x = Ok r)
    /\ forall q, r = Some q ->
         q ∈ get_items a (it_family q.2)
         /\ ((exists o, (o, x) ∈ get_items a (it_family x)) ->
             (height q.2 < height x)%nat).
Proof.
  intros Hx. unfold logical_parent.
  destruct (parent a x) as [p|] eqn:Hp.
  - exists (Some p). split; [reflexivity|]. intros q [= <-].
    unfold parent in Hp.
    destruct (String.eqb _ _); [discriminate|].
    apply collection_get_some in Hp as [Hitems Hname].
    pose proof (get_items_family _ _ _ Hitems) as Hfam.
    split; [now rewrite Hfam|].
    intros [o Ho]. unfold height. rewrite Hfam.
    pose proof (parents_first_all _ _ Ho) as Hlt. simpl in Hlt.
    rewrite Hname. lia.
  - unfold get_conceptual_parent.
    assert (Htop : forall n, top_ancestor n a x = Ok x).
    { intros [|n]; simpl; now rewrite Hp. }
    destruct (LOGICAL_INHERITANCE (it_family x)) as [[levels next]|] eqn:Hli.
    + destruct (lookups_succeed x levels next Hx Hp Hli) as [r Hr].
      exists r. split.
      * intros n. rewrite Htop. cbn [mbind result_bind]. now rewrite Hli.
      * intros q ->.
        destruct (first_prev_level_items _ _ _ _ Hr) as (lv & Hlv & Hq).
        pose proof (get_items_family _ _ _ Hq) as Hfam.
        split; [now rewrite Hfam|].
        intros _. unfold height. rewrite Hfam.
        pose proof (prev_levels_lower _ _ _ _ Hli Hlv) as Hlevel.
        pose proof (global_bound_ge a rank lv.1 q Hq) as Hb.
        nia.
    + exists None. split; [|discriminate].
      intros n. rewrite Htop. cbn [mbind result_bind]. now rewrite Hli.
Qed.

Lemma climb_total_registered (n : nat) (q : obj) :
  q ∈ get_items a (it_family q.2) ->
  (height q.2 < n)%nat ->
  exists l, climb n a q.2 = Ok l.
Proof.
  revert q. induction n as [|n IH]; intros q Hq Hn; [lia|].
  assert (Hknown : known a self0 q.2).
  { right. exists q.1. now destruct q. }
  destruct (logical_parent_step q.2 Hknown) as (r & Hr & Hstep).
  rewrite climb_S, Hr. cbn [mbind result_bind].
  destruct r as [p|]; [|eauto].
  destruct (Hstep p eq_refl) as [Hp Hlt].
  destruct (IH p Hp) as [rest Hrest].
  { assert (height p.2 < height q.2)%nat; [|lia].
    apply Hlt. exists q.1. now destruct q. }
  rewrite Hrest. eauto.
Qed.

Lemma climb_total :
  exists fuel0 l, forall fuel, (fuel0 <= fuel)%nat -> climb fuel a self0 = Ok l.
Proof.
  set (top := (3 * S (global_bound a rank))%nat).
  assert (Hheight : forall q, q ∈ get_items a (it_family q.2) ->
                              (height q.2 < top)%nat).
  { intros q Hq. unfold height, top.
    pose proof (global_bound_ge a rank _ q Hq).
    assert (level (it_family q.2) <= 2)%nat
      by (destruct (it_family q.2); simpl; lia).
    nia. }
  assert (Hone : exists l, climb (S top) a self0 = Ok l).
  { destruct (logical_parent_step self0 (or_introl eq_refl))
      as (r & Hr & Hstep).
    rewrite climb_S, Hr. cbn [mbind result_bind].
    destruct r as [p|]; [|eauto].
    destruct (Hstep p eq_refl) as [Hp _].
    destruct (climb_total_registered top p Hp (Hheight p Hp)) as [rest ->].
    eauto. }
  destruct Hone as [l Hl]. exists (S top), l.
  intros fuel Hle. now apply (climb_mono_le (S top)).
Qed.

End Climbing.

(** X24: [grab_tree] returns on a well-formed graph.  When the parents
    of every collection come before their children in some ranking, and
    the lookups of the conceptual parent do not fail on the items
    concerned, the loop over the logical parents ends: a parent is
    lower in the ranking, a conceptual parent is of a family at a lower
    level of the hierarchy (system, then profile or image, then distro). *)
Theorem grab_tree_total (a : api) (self : item)
    (rank : family -> string -> nat) :
  (forall f c, c ∈ get_items a f ->
               (rank f (it_parent c.2) < rank f (it_name c.2))%nat) ->
  (forall c levels next,
     known a self c -> parent a c = None ->
     LOGICAL_INHERITANCE (it_family c) = Some (levels, next) ->
     exists r, first_prev_level a c levels = Ok r) ->
  exists fuel0 l,
    forall fuel, (fuel0 <= fuel)%nat -> grab_tree fuel a self = Ok l.
Proof.
  intros Hrank Hlook.
  destruct (climb_total a self rank Hrank Hlook) as (fuel0 & above & Habove).
  exists fuel0. eexists. intros fuel Hle. unfold grab_tree.
  rewrite (Habove fuel Hle). reflexivity.
Qed.

(** ** Descendants of a system *)

Lemma foldM_unchanged {A B : Type} (f : B -> A -> result B) (l : list A)
    (acc : B) :
  (forall x, x ∈ l -> f acc x = Ok acc) -> foldM f acc l = Ok acc.
Proof.
  induction l as [|x l IH]; intros H; [reflexivity|].
  simpl. rewrite (H x (list_elem_of_here _ _)). cbn [mbind result_bind].
  apply IH. intros y Hy. apply H. now apply list_elem_of_further.
Qed.

(** X25: the dependency table lists no dependent type for systems, so
    nothing depends on a system: the descendants of a system are the
    members of its own [tree_walk], each once, and no search for
    dependents is made. *)
Theorem descendants_of_system (fuel : nat) (a : api) (self : item) :
  it_family self = System ->
  descendants (S fuel) a self =
  (walk ← tree_walk (S fuel) a self; Ok (set_update [] walk)).
Proof.
  intros Hfam. rewrite descendants_S.
  destruct (tree_walk (S fuel) a self) as [walk| |] eqn:Hwalk;
    try reflexivity.
  cbn [mbind result_bind]. apply foldM_unchanged.
  intros child Hchild.
  assert (Hsys : it_family child = System).
  { apply elem_of_app in Hchild as [Hy|Hy].
    - apply list_elem_of_fmap in Hy as (y & -> & Hy).
      apply (tree_walk_descends _ _ _ _ y Hwalk) in Hy.
      apply descends_items, get_items_family in Hy. congruence.
    - apply list_elem_of_singleton in Hy. congruence. }
  unfold add_child_dependents. rewrite Hsys. reflexivity.
Qed.

(** ** Edge cases of the cache cleanup and of the conceptual parent *)

(** X27: with caching enabled, [_clean_dict_cache] called without an
    attribute name, or on an item that is not in memory, cleans the
    item's own cache and nothing else: the descendants are not even
    computed.  Called on an item in memory with a name for which the
    class has no attribute, it raises an [AttributeError] and cleans
    nothing, the item's own cache included. *)
Theorem clean_dict_cache_edges (fuel : nat) (a : api) (o : nat)
    (self : item) (cache_enabled : value) (name : option string) :
  deref a o = Ok self ->
  dict_get "cache_enabled" (api_settings a) = Some cache_enabled ->
  truthy cache_enabled = true ->
  (name = None \/ it_inmemory self = false ->
   _clean_dict_cache fuel a o name
   = (Ok (), update_obj (with_cache clean_dict_cache) o a))
  /\ (forall n,
        name = Some n -> it_inmemory self = true ->
        class_attr a (it_family self) (tail_str n) = None ->
        exists msg,
          _clean_dict_cache fuel a o name = (Raise (AttributeError msg), a)).
Proof.
  intros Hself Hce Ht. unfold _clean_dict_cache, reading.
  rewrite Hself, Hce, Ht. cbn [negb]. split.
  - intros [->|Hmem]; [reflexivity|].
    destruct name as [n|]; [|reflexivity]. now rewrite Hmem.
  - intros n -> Hmem Hattr. rewrite Hmem, Hattr. eexists. reflexivity.
Qed.

(** X28: the previous levels of a system are the image, then the
    profile.  A system without same-type parent whose image reference
    finds an image has that image as its conceptual parent, whatever its
    profile reference holds; the profile is looked up only when the
    image reference is [None] or empty, or finds nothing. *)
Theorem system_image_before_profile (fuel : nat) (a : api) (self : item)
    (image : value) :
  it_family self = System ->
  parent a self = None ->
  raw_attr self "image" = Ok image ->
  (forall x,
     usable_reference image = true ->
     find_item a Image [("name", image)] = Ok (Some x) ->
     get_conceptual_parent fuel a self = Ok (Some x))
  /\ (usable_reference image = false
      \/ find_item a Image [("name", image)] = Ok None ->
      get_conceptual_parent fuel a self
      = first_prev_level a self [(Profile, "profile")]).
Proof.
  intros Hfam Hp Himage.
  assert (Htop : top_ancestor fuel a self = Ok self).
  { destruct fuel; simpl; now rewrite Hp. }
  unfold get_conceptual_parent. rewrite Htop. cbn [mbind result_bind].
  rewrite Hfam. cbn [LOGICAL_INHERITANCE first_prev_level].
  rewrite Himage. cbn [mbind result_bind].
  unfold usable_reference. split.
  - intros x -> ->. reflexivity.
  - intros [->| ->]; [reflexivity|].
    destruct (negb (is_none image) && negb (py_eq image (VStr EmptyString)));
      reflexivity.
Qed.

End Item.

(** * Scenarios

    Concrete states on which the theorems above are exercised.  The
    converters of the match engine are instantiated by the simplest
    ones: the whole search string is one token, and no key-value pair is
    parsed.  The annihilator marker is a reserved string. *)

Definition one_token (s : string) : result value := Ok (VList [VStr s]).

Definition no_pairs (s : string) : result value := Ok (VDict []).

Definition marker : value := VStr "<<unset>>".

(** A populated cache entry. *)
Definition warm : cache :=
  {| cached_dict := Some [("name", VStr "cached")]; cached_fields := [] |}.

(** A registered, initialised item that is in memory. *)
Definition new_item (f : family) (name parent_name : string) (depth : Z)
    (attrs : dict) : item :=
  {| it_family := f; it_name := name; it_parent := parent_name;
     it_depth := depth; it_inmemory := true; it_has_initialized := true;
     it_registered := true; it_attrs := attrs; it_cache := warm |}.

(** The concrete families declare [server] as an inheritable scalar. *)
Definition schema (f : family) (name : string) : option descriptor :=
  if String.eqb name "server"
  then Some {| d_inheritable := true; d_getter := GResolve |}
  else None.

(** A distro, a profile on it, a sub-profile, a system, and a second
    distro that nothing refers to. *)
Definition d1 : item :=
  new_item Distro "d1" EmptyString 0
    [("kernel_options", VDict [("a", VStr "1"); ("quiet", marker)])].

Definition p1 : item :=
  new_item Profile "p1" EmptyString 0
    [("distro", VStr "d1"); ("kernel_options", VStr VALUE_INHERITED);
     ("server", VStr VALUE_INHERITED); ("menu", VStr EmptyString);
     ("repos", VList [])].

Definition p2 : item :=
  new_item Profile "p2" "p1" 1
    [("distro", VStr EmptyString);
     ("kernel_options", VDict [("b", VStr "2"); ("g", marker)]);
     ("server", VStr VALUE_INHERITED); ("menu", VStr EmptyString);
     ("repos", VList [])].

Definition s1 : item :=
  new_item System "s1" EmptyString 0
    [("profile", VStr "p2"); ("image", VStr EmptyString);
     ("kernel_options", VDict [])].

Definition d2 : item := new_item Distro "d2" EmptyString 0 [].

Definition site : api :=
  {| api_objs := [d1; p1; p2; s1; d2];
     api_settings :=
       [("cache_enabled", VBool true); ("server", VStr "10.0.0.1");
        ("kernel_options", VDict [("g", VStr "1")])];
     api_schema := schema |}.

(** A rank for [site]: parents before children, items before their
    dependents. *)
Definition site_rank (f : family) (name : string) : nat :=
  if String.eqb name EmptyString then 0
  else match f with
       | Profile => if String.eqb name "p2" then 3 else 2
       | System => 4
       | _ => 1
       end.

(** ** The match engine on concrete criteria *)


Lemma find_match_none_pattern_witness :
  find_match one_token no_pairs
    (("interfaces", VDict [("eth0", VDict [("mac_address", VStr "aa:bb")])])
     :: to_dict s1)
    [("profile", VNone); ("name", VStr "s?")] false = Ok true.
Proof.
  assert (Hifs : forall v,
             dict_get "interfaces"
               (("interfaces",
                 VDict [("eth0", VDict [("mac_address", VStr "aa:bb")])])
                :: to_dict s1) = Some v ->
             exists ifs, v = VDict ifs).
  { intros v [= <-]. eexists. reflexivity. }
  destruct (find_match_none_pattern one_token no_pairs
              (("interfaces",
                VDict [("eth0", VDict [("mac_address", VStr "aa:bb")])])
               :: to_dict s1)
              "profile" [("name", VStr "s?")] false eq_refl Hifs)
    as (_ & _ & Hrest).
  rewrite Hrest. reflexivity.
Defined.

(** ** Resolution on concrete states *)

Ltac distinct_keys :=
  repeat (apply NoDup_cons; split;
          [rewrite ?not_elem_of_cons; repeat split;
           try discriminate; apply not_elem_of_nil|]);
  apply NoDup_nil_2.


Lemma resolve_dict_merge_witness :
  exists merged,
    _resolve_dict one_token no_pairs marker 4 site p2 "kernel_options"
    = Ok (VDict merged)
    /\ dict_get "a" merged = Some (VStr "1")
    /\ dict_get "b" merged = Some (VStr "2")
    /\ dict_get "g" merged = None.
Proof.
  destruct (resolve_dict_merge one_token no_pairs marker 4 site p2
              "kernel_options" (VDict [("b", VStr "2"); ("g", marker)])
              (Some (0%nat, d1))
              (Some (VDict [("g", VStr "1"); ("a", VStr "1")]))
              [("g", VStr "1"); ("a", VStr "1")])
    as (merged & Hrun & Hget & _).
  - reflexivity.
  - reflexivity.
  - reflexivity.
  - reflexivity.
  - distinct_keys.
  - right. eexists. split; [reflexivity|distinct_keys].
  - exists merged. split; [exact Hrun|].
    rewrite !Hget. repeat split; reflexivity.
Defined.

(** ** The parent setter on a concrete state *)

Lemma set_parent_rejects_witness :
  (exists msg, set_parent one_token no_pairs 3 site 2 (VStr "p2")
               = (Raise (CX msg), site))
  /\ (exists msg, set_parent one_token no_pairs 3 site 2 (VStr "p9")
                  = (Raise (CX msg), site)).
Proof.
  split.
  - apply (set_parent_rejects one_token no_pairs 3 site 2 p2 "p2");
      [reflexivity|discriminate|left; reflexivity].
  - apply (set_parent_rejects one_token no_pairs 3 site 2 p2 "p9");
      [reflexivity|discriminate|right; reflexivity].
Defined.

(** C6: the sub-profile [p2] has depth 1 under its parent [p1]; after
    its parent is cleared it has no parent and its depth is still 1,
    not 0. *)
Theorem set_parent_clear_stale_depth :
  it_depth <$> api_objs site !! 2%nat = Some 1%Z
  /\ exists a',
       set_parent one_token no_pairs 3 site 2 (VStr EmptyString)
       = (Ok (), a')
       /\ it_parent <$> api_objs a' !! 2%nat = Some EmptyString
       /\ it_depth <$> api_objs a' !! 2%nat = Some 1%Z.
Proof.
  split; [reflexivity|]. eexists. repeat split; reflexivity.
Qed.

(** ** The conceptual parent on concrete states *)

(** A profile outside the collections whose reference to a distro is
    the sentinel. *)
Definition floating : item :=
  new_item Profile "floating" EmptyString 0
    [("distro", VStr VALUE_INHERITED)].

Lemma site_sentinel_free (ty : family) (y : obj) :
  y ∈ get_items site ty -> lower (it_name y.2) <> VALUE_INHERITED.
Proof.
  intros Hy. apply list_elem_of_In in Hy.
  destruct ty; vm_compute in Hy;
    repeat (destruct Hy as [<-|Hy]; [discriminate|]); contradiction.
Defined.

Lemma conceptual_parent_lookup_witness :
  parent site p1 = None
  /\ get_conceptual_parent one_token no_pairs 3 site p2
     = Ok (Some (0%nat, d1))
  /\ get_conceptual_parent one_token no_pairs 3 site floating = Ok None.
Proof.
  destruct (conceptual_parent_lookup one_token no_pairs 3 site p2 p1
              eq_refl site_sentinel_free) as (Htop & _ & Hfound & _).
  destruct (conceptual_parent_lookup one_token no_pairs 3 site floating
              floating eq_refl site_sentinel_free)
    as (_ & _ & _ & Hnone & _).
  split; [exact Htop|]. split.
  - apply Hfound.
    exists [(Distro, "distro")], [(System, "profile")], [], (Distro, "distro"),
      [].
    split; [reflexivity|]. split; [reflexivity|]. split; [constructor|].
    exists (VStr "d1"). repeat split; reflexivity.
  - apply Hnone. intros prev next [= <- <-].
    constructor; [|constructor].
    exists (VStr VALUE_INHERITED). split; [reflexivity|].
    left. reflexivity.
Defined.

(** ** Cache invalidation on a concrete state *)





(** ** Traversal on concrete states *)

(** Split a membership in a concrete list into its cases. *)
Ltac members H :=
  apply list_elem_of_In in H; vm_compute in H;
  repeat (destruct H as [H|H]; [try (injection H as <- <-); try subst|]);
  try contradiction.

Lemma site_parents_first (f : family) (c : obj) :
  c ∈ get_items site f ->
  (site_rank f (it_parent c.2) < site_rank f (it_name c.2))%nat.
Proof.
  intros Hc. destruct f; members Hc; vm_compute; lia.
Defined.

Lemma tree_walk_preorder_witness :
  exists fuel0 l,
    (forall fuel, (fuel0 <= fuel)%nat -> tree_walk fuel site p1 = Ok l)
    /\ NoDup l
    /\ 1%nat ∉ map fst l.
Proof.
  destruct (tree_walk_preorder site p1 (site_rank Profile))
    as (fuel0 & l & Hrun & _ & Hnd & _ & _ & Hself).
  - vm_compute. distinct_keys.
  - apply site_parents_first.
  - exists fuel0, l. split; [exact Hrun|]. split; [exact Hnd|].
    apply Hself. reflexivity.
Defined.

(** The profile [p1] refers to the distro [d1], which is its conceptual
    parent, and the walk of [d1] is empty. *)
Lemma tree_walk_omits_other_families :
  raw_attr p1 "distro" = Ok (VStr "d1")
  /\ get_conceptual_parent one_token no_pairs 3 site p1
     = Ok (Some (0%nat, d1))
  /\ tree_walk 3 site d1 = Ok [].
Proof. repeat split; reflexivity. Qed.








(** * Scenarios for the further properties *)

(** ** The match engine *)

Lemma find_match_negation_witness :
  find_match one_token no_pairs (to_dict s1) [("profile", VStr "~p2")] false
  = Ok false
  /\ find_match one_token no_pairs (to_dict s1) [("profile", VStr "~~p2")]
       false = Ok true.
Proof.
  destruct (find_match_negation one_token no_pairs (to_dict s1) "profile"
              "p2" false eq_refl) as [H1 H2].
  rewrite H1, H2. split; reflexivity.
Defined.

Lemma find_match_rejects_non_string_witness :
  exists msg,
    find_match one_token no_pairs (to_dict s1)
      [("netboot_enabled", VBool true); ("name", VStr "s1")] false
    = Raise (AttributeError msg).
Proof.
  apply (find_match_rejects_non_string one_token no_pairs (to_dict s1)
           "netboot_enabled" (VBool true) [("name", VStr "s1")] false);
    discriminate.
Defined.

Lemma find_match_single_key_missing_witness :
  find_match_single_key one_token no_pairs (to_dict s1) "gateway"
    (VStr "10.0.0.254") true = Raise (KeyError "gateway")
  /\ find_match_single_key one_token no_pairs (to_dict s1) "gateway"
       VNone false = Ok false.
Proof.
  split.
  - apply (find_match_single_key_missing one_token no_pairs (to_dict s1)
             "gateway" (VStr "10.0.0.254") true eq_refl (or_introl eq_refl)).
  - apply (find_match_single_key_missing one_token no_pairs (to_dict s1)
             "gateway" VNone false eq_refl (or_introl eq_refl)).
Defined.

(** A converter that reads its argument as the value of the key [a]. *)
Definition a_is (s : string) : result value := Ok (VDict [("a", VStr s)]).

Lemma find_compare_dict_witness :
  find_compare one_token a_is (VStr "1")
    (VDict [("b", VStr "2"); ("a", VStr "1")]) = Ok true.
Proof.
  apply (find_compare_dict one_token a_is "1" [("a", VStr "1")]
           [("b", VStr "2"); ("a", VStr "1")] eq_refl).
  distinct_keys.
Defined.

(** A system with one interface, whose hardware address is stored as a
    glob. *)
Definition wired : dict :=
  ("interfaces", VDict [("eth0", VDict [("mac_address", VStr "aa:*")])])
  :: to_dict s1.

Lemma find_match_single_key_interfaces_witness :
  find_match_single_key one_token no_pairs wired "mac_address" (VStr "AA:BB")
    false = Ok true
  /\ find_match_single_key one_token no_pairs wired "mtu" (VStr "eth0")
       false = Ok true.
Proof.
  split.
  - apply (find_match_single_key_interfaces one_token no_pairs wired
             [("eth0", VDict [("mac_address", VStr "aa:*")])]
             "mac_address" "AA:BB" false eq_refl eq_refl eq_refl).
    repeat constructor. eexists. split; [reflexivity|].
    intros w [= <-]. eexists. reflexivity.
  - apply (find_match_single_key_interfaces one_token no_pairs wired
             [("eth0", VDict [("mac_address", VStr "aa:*")])]
             "mtu" "eth0" false eq_refl eq_refl eq_refl).
    repeat constructor. eexists. split; [reflexivity|].
    intros w [=].
Defined.

Lemma find_compare_domain_witness :
  (exists msg, find_compare one_token no_pairs (VBool true) (VStr "yes")
               = Raise (AttributeError msg))
  /\ (exists msg, find_compare one_token no_pairs (VStr "yes") VNone
                  = Raise (TypeError msg)).
Proof.
  destruct (find_compare_domain one_token no_pairs (VBool true) (VStr "yes"))
    as (_ & Hsearch & _).
  destruct (find_compare_domain one_token no_pairs (VStr "yes") VNone)
    as (_ & _ & Hobj).
  split; [apply Hsearch; discriminate|exact (Hobj "yes" eq_refl)].
Defined.

Lemma find_compare_list_witness :
  find_compare one_token no_pairs (VStr "x") (VList [VStr "y"; VStr "x"])
  = Ok true.
Proof.
  destruct (find_compare_list one_token no_pairs "x" [VStr "y"; VStr "x"])
    as (Htokens & _ & _).
  exact (Htokens [VStr "x"] eq_refl).
Defined.

(** ** Resolution *)

(** A profile that inherits its owners, under settings that name the
    default owners. *)
Definition owned : item :=
  new_item Profile "owned" EmptyString 0
    [("distro", VStr EmptyString); ("owners", VStr VALUE_INHERITED);
     ("proxy", VStr "http://proxy:3128")].

Definition owned_site : api :=
  {| api_objs := [owned];
     api_settings := [("cache_enabled", VBool true);
                      ("owners", VList [VStr "nobody"]);
                      ("default_ownership", VList [VStr "admin"])];
     api_schema := schema |}.

Lemma resolve_renamed_attributes_witness :
  _resolve one_token no_pairs marker 3 owned_site owned "owners"
  = Ok (VList [VStr "admin"])
  /\ _resolve one_token no_pairs marker 3 owned_site owned "proxy_url_ext"
     = Ok (VStr "http://proxy:3128").
Proof.
  destruct (resolve_renamed_attributes one_token no_pairs marker 3 owned_site
              owned) as [Howners Hproxy].
  split.
  - rewrite Howners; reflexivity.
  - apply Hproxy; reflexivity.
Defined.

Lemma resolve_inherits_from_parent_witness :
  _resolve one_token no_pairs marker 3 site p2 "server"
  = Ok (VStr "10.0.0.1").
Proof.
  destruct (resolve_inherits_from_parent one_token no_pairs marker 2 site p2
              (1%nat, p1) "server" (VStr VALUE_INHERITED) "server"
              (Some (0%nat, d1))
              {| d_inheritable := true; d_getter := GResolve |}
              eq_refl eq_refl eq_refl eq_refl eq_refl eq_refl)
    as [Hvalue _].
  exact (Hvalue (VStr "10.0.0.1") eq_refl).
Defined.

(** ** The parent graph *)

Lemma site_profiles_named (y : obj) :
  y ∈ get_items site Profile -> it_name y.2 <> EmptyString.
Proof. intros Hy. members Hy; discriminate. Defined.

Lemma parent_children_inverse_witness :
  (2%nat, p2) ∈ children site p1.
Proof.
  apply (parent_children_inverse site (1%nat, p1) (2%nat, p2)).
  - vm_compute. distinct_keys.
  - apply site_profiles_named.
  - apply list_elem_of_In. vm_compute. auto.
  - apply list_elem_of_In. vm_compute. auto.
  - reflexivity.
Defined.

Lemma conceptual_parent_shared_witness :
  exists fuel0,
    forall fuel l y,
      (fuel0 <= fuel)%nat ->
      tree_walk fuel site p1 = Ok l -> y ∈ l ->
      get_conceptual_parent one_token no_pairs fuel site y.2
      = get_conceptual_parent one_token no_pairs fuel site p1.
Proof.
  apply (conceptual_parent_shared one_token no_pairs site 1 p1
           (site_rank Profile)).
  - vm_compute. distinct_keys.
  - apply site_parents_first.
  - apply site_profiles_named.
  - apply list_elem_of_In. vm_compute. auto.
Defined.

(** Two menus, each the parent of the other. *)
Definition loop_a : item := new_item Menu "a" "b" 1 [].

Definition loop_b : item := new_item Menu "b" "a" 1 [].

Definition loops : api :=
  {| api_objs := [loop_a; loop_b];
     api_settings := [("cache_enabled", VBool true)];
     api_schema := schema |}.

Lemma tree_walk_cycle_witness : tree_walk 64 loops loop_a = Diverge.
Proof.
  apply (tree_walk_cycle loops 0 loop_a).
  apply (descends_below _ _ _ (1%nat, loop_b)).
  - apply descends_child; [|reflexivity].
    apply list_elem_of_In. vm_compute. auto.
  - apply list_elem_of_In. vm_compute. auto.
  - reflexivity.
Defined.

(** ** The parent setter *)

(** The profile [p2] is moved below the profile [p1] once more, and the
    profile [p1] below its own child [p2]. *)
Definition site_again : api :=
  (set_parent one_token no_pairs 3 site 2 (VStr "p1")).2.

Definition site_cyclic : api :=
  (set_parent one_token no_pairs 3 site 1 (VStr "p2")).2.

Lemma set_parent_frame_witness :
  api_settings site_cyclic = api_settings site
  /\ exists it',
       api_objs site_cyclic !! 2%nat = Some it'
       /\ it_name it' = "p2" /\ it_family it' = Profile
       /\ it_registered it' = true /\ it_attrs it' = it_attrs p2
       /\ (2%nat <> 1%nat -> it_parent it' = "p1" /\ it_depth it' = 1%Z).
Proof.
  destruct (set_parent_frame one_token no_pairs 3 site 1 (VStr "p2")
              (Ok ()) site_cyclic eq_refl) as [Hsettings Hobjs].
  split; [exact Hsettings|]. exact (Hobjs 2%nat p2 eq_refl).
Defined.

Lemma set_parent_valid_witness :
  exists found self',
    collection_get (get_items site Profile) "p1" = Some found
    /\ found.1 <> 2%nat
    /\ api_objs site_again !! 2%nat = Some self'
    /\ it_parent self' = "p1"
    /\ it_depth self' = (it_depth found.2 + 1)%Z.
Proof.
  apply (set_parent_valid one_token no_pairs 3 site site_again 2 p2 "p1");
    [reflexivity|discriminate|reflexivity].
Defined.

Lemma set_parent_closes_cycle_witness :
  exists self',
    api_objs site_cyclic !! 1%nat = Some self'
    /\ it_parent self' = "p2"
    /\ forall n, tree_walk n site_cyclic self' = Diverge.
Proof.
  apply (set_parent_closes_cycle one_token no_pairs 3 site site_cyclic 1 p1
           "p2" (2%nat, p2));
    [reflexivity|reflexivity|discriminate|reflexivity|reflexivity
    |reflexivity].
Defined.

(** ** Deduplication *)

Lemma deduplicate_removes_inherited_witness :
  exists r,
    _deduplicate_dict one_token no_pairs marker 4 site p1 "kernel_options"
      [("a", VStr "1"); ("c", VStr "3")] = Ok r
    /\ dict_get "a" r = None
    /\ dict_get "c" r = Some (VStr "3").
Proof.
  destruct (deduplicate_removes_inherited one_token no_pairs marker 4 site p1
              "kernel_options" (VStr VALUE_INHERITED) "kernel_options"
              (Some (0%nat, d1)) None
              (Some (VDict [("g", VStr "1"); ("a", VStr "1")]))
              [("g", VStr "1"); ("a", VStr "1")]
              [("a", VStr "1"); ("c", VStr "3")]
              eq_refl eq_refl eq_refl (fun _ => eq_refl) eq_refl)
    as (r & Hr & Hget).
  exists r. split; [exact Hr|]. rewrite !Hget. split; reflexivity.
Defined.

Lemma deduplicate_keeps_resolution_witness :
  exists r,
    _deduplicate_dict one_token no_pairs marker 4 site p1 "kernel_options"
      [("a", VStr "1"); ("c", VStr "3")] = Ok r
    /\ agree
         (overlay_get [("g", VStr "1"); ("a", VStr "1")] (VDict r) "a")
         (Some (VStr "1")).
Proof.
  destruct (deduplicate_keeps_resolution one_token no_pairs marker 4 site p1
              "kernel_options" (VStr VALUE_INHERITED) (Some (0%nat, d1))
              (Some (VDict [("g", VStr "1"); ("a", VStr "1")]))
              [("g", VStr "1"); ("a", VStr "1")]
              [("a", VStr "1"); ("c", VStr "3")]
              eq_refl eq_refl eq_refl eq_refl)
    as (r & Hr & Hagree).
  - discriminate.
  - reflexivity.
  - exists r. split; [exact Hr|]. exact (Hagree "a").
Defined.

(** ** The setters *)

(** A converter that takes a dict as it is and the sentinel string as
    the sentinel, and refuses everything else. *)
Definition dict_or_inherit (options : value) (allow_multiples : bool)
    : result converted :=
  match options with
  | VDict d => Ok (Mapping d)
  | VStr s =>
      if String.eqb s VALUE_INHERITED then Ok Inherit
      else Raise (ValueError "cannot be split")
  | _ => Raise (TypeError "invalid input type")
  end.

Definition site_options : api :=
  (set_kernel_options one_token no_pairs marker dict_or_inherit 5 site 1
     (VDict [("a", VStr "1"); ("c", VStr "3")])).2.

Lemma set_kernel_options_stores_witness :
  exists v,
    assigned 1 "kernel_options" v site site_options
    /\ ((dict_or_inherit (VDict [("a", VStr "1"); ("c", VStr "3")]) true
         = Ok Inherit /\ v = VStr VALUE_INHERITED)
        \/ exists d r,
             dict_or_inherit (VDict [("a", VStr "1"); ("c", VStr "3")]) true
             = Ok (Mapping d)
             /\ _deduplicate_dict one_token no_pairs marker 5 site p1
                  "kernel_options" d = Ok r
             /\ v = VDict r).
Proof.
  apply (set_kernel_options_stores one_token no_pairs marker dict_or_inherit
           5 site site_options 1 p1
           (VDict [("a", VStr "1"); ("c", VStr "3")]));
    reflexivity.
Defined.

Lemma set_kernel_options_errors_witness :
  set_kernel_options one_token no_pairs marker dict_or_inherit 5 site 1
    (VInt 7) = (Raise (TypeError "invalid kernel value"), site)
  /\ set_kernel_options one_token no_pairs marker dict_or_inherit 5 site 1
       (VStr "a=") = (Raise (ValueError "cannot be split"), site).
Proof.
  destruct (set_kernel_options_errors one_token no_pairs marker
              dict_or_inherit 5 site 1 (VInt 7)) as (_ & Hconv & _).
  destruct (set_kernel_options_errors one_token no_pairs marker
              dict_or_inherit 5 site 1 (VStr "a=")) as (_ & Hconv' & _).
  split; [exact (Hconv _ eq_refl)|exact (Hconv' _ eq_refl)].
Defined.

(** A converter that takes a dict as it is and refuses everything
    else. *)
Definition dict_only (options : value) (allow_multiples : bool)
    : result dict :=
  match options with
  | VDict d => Ok d
  | _ => Raise (TypeError "invalid input type")
  end.

Definition site_post : api :=
  (set_kernel_options_post one_token no_pairs dict_or_inherit 5 site 1
     (VDict [("a", VStr "1")])).2.

Lemma plain_setters_store_witness :
  exists c,
    dict_or_inherit (VDict [("a", VStr "1")]) true = Ok c
    /\ assigned 1 "kernel_options_post" (stored c) site site_post.
Proof.
  destruct (plain_setters_store one_token no_pairs dict_or_inherit dict_only
              5 site site_post 1 (VDict [("a", VStr "1")]))
    as (Hpost & _ & _ & _).
  apply Hpost. reflexivity.
Defined.

Definition site_meta : api :=
  (set_autoinstall_meta one_token no_pairs marker dict_or_inherit 5 site 1
     (VStr VALUE_INHERITED)).2.

Lemma set_autoinstall_meta_stores_witness :
  (exists v, assigned 1 "autoinstall_meta" v site site_meta)
  /\ set_autoinstall_meta one_token no_pairs marker dict_or_inherit 5 site 1
       (VInt 7) = (Raise (TypeError "invalid input type"), site).
Proof.
  destruct (set_autoinstall_meta_stores one_token no_pairs marker
              dict_or_inherit 5 site site_meta 1 p1 (VStr VALUE_INHERITED)
              eq_refl) as (Hstore & _ & _).
  destruct (set_autoinstall_meta_stores one_token no_pairs marker
              dict_or_inherit 5 site site 1 p1 (VInt 7) eq_refl)
    as (_ & Herr & _).
  split.
  - destruct (Hstore eq_refl) as (v & Hv & _). exists v. exact Hv.
  - exact (Herr _ eq_refl).
Defined.

Lemma setters_check_types_witness :
  (exists msg, set_depth one_token no_pairs 3 site 1 (VStr "1")
               = (Raise (TypeError msg), site))
  /\ (exists msg, set_parent one_token no_pairs 3 site 1 VNone
                  = (Raise (TypeError msg), site))
  /\ (exists msg, set_is_subobject one_token no_pairs 3 site 1 (VInt 1)
                  = (Raise (TypeError msg), site)).
Proof.
  destruct (setters_check_types one_token no_pairs 3 site 1 (VStr "1"))
    as (Hdepth & _ & _).
  destruct (setters_check_types one_token no_pairs 3 site 1 VNone)
    as (_ & Hparent & _).
  destruct (setters_check_types one_token no_pairs 3 site 1 (VInt 1))
    as (_ & _ & Hsub).
  split; [apply Hdepth; discriminate|].
  split; [apply Hparent; [discriminate|eexists; reflexivity]|].
  apply Hsub; discriminate.
Defined.

(** ** Climbing the tree *)

Lemma grab_tree_shape_witness :
  exists above,
    [NItem s1; NItem p2; NItem p1; NItem d1; NSettings (api_settings site)]
    = (NItem s1 :: map (fun q : obj => NItem q.2) above
         ++ [NSettings (api_settings site)])%list
    /\ climbs one_token no_pairs site s1 above.
Proof.
  destruct (grab_tree_shape one_token no_pairs 5 site s1
              [NItem s1; NItem p2; NItem p1; NItem d1;
               NSettings (api_settings site)] eq_refl)
    as (above & Heq & Hclimbs & _).
  exists above. split; assumption.
Defined.

Lemma site_lookups_succeed (c : item)
    (levels next : list (family * string)) :
  known site s1 c -> parent site c = None ->
  LOGICAL_INHERITANCE (it_family c) = Some (levels, next) ->
  exists r, first_prev_level one_token no_pairs site c levels = Ok r.
Proof.
  intros [->|[o Hc]] Hp Hli.
  - injection Hli as <- <-. eexists. reflexivity.
  - destruct (it_family c) eqn:Hf; members Hc; try discriminate Hf;
      try discriminate Hp; try discriminate Hli;
      injection Hli as <- <-; eexists; reflexivity.
Defined.

Lemma grab_tree_total_witness :
  exists fuel0 l,
    forall fuel, (fuel0 <= fuel)%nat ->
                 grab_tree one_token no_pairs fuel site s1 = Ok l.
Proof.
  apply (grab_tree_total one_token no_pairs site s1 site_rank
           site_parents_first site_lookups_succeed).
Defined.

(** ** Descendants of a system *)

Lemma descendants_of_system_witness :
  descendants one_token no_pairs 3 site s1 = Ok [].
Proof.
  rewrite (descendants_of_system one_token no_pairs 2 site s1 eq_refl).
  reflexivity.
Defined.

(** ** Edge cases *)

Lemma clean_dict_cache_edges_witness :
  _clean_dict_cache one_token no_pairs 3 site 1 None
  = (Ok (), update_obj (with_cache clean_dict_cache) 1 site)
  /\ exists msg,
       _clean_dict_cache one_token no_pairs 3 site 1 (Some "_scratch")
       = (Raise (AttributeError msg), site).
Proof.
  destruct (clean_dict_cache_edges one_token no_pairs 3 site 1 p1
              (VBool true) None eq_refl eq_refl eq_refl) as [Hnone _].
  destruct (clean_dict_cache_edges one_token no_pairs 3 site 1 p1
              (VBool true) (Some "_scratch") eq_refl eq_refl eq_refl)
    as [_ Hunknown].
  split.
  - apply Hnone. left. reflexivity.
  - apply (Hunknown "_scratch"); reflexivity.
Defined.

(** A system that refers to an image and to a profile. *)
Definition installer : item := new_item Image "installer" EmptyString 0 [].

Definition both : item :=
  new_item System "both" EmptyString 0
    [("profile", VStr "p1"); ("image", VStr "installer")].

Definition site_images : api :=
  {| api_objs := [d1; p1; installer; both];
     api_settings := [("cache_enabled", VBool true)];
     api_schema := schema |}.

Lemma system_image_before_profile_witness :
  get_conceptual_parent one_token no_pairs 3 site_images both
  = Ok (Some (2%nat, installer)).
Proof.
  destruct (system_image_before_profile one_token no_pairs 3 site_images
              both (VStr "installer") eq_refl eq_refl eq_refl)
    as [Himage _].
  apply Himage; reflexivity.
Defined.
